(** * Overlay compositing engine of slidechange: a shallow embedding

    This development embeds [src/lib/overlayRenderer.ts] and states the
    properties of its region resolver, background reconstructor, style
    normalizers and text fitter.  It then embeds what the rest of the
    application does with overlays: the slide handlers and the key mask of
    [App.tsx], the normalizers of the style panel ([Sidebar.tsx]), the
    pointer and wheel handlers of [EditorCanvas.tsx], and the page geometry
    and file name of the exports.

    Number model.  A JavaScript [number] is modelled by an exact number:
    integer-valued quantities (pixel coordinates, canvas sizes, colour
    channels, the results of [Math.floor], [Math.ceil] and [Math.round]) are
    [Z], every other quantity (authored rectangles, font sizes, measured text
    widths, blend factors) is a rational [Q].  [NaN] and the infinities are
    outside the model; where the source tests for them the corresponding
    input is an [option].  Where a rounding of the source's double arithmetic
    could matter, the comment next to the definition says why it does not.

    String model.  A string is a [string] of one-byte characters, so that a
    character, a UTF-16 code unit and a code point coincide: [text[i]],
    [text.length] and [for (const ch of line)] all walk the same sequence. *)

From Stdlib Require Import ZArith QArith Qround Qminmax Qabs String Ascii List Bool Lia Lqa.
From Stdlib Require DecimalString DecimalZ DecimalN HexadecimalString.
From stdpp Require Import base list.
Import ListNotations.

Local Open Scope Z_scope.

(** ** Geometry *)

(** [types.ts]: [Rect], as authored by the editor: fractional, possibly
    negative or out of the canvas. *)
Module Rect.
Record t : Type := mk { x : Q; y : Q; width : Q; height : Q }.
End Rect.

(** [overlayRenderer.ts]: [IntRect], pixel aligned. *)
Module IntRect.
Record t : Type := mk { x : Z; y : Z; width : Z; height : Z }.
End IntRect.

(** [const clamp = (value, min, max) => Math.max(min, Math.min(max, value))],
    at integer-valued arguments. *)
Definition clampZ (value min max : Z) : Z := Z.max min (Z.min max value).

(** The same [clamp], at fractional arguments. *)
Definition clamp (value min max : Q) : Q := Qmax min (Qmin max value).

Definition toIntRect (rect : Rect.t) (canvasWidth canvasHeight : Z) : IntRect.t :=
  let x := clampZ (Qfloor (Rect.x rect)) 0 (Z.max 0 (canvasWidth - 1)) in
  let y := clampZ (Qfloor (Rect.y rect)) 0 (Z.max 0 (canvasHeight - 1)) in
  let right := clampZ (Qceiling (Rect.x rect + Rect.width rect)) 0 canvasWidth in
  let bottom := clampZ (Qceiling (Rect.y rect + Rect.height rect)) 0 canvasHeight in
  {| IntRect.x := x;
     IntRect.y := y;
     IntRect.width := Z.max 0 (right - x);
     IntRect.height := Z.max 0 (bottom - y) |}.

(** The rectangle lies in the canvas: what §3 of the specification promises
    of every resolved rectangle. *)
Definition inCanvas (r : IntRect.t) (canvasWidth canvasHeight : Z) : Prop :=
  0 <= IntRect.x r /\ 0 <= IntRect.y r /\
  0 <= IntRect.width r /\ 0 <= IntRect.height r /\
  IntRect.x r + IntRect.width r <= canvasWidth /\
  IntRect.y r + IntRect.height r <= canvasHeight.

(** ** Strings *)

(** The white space that [String.prototype.trim] and [parseInt] skip, among
    the one-byte characters: TAB, LF, VT, FF, CR, SP and NBSP. *)
Definition isWhiteSpace (c : ascii) : bool :=
  let n := N_of_ascii c in
  ((9 <=? n) && (n <=? 13) || (n =? 32) || (n =? 160))%N.

Fixpoint trimStart (s : string) : string :=
  match s with
  | String c rest => if isWhiteSpace c then trimStart rest else s
  | EmptyString => EmptyString
  end.

Fixpoint trimEnd (s : string) : string :=
  match s with
  | String c rest =>
      match trimEnd rest with
      | EmptyString => if isWhiteSpace c then EmptyString else String c EmptyString
      | kept => String c kept
      end
  | EmptyString => EmptyString
  end.

(** [value.trim()] *)
Definition trim (s : string) : string := trimStart (trimEnd s).

(** The character class [[0-9a-fA-F]]. *)
Definition isHexDigit (c : ascii) : bool :=
  let n := N_of_ascii c in
  ((48 <=? n) && (n <=? 57) || (65 <=? n) && (n <=? 70) || (97 <=? n) && (n <=? 102))%N.

Fixpoint allHexDigits (s : string) : bool :=
  match s with
  | String c rest => isHexDigit c && allHexDigits rest
  | EmptyString => true
  end.

(** [/^#([0-9a-fA-F]{n})$/.test(v)]: without the [m] flag [$] is the end of
    the input, so the test is: a hash sign, then exactly [n] hex digits. *)
Definition testHexPattern (n : nat) (v : string) : bool :=
  match v with
  | String "#" digits => (String.length digits =? n)%nat && allHexDigits digits
  | _ => false
  end.

(** [c[i]] inside a template literal: the character as a string; an absent
    character prints as ["undefined"]. *)
Definition charAt (s : string) (i : nat) : string :=
  match String.get i s with
  | Some c => String c EmptyString
  | None => "undefined"%string
  end.

(** ** Style normalizers *)

Definition normalizeHexColor (value fallback : string) : string :=
  let v := trim value in
  if testHexPattern 6 v then v
  else if testHexPattern 3 v then
    let c := String.substring 1 (String.length v - 1) v in
    String.concat "" ["#"%string; charAt c 0; charAt c 0; charAt c 1; charAt c 1;
                      charAt c 2; charAt c 2]
  else fallback.

(** What [normalizeWeight] is handed: [undefined], a number or a string.
    A number is an integer of magnitude below [10^21], which [String] prints
    as its plain decimal numeral. *)
Inductive WeightInput : Type :=
| WUndefined
| WNumber (n : Z)
| WString (s : string).

(** [String(n)] for such a number. *)
Definition numberToString (n : Z) : string := DecimalString.NilZero.string_of_int (Z.to_int n).

Definition isDigit (c : ascii) : bool :=
  let n := N_of_ascii c in ((48 <=? n) && (n <=? 57))%N.

(** The longest prefix of decimal digits. *)
Fixpoint takeDigits (s : string) : string :=
  match s with
  | String c rest => if isDigit c then String c (takeDigits rest) else EmptyString
  | EmptyString => EmptyString
  end.

(** [Number.parseInt(s, 10)]: leading white space, an optional sign, then
    the longest run of digits; [None] is [NaN] (no digit at all). *)
Definition parseInt10 (s : string) : option Z :=
  let s := trimStart s in
  let '(negative, body) :=
    match s with
    | String "-" rest => (true, rest)
    | String "+" rest => (false, rest)
    | _ => (false, s)
    end in
  match DecimalString.NilZero.uint_of_string (takeDigits body) with
  | Some digits => Some (if negative then - Z.of_uint digits else Z.of_uint digits)
  | None => None
  end.

(** [Math.round]: to the nearest integer, a half goes up. *)
Definition Math_round (v : Q) : Z := Qfloor (v + (1 # 2)).

(** [String(value ?? "500")] *)
Definition weightText (value : WeightInput) : string :=
  match value with
  | WUndefined => "500"%string
  | WNumber n => numberToString n
  | WString s => s
  end.

(** [parsed / 100] is a double division.  It is exact when [parsed] ends in
    50, and otherwise the quotient is at least 1/100 away from a half, far
    more than the rounding error of a double below 2^53: [Math.round] of the
    double is [Math.round] of the exact quotient. *)
Definition normalizeWeight (value : WeightInput) : Z :=
  match parseInt10 (weightText value) with
  | None => 500
  | Some parsed => clampZ (Math_round (inject_Z parsed / 100) * 100) 100 900
  end.

(** [None] is a value that is not a number, or [NaN]. *)
Definition normalizeLineHeight (value : option Q) : Q :=
  match value with
  | None => 12 # 10
  | Some v => clamp v (8 # 10) (24 # 10)
  end.

Definition normalizeLetterSpacing (value : option Q) : Q :=
  match value with
  | None => 0
  | Some v => clamp v (-2) 12
  end.

(** ** The canvas host

    The renderer draws through a [CanvasRenderingContext2D].  What follows is
    the part of that interface the renderer uses, as the HTML canvas
    specification defines it, on a surface of straight RGBA pixels. *)

Record Pixel : Type := mkPixel { red : Z; green : Z; blue : Z; opacity : Z }.

(** What [getImageData] reads outside the canvas. *)
Definition transparentBlack : Pixel := mkPixel 0 0 0 0.

(** The pixel grid; only the coordinates inside the canvas matter. *)
Definition Surface : Type := Z -> Z -> Pixel.

(** [ctx.font]: the renderer only ever assigns
    [`${fontWeight} ${fontSize}px ${fontFamily}, sans-serif`], which is kept
    here as its three components. *)
Record Font : Type := mkFont { font_weight : Z; font_size : Q; font_family : string }.

Inductive TextBaseline : Type := BaselineAlphabetic | BaselineTop.
Inductive TextAlign : Type := AlignStart | AlignLeft.

(** The drawing state that [save] pushes and [restore] pops. *)
Record DrawState : Type := mkDrawState {
  font : Font;
  fillStyle : string;
  textBaseline : TextBaseline;
  textAlign : TextAlign;
  clip : Z -> Z -> bool
}.

(** One [fillText] call, as issued. *)
Record TextRun : Type := mkTextRun {
  run_text : string;
  run_x : Q;
  run_y : Q;
  run_font : Font;
  run_fillStyle : string
}.

Record Ctx : Type := mkCtx {
  canvas_width : Z;
  canvas_height : Z;
  surface : Surface;
  state : DrawState;
  path : list IntRect.t;
  saved : list DrawState;
  painted : list TextRun
}.

(** The text engine of the host: how wide a run is under a font, and what
    painting a run does to a surface before clipping. *)
Record Host : Type := mkHost {
  hostMeasureText : Font -> string -> Q;
  hostFillText : DrawState -> string -> Q -> Q -> Surface -> Surface
}.

Inductive DOMException : Type := IndexSizeError | InvalidStateError.

(** The outcome of a call: a value, a thrown exception, or a loop that was
    cut off by its iteration budget. *)
Inductive result (A : Type) : Type :=
| Ok (a : A)
| Throw (e : DOMException)
| OutOfFuel.
Arguments Ok {A} a.
Arguments Throw {A} e.
Arguments OutOfFuel {A}.

Definition bind {A B : Type} (r : result A) (k : A -> result B) : result B :=
  match r with
  | Ok a => k a
  | Throw e => Throw e
  | OutOfFuel => OutOfFuel
  end.

Notation "'let*' x := r 'in' k" := (bind r (fun x => k))
  (at level 10, x name, r at level 100, k at level 200).

Record ImageData : Type := mkImageData {
  img_width : Z;
  img_height : Z;
  data : list Pixel
}.

Definition withSurface (ctx : Ctx) (s : Surface) : Ctx :=
  mkCtx (canvas_width ctx) (canvas_height ctx) s (state ctx) (path ctx) (saved ctx)
        (painted ctx).

Definition withState (ctx : Ctx) (st : DrawState) : Ctx :=
  mkCtx (canvas_width ctx) (canvas_height ctx) (surface ctx) st (path ctx) (saved ctx)
        (painted ctx).

Definition inSurface (ctx : Ctx) (i j : Z) : bool :=
  (0 <=? i) && (i <? canvas_width ctx) && (0 <=? j) && (j <? canvas_height ctx).

(** The pixel [(i, j)] lies in the [w] by [h] rectangle at [(x, y)]. *)
Definition insideRect (x y w h i j : Z) : bool :=
  (x <=? i) && (i <? x + w) && (y <=? j) && (j <? y + h).

Definition pixelAt (ctx : Ctx) (i j : Z) : Pixel :=
  if inSurface ctx i j then surface ctx i j else transparentBlack.

Definition hexDigitValue (c : ascii) : option Z :=
  let n := Z.of_N (N_of_ascii c) in
  if (48 <=? n) && (n <=? 57) then Some (n - 48)
  else if (65 <=? n) && (n <=? 70) then Some (n - 55)
  else if (97 <=? n) && (n <=? 102) then Some (n - 87)
  else None.

Definition hexByteValue (hi lo : ascii) : option Z :=
  match hexDigitValue hi, hexDigitValue lo with
  | Some h, Some l => Some (16 * h + l)
  | _, _ => None
  end.

(** The colour a fill style denotes.  Only the notation the renderer writes,
    [#rrggbb], is modelled; it is an opaque colour. *)
Definition parseColor (s : string) : option Pixel :=
  match s with
  | String "#" (String r1 (String r0 (String g1 (String g0 (String b1 (String b0
      EmptyString)))))) =>
      match hexByteValue r1 r0, hexByteValue g1 g0, hexByteValue b1 b0 with
      | Some r, Some g, Some b => Some (mkPixel r g b 255)
      | _, _, _ => None
      end
  | _ => None
  end.

(** [ctx.fillStyle = s]: a string that is not a colour is ignored. *)
Definition setFillStyle (ctx : Ctx) (s : string) : Ctx :=
  match parseColor s with
  | Some _ =>
      let st := state ctx in
      withState ctx (mkDrawState (font st) s (textBaseline st) (textAlign st) (clip st))
  | None => ctx
  end.

Definition setFont (ctx : Ctx) (f : Font) : Ctx :=
  let st := state ctx in
  withState ctx (mkDrawState f (fillStyle st) (textBaseline st) (textAlign st) (clip st)).

Definition setTextBaseline (ctx : Ctx) (b : TextBaseline) : Ctx :=
  let st := state ctx in
  withState ctx (mkDrawState (font st) (fillStyle st) b (textAlign st) (clip st)).

Definition setTextAlign (ctx : Ctx) (a : TextAlign) : Ctx :=
  let st := state ctx in
  withState ctx (mkDrawState (font st) (fillStyle st) (textBaseline st) a (clip st)).

(** [ctx.fillRect(x, y, w, h)] with an opaque fill colour: every canvas pixel
    of the rectangle that the clip region admits takes the colour. *)
Definition fillRect (ctx : Ctx) (x y w h : Z) : Ctx :=
  match parseColor (fillStyle (state ctx)) with
  | Some colour =>
      withSurface ctx (fun i j =>
        if inSurface ctx i j && clip (state ctx) i j &&
           insideRect (Z.min x (x + w)) (Z.min y (y + h)) (Z.abs w) (Z.abs h) i j
        then colour else surface ctx i j)
  | None => ctx
  end.

(** [ctx.getImageData(sx, sy, sw, sh)]: row-major pixels, four bytes of the
    source's array being one [Pixel] here; an empty rectangle throws. *)
Definition getImageData (ctx : Ctx) (sx sy sw sh : Z) : result ImageData :=
  if (sw =? 0) || (sh =? 0) then Throw IndexSizeError
  else
    let x0 := Z.min sx (sx + sw) in
    let y0 := Z.min sy (sy + sh) in
    let w := Z.abs sw in
    let h := Z.abs sh in
    Ok (mkImageData w h
          (flat_map (fun j => map (fun i => pixelAt ctx (x0 + Z.of_nat i) (y0 + Z.of_nat j))
                                  (seq 0 (Z.to_nat w)))
                    (seq 0 (Z.to_nat h)))).

(** [new ImageData(data, w, h)]: the array must hold exactly [w * h] pixels. *)
Definition newImageData (pixels : list Pixel) (w h : Z) : result ImageData :=
  if (w <=? 0) || (h <=? 0) then Throw IndexSizeError
  else if Z.of_nat (length pixels) =? w * h then Ok (mkImageData w h pixels)
  else Throw InvalidStateError.

(** [ctx.putImageData(img, dx, dy)]: copies the pixels, whatever the clip
    region and the fill style. *)
Definition putImageData (ctx : Ctx) (img : ImageData) (dx dy : Z) : Ctx :=
  withSurface ctx (fun i j =>
    if inSurface ctx i j && insideRect dx dy (img_width img) (img_height img) i j
    then default transparentBlack
           (data img !! Z.to_nat ((j - dy) * img_width img + (i - dx)))
    else surface ctx i j).

Definition save (ctx : Ctx) : Ctx :=
  mkCtx (canvas_width ctx) (canvas_height ctx) (surface ctx) (state ctx) (path ctx)
        (state ctx :: saved ctx) (painted ctx).

Definition restore (ctx : Ctx) : Ctx :=
  match saved ctx with
  | st :: rest =>
      mkCtx (canvas_width ctx) (canvas_height ctx) (surface ctx) st (path ctx) rest
            (painted ctx)
  | [] => ctx
  end.

Definition beginPath (ctx : Ctx) : Ctx :=
  mkCtx (canvas_width ctx) (canvas_height ctx) (surface ctx) (state ctx) [] (saved ctx)
        (painted ctx).

(** [ctx.rect(x, y, w, h)]: one more rectangle on the current path. *)
Definition rectPath (ctx : Ctx) (x y w h : Z) : Ctx :=
  mkCtx (canvas_width ctx) (canvas_height ctx) (surface ctx) (state ctx)
        (path ctx ++ [IntRect.mk x y w h]) (saved ctx) (painted ctx).

Definition insidePath (p : list IntRect.t) (i j : Z) : bool :=
  existsb (fun r => insideRect (IntRect.x r) (IntRect.y r) (IntRect.width r)
                               (IntRect.height r) i j) p.

(** [ctx.clip()]: the clip region becomes its intersection with the path. *)
Definition clipPath (ctx : Ctx) : Ctx :=
  let st := state ctx in
  withState ctx
    (mkDrawState (font st) (fillStyle st) (textBaseline st) (textAlign st)
       (fun i j => clip st i j && insidePath (path ctx) i j)).

(** ** Overlays ([types.ts])

    A field the renderer reads through [||], [??] or a [typeof] test is an
    [option]: [None] is an absent value (or [NaN], for a number). *)

Inductive VerticalAlign : Type := VTop | VMiddle | VBottom.
Inductive HorizontalAlign : Type := HLeft | HCenter | HRight.
Inductive BackgroundMode : Type := Solid | Clone.
Inductive CloneDirection : Type := Up | Down | Left | Right.

Record TextOverlay : Type := mkTextOverlay {
  id : string;
  rect : Rect.t;
  originalText : string;
  newText : string;
  fontSize : option Q;
  fontWeight : WeightInput;
  fontColor : string;
  fontFamily : string;
  letterSpacing : option Q;
  lineHeight : option Q;
  backgroundColor : string;
  backgroundMode : option BackgroundMode;
  cloneDirection : option CloneDirection;
  vAlign : option VerticalAlign;
  hAlign : option HorizontalAlign
}.

(** [s || fallback] on strings: the empty string is falsy. *)
Definition orString (s fallback : string) : string :=
  match s with
  | EmptyString => fallback
  | _ => s
  end.

(** [n || fallback] on numbers: [0] and [NaN] are falsy. *)
Definition orNumber (n : option Q) (fallback : Q) : Q :=
  match n with
  | Some v => if Qeq_bool v 0 then fallback else v
  | None => fallback
  end.

Definition isEmpty (s : string) : bool :=
  match s with
  | EmptyString => true
  | _ => false
  end.

(** [text.split("\n")]: never an empty array. *)
Fixpoint splitLines (text : string) : list string :=
  match text with
  | EmptyString => [EmptyString]
  | String c rest =>
      if Ascii.eqb c "010" then EmptyString :: splitLines rest
      else match splitLines rest with
           | first :: others => String c first :: others
           | [] => [String c EmptyString]
           end
  end.

(** The elements of an array with their indices, as [forEach] hands them to
    its callback. *)
Definition indexed {A : Type} (l : list A) : list (nat * A) :=
  combine (seq 0 (length l)) l.

Section Renderer.

Variable host : Host.

(** [ctx.measureText(text).width] *)
Definition measureText (ctx : Ctx) (text : string) : Q :=
  hostMeasureText host (font (state ctx)) text.

(** [ctx.fillText(text, x, y)]: the host paints the run, and only the canvas
    pixels inside the clip region take the result. *)
Definition fillText (ctx : Ctx) (text : string) (x y : Q) : Ctx :=
  let drawn := hostFillText host (state ctx) text x y (surface ctx) in
  mkCtx (canvas_width ctx) (canvas_height ctx)
        (fun i j => if inSurface ctx i j && clip (state ctx) i j
                    then drawn i j else surface ctx i j)
        (state ctx) (path ctx) (saved ctx)
        (painted ctx ++ [mkTextRun text x y (font (state ctx)) (fillStyle (state ctx))]).

Definition measureLineWidth (ctx : Ctx) (text : string) (letterSpacing : Q) : Q :=
  if isEmpty text then 0%Q
  else if Qeq_bool letterSpacing 0 then measureText ctx text
  else
    fold_left
      (fun width i =>
         let width := (width + measureText ctx (charAt text i))%Q in
         if (i <? String.length text - 1)%nat then (width + letterSpacing)%Q else width)
      (seq 0 (String.length text)) 0%Q.

(** One turn of the [for (const ch of line)] loop of [wrapLineByChars], on
    the pair of [wrapped] and [current]. *)
Definition wrapChar (ctx : Ctx) (maxWidth letterSpacing : Q)
    (acc : list string * string) (ch : ascii) : list string * string :=
  let '(wrapped, current) := acc in
  let candidate := (current ++ String ch EmptyString)%string in
  let candidateWidth := measureLineWidth ctx candidate letterSpacing in
  if negb (isEmpty current) && negb (Qle_bool candidateWidth maxWidth)
  then (wrapped ++ [current], String ch EmptyString)
  else (wrapped, candidate).

Definition wrapLineByChars (ctx : Ctx) (line : string) (maxWidth letterSpacing : Q)
    : list string :=
  if isEmpty line then [EmptyString]
  else if Qle_bool maxWidth 1 then [line]
  else
    let '(wrapped, current) :=
      fold_left (wrapChar ctx maxWidth letterSpacing) (list_ascii_of_string line)
                ([], EmptyString) in
    let wrapped := if isEmpty current then wrapped else wrapped ++ [current] in
    if (length wrapped =? 0)%nat then wrapped ++ [line] else wrapped.

Definition wrapText (ctx : Ctx) (text : string) (maxWidth letterSpacing : Q)
    : list string :=
  let paragraphLines := splitLines text in
  let lines :=
    fold_left
      (fun lines '(index, line) =>
         let lines := lines ++ wrapLineByChars ctx line maxWidth letterSpacing in
         if (index <? length paragraphLines - 1)%nat && isEmpty line
         then lines ++ [EmptyString] else lines)
      (indexed paragraphLines) [] in
  if (0 <? length lines)%nat then lines else [EmptyString].

Definition drawLineWithSpacing (ctx : Ctx) (line : string) (x y letterSpacing : Q) : Ctx :=
  if isEmpty line then ctx
  else if Qeq_bool letterSpacing 0 then fillText ctx line x y
  else
    fst (fold_left
           (fun '(ctx, cursorX) i =>
              let ch := charAt line i in
              let ctx := fillText ctx ch cursorX y in
              let cursorX := (cursorX + measureText ctx ch)%Q in
              if (i <? String.length line - 1)%nat
              then (ctx, (cursorX + letterSpacing)%Q) else (ctx, cursorX))
           (seq 0 (String.length line)) (ctx, x)).

Definition getCloneOrder (direction : option CloneDirection) : list CloneDirection :=
  match direction with
  | None => [Up; Down; Left; Right]
  | Some d => [d]
  end.

Definition getSourceRect (rect : IntRect.t) (canvasWidth canvasHeight : Z)
    (direction : CloneDirection) : option IntRect.t :=
  let gap := 2 in
  match direction with
  | Up =>
      let y := IntRect.y rect - IntRect.height rect - gap in
      if 0 <=? y
      then Some (IntRect.mk (IntRect.x rect) y (IntRect.width rect) (IntRect.height rect))
      else None
  | Down =>
      let y := IntRect.y rect + IntRect.height rect + gap in
      if y + IntRect.height rect <=? canvasHeight
      then Some (IntRect.mk (IntRect.x rect) y (IntRect.width rect) (IntRect.height rect))
      else None
  | Left =>
      let x := IntRect.x rect - IntRect.width rect - gap in
      if 0 <=? x
      then Some (IntRect.mk x (IntRect.y rect) (IntRect.width rect) (IntRect.height rect))
      else None
  | Right =>
      let x := IntRect.x rect + IntRect.width rect + gap in
      if x + IntRect.width rect <=? canvasWidth
      then Some (IntRect.mk x (IntRect.y rect) (IntRect.width rect) (IntRect.height rect))
      else None
  end.

(** The running sums [r], [g], [b] and [count] of [getAverageNeighborColor]. *)
Record Sums : Type := mkSums { sum_r : Z; sum_g : Z; sum_b : Z; count : Z }.

Definition addPixel (acc : Sums) (p : Pixel) : Sums :=
  mkSums (sum_r acc + red p) (sum_g acc + green p) (sum_b acc + blue p) (count acc + 1).

(** The closure [collect]. *)
Definition collect (ctx : Ctx) (acc : Sums) (x y w h : Z) : result Sums :=
  if (w <=? 0) || (h <=? 0) then Ok acc
  else
    let* img := getImageData ctx x y w h in
    Ok (fold_left addPixel (data img) acc).

(** [n.toString(16)] of an integer. *)
Definition toString16 (n : Z) : string :=
  HexadecimalString.NilZero.string_of_int (Z.to_hex_int n).

(** [s.padStart(2, "0")] *)
Definition padStart2 (s : string) : string :=
  match s with
  | EmptyString => "00"%string
  | String c EmptyString => String "0" (String c EmptyString)
  | _ => s
  end.

(** The closure [toHex]. *)
Definition toHex (v : Q) : string := padStart2 (toString16 (Math_round v)).

(** [r / count] is a double division of integers.  It is exact at a half,
    and otherwise at least [1 / (2 count)] away from one, so that
    [Math.round] of the double is [Math.round] of the exact quotient. *)
Definition getAverageNeighborColor (ctx : Ctx) (rect : IntRect.t) (fallback : string)
    : result string :=
  let acc := mkSums 0 0 0 0 in
  let cW := canvas_width ctx in
  let cH := canvas_height ctx in
  let x := IntRect.x rect in
  let y := IntRect.y rect in
  let width := IntRect.width rect in
  let height := IntRect.height rect in
  let* acc := if 0 <? x then collect ctx acc (x - 1) y 1 height else Ok acc in
  let* acc := if x + width <? cW then collect ctx acc (x + width) y 1 height else Ok acc in
  let* acc := if 0 <? y then collect ctx acc x (y - 1) width 1 else Ok acc in
  let* acc := if y + height <? cH then collect ctx acc x (y + height) width 1 else Ok acc in
  if count acc =? 0 then Ok fallback
  else
    let n := inject_Z (count acc) in
    Ok (String.concat "" ["#"%string; toHex (inject_Z (sum_r acc) / n)%Q;
                          toHex (inject_Z (sum_g acc) / n)%Q;
                          toHex (inject_Z (sum_b acc) / n)%Q]).

(** One colour channel of the feathered blend, stored into the
    [Uint8ClampedArray]; an absent operand makes the sum [NaN], stored as 0.
    The exact sum is a multiple of 1/75 and so never a half: the rounding of
    the double arithmetic cannot move [Math.round] to the other side. *)
Definition blendChannel (source target : option Z) (alpha : Q) : Z :=
  match source, target with
  | Some s, Some t =>
      clampZ (Math_round (inject_Z s * alpha + inject_Z t * (1 - alpha))%Q) 0 255
  | _, _ => 0
  end.

(** The blend factor of the clone branch at column [x] of row [y] of a
    [width] by [height] rectangle: [0.96 + 0.04 * t], where [t] is
    [clamp(distEdge / feather, 0, 1)]. *)
Definition featherAlpha (width height x y : Z) : Q :=
  let feather := 3 in
  let distEdge := Z.min (Z.min x y) (Z.min (width - 1 - x) (height - 1 - y)) in
  let t := clamp (inject_Z distEdge / inject_Z feather)%Q 0%Q 1%Q in
  ((96 # 100) + (4 # 100) * t)%Q.

(** The four bytes written to [out] at one pixel: the three blended
    channels, and an opaque alpha. *)
Definition blendPixel (source target : option Pixel) (alpha : Q) : Pixel :=
  mkPixel (blendChannel (red <$> source) (red <$> target) alpha)
          (blendChannel (green <$> source) (green <$> target) alpha)
          (blendChannel (blue <$> source) (blue <$> target) alpha)
          255.

(** The body of the two nested loops of the clone branch, at column [x] of
    row [y]. *)
Definition blendAt (sourceData targetData : ImageData) (width height : Z)
    (out : list Pixel) (y x : Z) : list Pixel :=
  let idx := Z.to_nat (y * width + x) in
  let alpha := featherAlpha width height x y in
  <[idx := blendPixel (data sourceData !! idx) (data targetData !! idx) alpha]> out.

Definition featherBlend (sourceData targetData : ImageData) (width height : Z)
    : list Pixel :=
  fold_left
    (fun out y =>
       fold_left (fun out x => blendAt sourceData targetData width height out
                                 (Z.of_nat y) (Z.of_nat x))
                 (seq 0 (Z.to_nat width)) out)
    (seq 0 (Z.to_nat height)) (data targetData).

(** The [for (const direction of directions)] loop of [applyBackground]:
    [Ok (Some ctx)] when an iteration returned, [Ok None] when the loop ran
    out of directions. *)
Fixpoint cloneFromFirst (ctx : Ctx) (rect : IntRect.t) (directions : list CloneDirection)
    : result (option Ctx) :=
  match directions with
  | [] => Ok None
  | direction :: others =>
      match getSourceRect rect (canvas_width ctx) (canvas_height ctx) direction with
      | None => cloneFromFirst ctx rect others
      | Some source =>
          let* sourceData :=
            getImageData ctx (IntRect.x source) (IntRect.y source)
                         (IntRect.width rect) (IntRect.height rect) in
          let* targetData :=
            getImageData ctx (IntRect.x rect) (IntRect.y rect)
                         (IntRect.width rect) (IntRect.height rect) in
          let out :=
            featherBlend sourceData targetData (IntRect.width rect) (IntRect.height rect) in
          let* image := newImageData out (IntRect.width rect) (IntRect.height rect) in
          Ok (Some (putImageData ctx image (IntRect.x rect) (IntRect.y rect)))
      end
  end.

Definition applyBackground (ctx : Ctx) (overlay : TextOverlay) (rect : IntRect.t)
    : result Ctx :=
  let mode := default Solid (backgroundMode overlay) in
  let fallbackColor :=
    normalizeHexColor (orString (backgroundColor overlay) "#ffffff") "#ffffff" in
  match mode with
  | Solid =>
      let ctx := setFillStyle ctx fallbackColor in
      Ok (fillRect ctx (IntRect.x rect) (IntRect.y rect)
                   (IntRect.width rect) (IntRect.height rect))
  | Clone =>
      let directions := getCloneOrder (cloneDirection overlay) in
      let* cloned := cloneFromFirst ctx rect directions in
      match cloned with
      | Some ctx => Ok ctx
      | None =>
          let* sampled := getAverageNeighborColor ctx rect fallbackColor in
          let ctx := setFillStyle ctx sampled in
          Ok (fillRect ctx (IntRect.x rect) (IntRect.y rect)
                       (IntRect.width rect) (IntRect.height rect))
      end
  end.

(** What the [while] loop of [drawText] updates: the context (its font),
    [fontSize], [lines] and [lineHeightPx]. *)
Record Fit : Type := mkFit {
  fit_ctx : Ctx;
  fit_fontSize : Q;
  fit_lines : list string;
  fit_lineHeightPx : Q
}.

(** One turn of the body of the autofit loop, up to its [break] test: the
    font is set, the text wrapped and measured; the boolean is the test
    [totalHeight <= rect.height && maxWidth <= rect.width]. *)
Definition fitAttempt (ctx : Ctx) (overlay : TextOverlay) (rect : IntRect.t)
    (fontWeight : Z) (fontFamily : string) (letterSpacing lineHeight fontSize : Q)
    : Fit * bool :=
  let ctx :=
    setFont ctx (mkFont fontWeight fontSize (fontFamily ++ ", sans-serif")%string) in
  let lines :=
    wrapText ctx (orString (newText overlay) "")
             (inject_Z (IntRect.width rect)) letterSpacing in
  let lineHeightPx := (fontSize * lineHeight)%Q in
  let totalHeight := (inject_Z (Z.of_nat (length lines)) * lineHeightPx)%Q in
  let maxWidth :=
    fold_left (fun max line => Qmax max (measureLineWidth ctx line letterSpacing))
              lines 0%Q in
  (mkFit ctx fontSize lines lineHeightPx,
   Qle_bool totalHeight (inject_Z (IntRect.height rect)) &&
   Qle_bool maxWidth (inject_Z (IntRect.width rect))).

(** The autofit loop [while (fontSize >= minFontSize) { ... }] of [drawText],
    with a budget of [fuel] evaluations of its condition.  [fontSize -= 0.5]
    is exact on doubles in the range of the loop. *)
Fixpoint autofit (fuel : nat) (overlay : TextOverlay) (rect : IntRect.t)
    (fontWeight : Z) (fontFamily : string) (letterSpacing lineHeight : Q)
    (st : Fit) : result Fit :=
  match fuel with
  | O => OutOfFuel
  | S fuel =>
      let minFontSize := 6%Q in
      if Qle_bool minFontSize (fit_fontSize st) then
        let '(tried, fits) :=
          fitAttempt (fit_ctx st) overlay rect fontWeight fontFamily letterSpacing
                     lineHeight (fit_fontSize st) in
        if fits then Ok tried
        else autofit fuel overlay rect fontWeight fontFamily letterSpacing lineHeight
                     (mkFit (fit_ctx tried) (fit_fontSize tried - (1 # 2))%Q
                            (fit_lines tried) (fit_lineHeightPx tried))
      else Ok st
  end.

Definition drawText (fuel : nat) (ctx : Ctx) (overlay : TextOverlay) (rect : IntRect.t)
    : result Ctx :=
  let fontFamily := orString (fontFamily overlay) "sans-serif" in
  let fontWeight := normalizeWeight (fontWeight overlay) in
  let baseFontSize := clamp (orNumber (fontSize overlay) 16) 6 400 in
  let letterSpacing := normalizeLetterSpacing (letterSpacing overlay) in
  let lineHeight := normalizeLineHeight (lineHeight overlay) in
  let hAlign := default HLeft (hAlign overlay) in
  let vAlign := default VTop (vAlign overlay) in
  let* fit :=
    autofit fuel overlay rect fontWeight fontFamily letterSpacing lineHeight
            (mkFit ctx baseFontSize [] 0%Q) in
  let fontSize := fit_fontSize fit in
  let lines := fit_lines fit in
  let ctx :=
    setFont (fit_ctx fit)
            (mkFont fontWeight fontSize (fontFamily ++ ", sans-serif")%string) in
  let ctx :=
    setFillStyle ctx (normalizeHexColor (orString (fontColor overlay) "#000000") "#000000") in
  let ctx := setTextBaseline ctx BaselineTop in
  let ctx := setTextAlign ctx AlignLeft in
  let lineHeightPx := (fontSize * lineHeight)%Q in
  let totalTextHeight := (inject_Z (Z.of_nat (length lines)) * lineHeightPx)%Q in
  let rectX := inject_Z (IntRect.x rect) in
  let rectY := inject_Z (IntRect.y rect) in
  let rectWidth := inject_Z (IntRect.width rect) in
  let rectHeight := inject_Z (IntRect.height rect) in
  let startY :=
    match vAlign with
    | VMiddle => (rectY + (rectHeight - totalTextHeight) / 2)%Q
    | VBottom => (rectY + rectHeight - totalTextHeight)%Q
    | VTop => rectY
    end in
  let startY := Qmax rectY startY in
  let ctx := save ctx in
  let ctx := beginPath ctx in
  let ctx :=
    rectPath ctx (IntRect.x rect) (IntRect.y rect) (IntRect.width rect)
             (IntRect.height rect) in
  let ctx := clipPath ctx in
  let ctx :=
    fold_left
      (fun ctx '(index, line) =>
         let lineWidth := measureLineWidth ctx line letterSpacing in
         let startX :=
           match hAlign with
           | HCenter => (rectX + (rectWidth - lineWidth) / 2)%Q
           | HRight => (rectX + rectWidth - lineWidth)%Q
           | HLeft => rectX
           end in
         drawLineWithSpacing ctx line startX
           (startY + inject_Z (Z.of_nat index) * lineHeightPx)%Q letterSpacing)
      (indexed lines) ctx in
  Ok (restore ctx).

Definition renderTextOverlay (fuel : nat) (ctx : Ctx) (overlay : TextOverlay)
    : result Ctx :=
  let rect := toIntRect (rect overlay) (canvas_width ctx) (canvas_height ctx) in
  if (IntRect.width rect <=? 0) || (IntRect.height rect <=? 0) then Ok ctx
  else
    let* ctx := applyBackground ctx overlay rect in
    drawText fuel ctx overlay rect.

End Renderer.

(** ** Vocabulary of the properties *)

(** An authored rectangle that has no point in the canvas [[0,W) x [0,H)]:
    it begins at or after the right or bottom edge, or ends at or before the
    left or top edge. *)
Definition outsideCanvas (r : Rect.t) (W H : Z) : Prop :=
  (inject_Z W <= Rect.x r \/ inject_Z H <= Rect.y r \/
   Rect.x r + Rect.width r <= 0 \/ Rect.y r + Rect.height r <= 0)%Q.

(** The lines a paragraph contributes to [wrapText], given how a line is
    wrapped, the number of paragraphs and the paragraph with its index. *)
Definition paragraphOutput (wrap : string -> list string) (paragraphs : nat)
    (entry : nat * string) : list string :=
  wrap (snd entry) ++
  (if (fst entry <? paragraphs - 1)%nat && isEmpty (snd entry) then [EmptyString] else []).

(** The lines of a text when nothing is wrapped. *)
Definition unwrappedLines (text : string) : list string :=
  flat_map (paragraphOutput (fun line => [line]) (length (splitLines text)))
           (indexed (splitLines text)).




(** The widths of the characters of a line, each measured alone, summed. *)
Definition sumCharWidths (host : Host) (ctx : Ctx) (text : string) : Q :=
  fold_right (fun c total => (measureText host ctx (String c EmptyString) + total)%Q) 0%Q
             (list_ascii_of_string text).

(** The font size the autofit loop of [drawText] starts from. *)
Definition baseFontSizeOf (overlay : TextOverlay) : Q :=
  clamp (orNumber (fontSize overlay) 16) 6 400.

(** The test of the autofit loop at a font size: the text of the overlay,
    wrapped for the rectangle under the overlay's normalized style, is no
    taller and no wider than the rectangle. *)
Definition fitsAt (host : Host) (ctx : Ctx) (overlay : TextOverlay) (rect : IntRect.t)
    (size : Q) : bool :=
  snd (fitAttempt host ctx overlay rect
         (normalizeWeight (fontWeight overlay))
         (orString (fontFamily overlay) "sans-serif")
         (normalizeLetterSpacing (letterSpacing overlay))
         (normalizeLineHeight (lineHeight overlay)) size).

(** [c'] is [c] after text was painted under the drawing state of [c]: only
    pixels that the clip region admits differ, and the runs added were
    issued in the font of [c]. *)
Definition paintedFrom (c c' : Ctx) : Prop :=
  canvas_width c' = canvas_width c /\ canvas_height c' = canvas_height c /\
  state c' = state c /\ path c' = path c /\ saved c' = saved c /\
  (forall i j, clip (state c) i j = false -> surface c' i j = surface c i j) /\
  exists runs, painted c' = painted c ++ runs /\
               Forall (fun r => run_font r = font (state c)) runs.

(** The rectangle of the size of [rect], two pixels away from it on the side
    [direction]: what the clone branch samples from. *)
Definition shifted (rect : IntRect.t) (direction : CloneDirection) : IntRect.t :=
  let x := IntRect.x rect in
  let y := IntRect.y rect in
  let w := IntRect.width rect in
  let h := IntRect.height rect in
  match direction with
  | Up => IntRect.mk x (y - h - 2) w h
  | Down => IntRect.mk x (y + h + 2) w h
  | Left => IntRect.mk (x - w - 2) y w h
  | Right => IntRect.mk (x + w + 2) y w h
  end.

(** The whole rectangle lies within the canvas bounds. *)
Definition withinCanvas (r : IntRect.t) (canvasWidth canvasHeight : Z) : bool :=
  (0 <=? IntRect.x r) && (0 <=? IntRect.y r) &&
  (IntRect.x r + IntRect.width r <=? canvasWidth) &&
  (IntRect.y r + IntRect.height r <=? canvasHeight).


(** The surface after a feathered clone of [source] onto [rect]. *)
Definition clonedSurface (ctx : Ctx) (rect source : IntRect.t) : Surface :=
  fun i j =>
    if insideRect (IntRect.x rect) (IntRect.y rect) (IntRect.width rect)
                  (IntRect.height rect) i j
    then blendPixel
           (Some (surface ctx (IntRect.x source + (i - IntRect.x rect))
                          (IntRect.y source + (j - IntRect.y rect))))
           (Some (surface ctx i j))
           (featherAlpha (IntRect.width rect) (IntRect.height rect)
                         (i - IntRect.x rect) (j - IntRect.y rect))
    else surface ctx i j.

(** [c'] differs from [c] in its surface at most. *)
Definition sameButSurface (c c' : Ctx) : Prop :=
  canvas_width c' = canvas_width c /\ canvas_height c' = canvas_height c /\
  state c' = state c /\ path c' = path c /\ saved c' = saved c /\
  painted c' = painted c.

(** Every colour channel of the surface is a byte. *)
Definition byteSurface (ctx : Ctx) : Prop :=
  forall i j,
    0 <= red (surface ctx i j) <= 255 /\ 0 <= green (surface ctx i j) <= 255 /\
    0 <= blue (surface ctx i j) <= 255.

(** The pixels of the strips, one pixel wide, just outside the edges of the
    rectangle that have a neighbour in the canvas: the column on the left,
    the column on the right, the row above, the row below. *)
Definition neighbourPixels (ctx : Ctx) (rect : IntRect.t) : list Pixel :=
  let x := IntRect.x rect in
  let y := IntRect.y rect in
  let w := IntRect.width rect in
  let h := IntRect.height rect in
  (if 0 <? x
   then map (fun b => surface ctx (x - 1) (y + Z.of_nat b)) (seq 0 (Z.to_nat h)) else []) ++
  (if x + w <? canvas_width ctx
   then map (fun b => surface ctx (x + w) (y + Z.of_nat b)) (seq 0 (Z.to_nat h)) else []) ++
  (if 0 <? y
   then map (fun a => surface ctx (x + Z.of_nat a) (y - 1)) (seq 0 (Z.to_nat w)) else []) ++
  (if y + h <? canvas_height ctx
   then map (fun a => surface ctx (x + Z.of_nat a) (y + h)) (seq 0 (Z.to_nat w)) else []).

(** The arithmetic mean of one channel over the pixels, rounded. *)
Definition channelMean (channel : Pixel -> Z) (pixels : list Pixel) : Z :=
  Math_round (inject_Z (fold_right Z.add 0 (map channel pixels))
              / inject_Z (Z.of_nat (length pixels))).

Definition meanColour (pixels : list Pixel) : Pixel :=
  mkPixel (channelMean red pixels) (channelMean green pixels) (channelMean blue pixels) 255.

(** The surface after the rectangle was filled with a flat colour, where the
    clip region admits it. *)
Definition filledSurface (ctx : Ctx) (rect : IntRect.t) (colour : Pixel) : Surface :=
  fun i j =>
    if clip (state ctx) i j &&
       insideRect (IntRect.x rect) (IntRect.y rect) (IntRect.width rect)
                  (IntRect.height rect) i j
    then colour else surface ctx i j.

(** A byte prints as two hex digits that read back as the byte. *)
Definition hexRoundTrip (n : nat) : bool :=
  match padStart2 (toString16 (Z.of_nat n)) with
  | String hi (String lo EmptyString) =>
      match hexByteValue hi lo with
      | Some m => m =? Z.of_nat n
      | None => false
      end
  | _ => false
  end.

(** The pixel [(i, j)] of the surface a call leaves behind. *)
Definition pixelAfter (r : result Ctx) (i j : Z) : option Pixel :=
  match r with
  | Ok c => Some (surface c i j)
  | _ => None
  end.

(** ** Sample inputs *)

(** A host with a monospaced font: every character is as wide as the font
    size, and painting a run floods the surface, so that only the clip
    region bounds what [fillText] changes. *)
Definition monoHost : Host :=
  mkHost (fun f text => (font_size f * inject_Z (Z.of_nat (String.length text)))%Q)
         (fun _ _ _ _ _ _ _ => mkPixel 1 2 3 255).

(** A host with a kerned pair: "AV" is 18 wide although "A" and "V" are 10
    each, as is every other character. *)
Definition kerningHost : Host :=
  mkHost (fun _ text => if String.eqb text "AV" then 18%Q
                        else inject_Z (10 * Z.of_nat (String.length text)))
         (fun _ _ _ _ surface => surface).

(** A canvas whose pixel [(i, j)] is the opaque colour [(i, j, 7)], in the
    initial drawing state of a 2D context. *)
Definition gradientCanvas (W H : Z) : Ctx :=
  mkCtx W H (fun i j => mkPixel (i mod 256) (j mod 256) 7 255)
        (mkDrawState (mkFont 400 10 "sans-serif") "#000000" BaselineAlphabetic AlignStart
                     (fun _ _ => true))
        [] [] [].

(** An overlay with the given rectangle, text and background mode. *)
Definition sampleOverlay (r : Rect.t) (text : string) (mode : BackgroundMode)
    : TextOverlay :=
  mkTextOverlay "overlay-1" r "old" text (Some 16%Q) (WNumber 733) "#123456" "Inter"
                None None "#abc" (Some mode) None None None.

(** An overlay that cannot fit its 10x10 rectangle: one character under a
    line height of 2 is at least 12 pixels tall at every size from 6 up. *)
Definition tallOverlay : TextOverlay :=
  mkTextOverlay "overlay-2" (Rect.mk 20 30 10 10) "old" "W" (Some 16%Q) (WNumber 400)
                "#000000" "Inter" None (Some 2%Q) "#ffffff" (Some Solid) None None None.

(** ** Vocabulary of the further properties *)

(** The lines of a list, one after the other. *)
Definition joinLines (lines : list string) : string :=
  fold_right String.append EmptyString lines.

(** The text without its newline characters. *)
Fixpoint withoutNewlines (text : string) : string :=
  match text with
  | EmptyString => EmptyString
  | String c rest =>
      if Ascii.eqb c "010" then withoutNewlines rest else String c (withoutNewlines rest)
  end.


(** Where a line of the given width starts, by the overlay's horizontal
    alignment: at the left edge, centred, or ending at the right edge. *)
Definition lineLeft (overlay : TextOverlay) (rect : IntRect.t) (lineWidth : Q) : Q :=
  let rectX := inject_Z (IntRect.x rect) in
  let rectWidth := inject_Z (IntRect.width rect) in
  match default HLeft (hAlign overlay) with
  | HCenter => (rectX + (rectWidth - lineWidth) / 2)%Q
  | HRight => (rectX + rectWidth - lineWidth)%Q
  | HLeft => rectX
  end.

(** Where a block of the given height starts, by the overlay's vertical
    alignment, and never above the rectangle. *)
Definition blockTop (overlay : TextOverlay) (rect : IntRect.t) (blockHeight : Q) : Q :=
  let rectY := inject_Z (IntRect.y rect) in
  let rectHeight := inject_Z (IntRect.height rect) in
  Qmax rectY
       match default VTop (vAlign overlay) with
       | VMiddle => (rectY + (rectHeight - blockHeight) / 2)%Q
       | VBottom => (rectY + rectHeight - blockHeight)%Q
       | VTop => rectY
       end.

(** The font [drawText] paints in, at a size. *)
Definition paintFont (overlay : TextOverlay) (size : Q) : Font :=
  mkFont (normalizeWeight (fontWeight overlay)) size
         (orString (fontFamily overlay) "sans-serif" ++ ", sans-serif")%string.

(** The run of one line of a fitted block painted as a whole (letter
    spacing 0): none for an empty line. *)
Definition placedRun (host : Host) (overlay : TextOverlay) (rect : IntRect.t) (fit : Fit)
    (entry : nat * string) : list TextRun :=
  let font := paintFont overlay (fit_fontSize fit) in
  let lineHeightPx := (fit_fontSize fit * normalizeLineHeight (lineHeight overlay))%Q in
  let blockHeight := (inject_Z (Z.of_nat (length (fit_lines fit))) * lineHeightPx)%Q in
  if isEmpty (snd entry) then []
  else [mkTextRun (snd entry)
                  (lineLeft overlay rect (hostMeasureText host font (snd entry)))
                  (blockTop overlay rect blockHeight
                   + inject_Z (Z.of_nat (fst entry)) * lineHeightPx)%Q
                  font
                  (normalizeHexColor (orString (fontColor overlay) "#000000") "#000000")].

(** An overlay of three characters, centred both ways in a 100x40 rectangle:
    under [monoHost] its line is 60 wide and its block 20 high. *)
Definition centredOverlay : TextOverlay :=
  mkTextOverlay "overlay-3" (Rect.mk 0 0 100 40) "old" "abc" (Some 20%Q) (WNumber 400)
                "#000000" "Inter" None (Some 1%Q) "#ffffff" (Some Solid) None
                (Some VMiddle) (Some HCenter).

(** The runs of a line painted character by character from [cursor]: each
    character at the pen, which then advances by the character's width and,
    unless the character is the last, by the letter spacing. *)
Fixpoint spacedRuns (host : Host) (font : Font) (fill : string) (y letterSpacing : Q)
    (line : string) (cursor : Q) : list TextRun :=
  match line with
  | EmptyString => []
  | String ch rest =>
      let advanced := (cursor + hostMeasureText host font (String ch EmptyString))%Q in
      mkTextRun (String ch EmptyString) cursor y font fill
      :: spacedRuns host font fill y letterSpacing rest
           (if isEmpty rest then advanced else (advanced + letterSpacing)%Q)
  end.

(** One turn of the painting loop of [drawLineWithSpacing], on the pair of
    the context and [cursorX]. *)
Definition spacedStep (host : Host) (y letterSpacing : Q) (line : string)
    (acc : Ctx * Q) (i : nat) : Ctx * Q :=
  let '(ctx, cursorX) := acc in
  let ch := charAt line i in
  let ctx := fillText host ctx ch cursorX y in
  let cursorX := (cursorX + measureText host ctx ch)%Q in
  if (i <? String.length line - 1)%nat
  then (ctx, (cursorX + letterSpacing)%Q) else (ctx, cursorX).

(** A canvas of one opaque colour, in the initial drawing state. *)
Definition plainCanvas (W H : Z) (colour : Pixel) : Ctx :=
  mkCtx W H (fun _ _ => colour)
        (mkDrawState (mkFont 400 10 "sans-serif") "#000000" BaselineAlphabetic AlignStart
                     (fun _ _ => true))
        [] [] [].



(** ** Slides ([types.ts]) and their rendering

    [slide.overlays.forEach((overlay) => renderTextOverlay(ctx, overlay))],
    the loop of [renderSlideToCanvas] in the PDF service, of
    [handleDownloadImages] in [App.tsx] and of [draw] in [EditorCanvas.tsx]:
    the overlays are rendered in the order of the list, on one context; an
    exception of one rendering leaves the loop. *)

Module Slide.
Record t : Type := mk {
  index : Z;
  dataUrl : string;
  width : Q;
  height : Q;
  overlays : list TextOverlay
}.
End Slide.

Definition renderOverlays (host : Host) (fuel : nat) (ctx : Ctx)
    (overlays : list TextOverlay) : result Ctx :=
  fold_left (fun acc overlay => let* ctx := acc in renderTextOverlay host fuel ctx overlay)
            overlays (Ok ctx).

(** The pixels of the resolved rectangle of an overlay on a canvas. *)
Definition insideResolved (W H : Z) (overlay : TextOverlay) (i j : Z) : bool :=
  let r := toIntRect (rect overlay) W H in
  insideRect (IntRect.x r) (IntRect.y r) (IntRect.width r) (IntRect.height r) i j.

(** ** The slide list of the application ([App.tsx])

    The state the overlay handlers of [App] read and write, and the
    handlers as functions of it: each [setSlides((prev) => ...)] is the
    function applied to the slides of the state. *)

Module App.

Record State : Type := mk {
  slides : list Slide.t;
  activeSlideIdx : nat;
  selection : option Rect.t;
  selectedOverlayId : option string
}.

(** [{ ...s, overlays }] *)
Definition withOverlays (s : Slide.t) (overlays : list TextOverlay) : Slide.t :=
  Slide.mk (Slide.index s) (Slide.dataUrl s) (Slide.width s) (Slide.height s) overlays.

Definition handleApplyOverlay (overlay : TextOverlay) (st : State) : State :=
  mk (imap (fun idx s =>
              if (idx =? activeSlideIdx st)%nat
              then withOverlays s (Slide.overlays s ++ [overlay])
              else s)
           (slides st))
     (activeSlideIdx st) None (Some (id overlay)).

Definition handleUpdateOverlays (overlays : list TextOverlay) (st : State) : State :=
  mk (imap (fun idx s => if (idx =? activeSlideIdx st)%nat then withOverlays s overlays else s)
           (slides st))
     (activeSlideIdx st) (selection st) (selectedOverlayId st).

(** [next.pop()] drops the last overlay. *)
Definition handleUndo (st : State) : State :=
  mk (imap (fun idx s =>
              if (idx =? activeSlideIdx st)%nat && (0 <? length (Slide.overlays s))%nat
              then withOverlays s (removelast (Slide.overlays s))
              else s)
           (slides st))
     (activeSlideIdx st) (selection st) None.

Definition clearCurrentSlide (st : State) : State :=
  mk (imap (fun idx s => if negb (idx =? activeSlideIdx st)%nat then s else withOverlays s [])
           (slides st))
     (activeSlideIdx st) (selection st) None.

(** [maskApiKey]: what the settings dialog shows of the stored key. *)
Definition maskApiKey (key : string) : string :=
  let stars (n : nat) := string_of_list_ascii (repeat "*"%char n) in
  if isEmpty key then "설정되지 않음"%string
  else if (String.length key <=? 8)%nat then stars (String.length key)
  else (String.substring 0 6 key
        ++ stars (Nat.max 4 (String.length key - 10))
        ++ String.substring (String.length key - 4) 4 key)%string.

End App.

(** ** The style panel ([Sidebar.tsx])

    The panel has its own normalizers; what they answer is stored in the
    overlay, which the renderer normalizes again. *)

Module Sidebar.

(** [toUpperCase] of a one-byte character: the letters [a] to [z].  The
    panel applies it to strings that matched a hex pattern only. *)
Definition upperChar (c : ascii) : ascii :=
  let n := N_of_ascii c in
  if ((97 <=? n) && (n <=? 122))%N then ascii_of_N (n - 32) else c.

Fixpoint toUpperCase (s : string) : string :=
  match s with
  | String c rest => String (upperChar c) (toUpperCase rest)
  | EmptyString => EmptyString
  end.

Definition normalizeHexColor (value fallback : string) : string :=
  let v := trim value in
  if testHexPattern 6 v then toUpperCase v
  else if testHexPattern 3 v then
    let c := String.substring 1 (String.length v - 1) v in
    toUpperCase
      (String.concat "" ["#"%string; charAt c 0; charAt c 0; charAt c 1; charAt c 1;
                         charAt c 2; charAt c 2])
  else fallback.

(** [normalizeFontWeight(value, fallback = 500)], at the values
    [normalizeWeight] is modelled at; [String(value ?? fallback)]. *)
Definition normalizeFontWeight (value : WeightInput) (fallback : Z) : Z :=
  let text :=
    match value with
    | WUndefined => numberToString fallback
    | WNumber n => numberToString n
    | WString s => s
    end in
  match parseInt10 text with
  | None => fallback
  | Some parsed => Z.min 900 (Z.max 100 (Math_round (inject_Z parsed / 100) * 100))
  end.

End Sidebar.

(** ** The editor canvas ([EditorCanvas.tsx])

    The pointer and wheel handlers of the editor as functions of the
    component's state, of its props and of the event; a handler answers the
    next state and the callbacks it invoked, in order.  The cursor styles
    the handlers set on the canvas element are left out.  The constants of
    [@/constants] are parameters.  The canvas element is mounted: its
    bounding rectangle is known.  A division by a zoom of 0 (infinite in the
    source) is outside the number model. *)

Module Point.
Record t : Type := mk { x : Q; y : Q }.
End Point.

Inductive HandleType : Type :=
| Hnw | Hn | Hne | He | Hse | Hs | Hsw | Hw.

(** The string a handle is in the source. *)
Definition handleName (h : HandleType) : string :=
  match h with
  | Hnw => "nw" | Hn => "n" | Hne => "ne" | He => "e"
  | Hse => "se" | Hs => "s" | Hsw => "sw" | Hw => "w"
  end.

(** [s.includes(part)] *)
Definition includes (s part : string) : bool :=
  match String.index 0 part s with
  | Some _ => true
  | None => false
  end.

(** [a < b] on numbers. *)
Definition Qlt_bool (a b : Q) : bool := negb (Qle_bool b a).

(** What the editor tells its parent. *)
Inductive Callback : Type :=
| OnSelectionChange (rect : option Rect.t)
| OnOverlaySelect (overlayId : option string)
| OnUpdateOverlays (overlays : list TextOverlay).

Module Editor.

Record State : Type := mk {
  zoom : Q;
  offset : Point.t;
  selection : option Rect.t;
  isDrawing : bool;
  isResizingSelection : bool;
  isDraggingOverlay : bool;
  isPanning : bool;
  dragType : option HandleType;
  startPoint : option Point.t;
  isSpacePressed : bool
}.

(** The props the handlers read. *)
Record Props : Type := mkProps {
  overlays : list TextOverlay;
  selectedOverlayId : option string
}.

(** A mouse or wheel event, and the bounding rectangle of the canvas
    element at the time. *)
Record MouseEvent : Type := mkEvent {
  clientX : Q;
  clientY : Q;
  button : Z;
  ctrlKey : bool;
  deltaX : Q;
  deltaY : Q;
  boundsLeft : Q;
  boundsTop : Q
}.

Definition getCanvasCoords (st : State) (e : MouseEvent) : Point.t :=
  Point.mk ((clientX e - boundsLeft e - Point.x (offset st)) / zoom st)
           ((clientY e - boundsTop e - Point.y (offset st)) / zoom st).

Definition getScreenCoords (e : MouseEvent) : Point.t := Point.mk (clientX e) (clientY e).

Definition isPointInRect (p : Point.t) (rect : Rect.t) : bool :=
  Qle_bool (Rect.x rect) (Point.x p) &&
  Qle_bool (Point.x p) (Rect.x rect + Rect.width rect) &&
  Qle_bool (Rect.y rect) (Point.y p) &&
  Qle_bool (Point.y p) (Rect.y rect + Rect.height rect).


(** [{ ...ov, rect: { ...ov.rect, x: ov.rect.x + dx, y: ov.rect.y + dy } }] *)
Definition moved (ov : TextOverlay) (dx dy : Q) : TextOverlay :=
  mkTextOverlay (id ov)
    (Rect.mk (Rect.x (rect ov) + dx) (Rect.y (rect ov) + dy)
             (Rect.width (rect ov)) (Rect.height (rect ov)))
    (originalText ov) (newText ov) (fontSize ov) (fontWeight ov) (fontColor ov)
    (fontFamily ov) (letterSpacing ov) (lineHeight ov) (backgroundColor ov)
    (backgroundMode ov) (cloneDirection ov) (vAlign ov) (hAlign ov).

(** The selection after a resize handle was dragged by [(dx, dy)]. *)
Definition resized (dragType : HandleType) (selection : Rect.t) (dx dy : Q) : Rect.t :=
  let nextRect := selection in
  let nextRect :=
    if includes (handleName dragType) "e"
    then Rect.mk (Rect.x nextRect) (Rect.y nextRect) (Rect.width nextRect + dx)
                 (Rect.height nextRect)
    else nextRect in
  let nextRect :=
    if includes (handleName dragType) "w"
    then Rect.mk (Rect.x nextRect + dx) (Rect.y nextRect) (Rect.width nextRect - dx)
                 (Rect.height nextRect)
    else nextRect in
  let nextRect :=
    if includes (handleName dragType) "s"
    then Rect.mk (Rect.x nextRect) (Rect.y nextRect) (Rect.width nextRect)
                 (Rect.height nextRect + dy)
    else nextRect in
  if includes (handleName dragType) "n"
  then Rect.mk (Rect.x nextRect) (Rect.y nextRect + dy) (Rect.width nextRect)
               (Rect.height nextRect - dy)
  else nextRect.

Section Constants.

Variables HANDLE_SIZE MIN_RECT_SIZE MIN_ZOOM MAX_ZOOM ZOOM_STEP : Q.

Definition getHandleAt (zoom : Q) (p : Point.t) (rect : Rect.t) : option HandleType :=
  let tolerance := (HANDLE_SIZE / zoom)%Q in
  let hx := [Rect.x rect; (Rect.x rect + Rect.width rect / 2)%Q;
             (Rect.x rect + Rect.width rect)%Q] in
  let hy := [Rect.y rect; (Rect.y rect + Rect.height rect / 2)%Q;
             (Rect.y rect + Rect.height rect)%Q] in
  let types := [[Some Hnw; Some Hn; Some Hne];
                [Some Hw; None; Some He];
                [Some Hsw; Some Hs; Some Hse]] in
  let cells :=
    flat_map (fun '(y, row) => map (fun '(x, type) => (type, x, y)) (zip hx row))
             (zip hy types) in
  match List.find (fun '(type, x, y) =>
                     match type with
                     | Some _ =>
                         Qlt_bool (Qabs (Point.x p - x)) tolerance &&
                         Qlt_bool (Qabs (Point.y p - y)) tolerance
                     | None => false
                     end) cells with
  | Some (type, _, _) => type
  | None => None
  end.

Definition handleWheelNative (e : MouseEvent) (st : State) : State :=
  if ctrlKey e then
    let delta := (- deltaY e)%Q in
    let factor := if Qlt_bool 0 delta then (1 + ZOOM_STEP)%Q else (1 - ZOOM_STEP)%Q in
    let prevZoom := zoom st in
    let nextZoom := Qmin MAX_ZOOM (Qmax MIN_ZOOM (prevZoom * factor)) in
    let mouseX := (clientX e - boundsLeft e)%Q in
    let mouseY := (clientY e - boundsTop e)%Q in
    let prevOffset := offset st in
    let wx := ((mouseX - Point.x prevOffset) / prevZoom)%Q in
    let wy := ((mouseY - Point.y prevOffset) / prevZoom)%Q in
    mk nextZoom (Point.mk (mouseX - wx * nextZoom) (mouseY - wy * nextZoom))
       (selection st) (isDrawing st) (isResizingSelection st) (isDraggingOverlay st)
       (isPanning st) (dragType st) (startPoint st) (isSpacePressed st)
  else if negb (isSpacePressed st) then
    mk (zoom st)
       (Point.mk (Point.x (offset st) - deltaX e) (Point.y (offset st) - deltaY e))
       (selection st) (isDrawing st) (isResizingSelection st) (isDraggingOverlay st)
       (isPanning st) (dragType st) (startPoint st) (isSpacePressed st)
  else st.

Definition handleMouseDown (props : Props) (e : MouseEvent) (st : State)
    : State * list Callback :=
  if isSpacePressed st || (button e =? 1)%Z then
    (mk (zoom st) (offset st) (selection st) (isDrawing st) (isResizingSelection st)
        (isDraggingOverlay st) true (dragType st) (Some (getScreenCoords e))
        (isSpacePressed st), [])
  else
    let p := getCanvasCoords st e in
    match match selection st with
          | Some sel => getHandleAt (zoom st) p sel
          | None => None
          end with
    | Some handle =>
        (mk (zoom st) (offset st) (selection st) (isDrawing st) true
            (isDraggingOverlay st) (isPanning st) (Some handle) (Some p)
            (isSpacePressed st), [])
    | None =>
        match List.find (fun o => isPointInRect p (rect o)) (rev (overlays props)) with
        | Some clickedOverlay =>
            (mk (zoom st) (offset st) None (isDrawing st) (isResizingSelection st)
                true (isPanning st) (dragType st) (Some p) (isSpacePressed st),
             [OnOverlaySelect (Some (id clickedOverlay)); OnSelectionChange None])
        | None =>
            (mk (zoom st) (offset st)
                (Some (Rect.mk (Point.x p) (Point.y p) 0 0))
                true (isResizingSelection st) (isDraggingOverlay st) (isPanning st)
                (dragType st) (Some p) (isSpacePressed st),
             [OnOverlaySelect None; OnSelectionChange None])
        end
    end.

Definition handleMouseMove (props : Props) (e : MouseEvent) (st : State)
    : State * list Callback :=
  let screenP := getScreenCoords e in
  let canvasP := getCanvasCoords st e in
  match isPanning st, startPoint st with
  | true, Some start =>
      let dx := (Point.x screenP - Point.x start)%Q in
      let dy := (Point.y screenP - Point.y start)%Q in
      (mk (zoom st)
          (Point.mk (Point.x (offset st) + dx) (Point.y (offset st) + dy))
          (selection st) (isDrawing st) (isResizingSelection st) (isDraggingOverlay st)
          (isPanning st) (dragType st) (Some screenP) (isSpacePressed st), [])
  | _, _ =>
      match isDrawing st, startPoint st with
      | true, Some start =>
          let x := Qmin (Point.x canvasP) (Point.x start) in
          let y := Qmin (Point.y canvasP) (Point.y start) in
          let width := Qabs (Point.x canvasP - Point.x start) in
          let height := Qabs (Point.y canvasP - Point.y start) in
          (mk (zoom st) (offset st) (Some (Rect.mk x y width height)) (isDrawing st)
              (isResizingSelection st) (isDraggingOverlay st) (isPanning st)
              (dragType st) (startPoint st) (isSpacePressed st), [])
      | _, _ =>
          match isResizingSelection st, selection st, startPoint st, dragType st with
          | true, Some sel, Some start, Some type =>
              let dx := (Point.x canvasP - Point.x start)%Q in
              let dy := (Point.y canvasP - Point.y start)%Q in
              (mk (zoom st) (offset st) (Some (resized type sel dx dy)) (isDrawing st)
                  (isResizingSelection st) (isDraggingOverlay st) (isPanning st)
                  (dragType st) (Some canvasP) (isSpacePressed st), [])
          | _, _, _, _ =>
              match isDraggingOverlay st, selectedOverlayId props, startPoint st with
              | true, Some selected, Some start =>
                  if isEmpty selected then (st, [])
                  else
                    let dx := (Point.x canvasP - Point.x start)%Q in
                    let dy := (Point.y canvasP - Point.y start)%Q in
                    let nextOverlays :=
                      map (fun ov => if String.eqb (id ov) selected
                                     then moved ov dx dy else ov)
                          (overlays props) in
                    (mk (zoom st) (offset st) (selection st) (isDrawing st)
                        (isResizingSelection st) (isDraggingOverlay st) (isPanning st)
                        (dragType st) (Some canvasP) (isSpacePressed st),
                     [OnUpdateOverlays nextOverlays])
              | _, _, _ => (st, [])
              end
          end
      end
  end.

Definition handleMouseUp (st : State) : State * list Callback :=
  let '(selection', calls) :=
    if isDrawing st || isResizingSelection st then
      match selection st with
      | Some sel =>
          if Qlt_bool (Rect.width sel) MIN_RECT_SIZE
             || Qlt_bool (Rect.height sel) MIN_RECT_SIZE
          then (None, [OnSelectionChange None])
          else (selection st, [OnSelectionChange (selection st)])
      | None => (selection st, [OnSelectionChange (selection st)])
      end
    else (selection st, []) in
  (mk (zoom st) (offset st) selection' false false false false (dragType st) None
      (isSpacePressed st), calls).

End Constants.

End Editor.

(** The editor inside the application: the props [App] hands to the editor,
    and what [App] does on a callback. *)
Definition editorProps (app : App.State) : option Editor.Props :=
  match App.slides app !! App.activeSlideIdx app with
  | Some activeSlide =>
      Some (Editor.mkProps (Slide.overlays activeSlide) (App.selectedOverlayId app))
  | None => None
  end.

Definition dispatch (app : App.State) (call : Callback) : App.State :=
  match call with
  | OnSelectionChange rect =>
      App.mk (App.slides app) (App.activeSlideIdx app) rect
             (match rect with Some _ => None | None => App.selectedOverlayId app end)
  | OnOverlaySelect overlayId =>
      App.mk (App.slides app) (App.activeSlideIdx app) (App.selection app) overlayId
  | OnUpdateOverlays overlays => App.handleUpdateOverlays overlays app
  end.

(** ** The exports ([pdfService])

    Where [downloadAsPptx] puts the image of a slide on its page: the page
    has the size of the first slide, at 96 pixels to the inch. *)

Record Placement : Type := mkPlacement {
  drawX : Q;
  drawY : Q;
  drawW : Q;
  drawH : Q
}.

Definition slidePlacement (first slide : Slide.t) : Placement :=
  let baseWidthIn := (Slide.width first / 96)%Q in
  let baseHeightIn := (Slide.height first / 96)%Q in
  let srcRatio := (Slide.width slide / Slide.height slide)%Q in
  let dstRatio := (baseWidthIn / baseHeightIn)%Q in
  if Qlt_bool dstRatio srcRatio then
    let drawH := (baseWidthIn / srcRatio)%Q in
    mkPlacement 0 ((baseHeightIn - drawH) / 2) baseWidthIn drawH
  else if Qlt_bool srcRatio dstRatio then
    let drawW := (baseHeightIn * srcRatio)%Q in
    mkPlacement ((baseWidthIn - drawW) / 2) 0 drawW baseHeightIn
  else mkPlacement 0 0 baseWidthIn baseHeightIn.

(** [toLowerCase] of a one-byte character: the letters [A] to [Z], and the
    capital letters of Latin-1. *)
Definition lowerChar (c : ascii) : ascii :=
  let n := N_of_ascii c in
  if ((65 <=? n) && (n <=? 90) || (192 <=? n) && (n <=? 222) && negb (n =? 215))%N
  then ascii_of_N (n + 32) else c.

Fixpoint toLowerCase (s : string) : string :=
  match s with
  | String c rest => String (lowerChar c) (toLowerCase rest)
  | EmptyString => EmptyString
  end.

(** [s.endsWith(suffix)] *)
Definition endsWith (s suffix : string) : bool :=
  (String.length suffix <=? String.length s)%nat &&
  String.eqb (String.substring (String.length s - String.length suffix)
                               (String.length suffix) s) suffix.

Definition ensurePptxExtension (filename : string) : string :=
  if endsWith (toLowerCase filename) ".pptx" then filename
  else (filename ++ ".pptx")%string.

(** ** Vocabulary of the editor's properties *)

(** Where a handle of a selection is: its corners and the middles of its
    sides. *)
Definition handleAnchor (h : HandleType) (r : Rect.t) : Point.t :=
  let x0 := Rect.x r in
  let x1 := (Rect.x r + Rect.width r / 2)%Q in
  let x2 := (Rect.x r + Rect.width r)%Q in
  let y0 := Rect.y r in
  let y1 := (Rect.y r + Rect.height r / 2)%Q in
  let y2 := (Rect.y r + Rect.height r)%Q in
  match h with
  | Hnw => Point.mk x0 y0 | Hn => Point.mk x1 y0 | Hne => Point.mk x2 y0
  | Hw => Point.mk x0 y1 | He => Point.mk x2 y1
  | Hsw => Point.mk x0 y2 | Hs => Point.mk x1 y2 | Hse => Point.mk x2 y2
  end.

(** The point is less than [tolerance] away from the anchor along both
    axes. *)
Definition near (tolerance : Q) (p anchor : Point.t) : bool :=
  Qlt_bool (Qabs (Point.x p - Point.x anchor)) tolerance &&
  Qlt_bool (Qabs (Point.y p - Point.y anchor)) tolerance.

(** The sides of a selection a handle moves. *)
Definition movesWest (h : HandleType) : bool :=
  match h with Hnw | Hw | Hsw => true | _ => false end.
Definition movesEast (h : HandleType) : bool :=
  match h with Hne | He | Hse => true | _ => false end.
Definition movesNorth (h : HandleType) : bool :=
  match h with Hnw | Hn | Hne => true | _ => false end.
Definition movesSouth (h : HandleType) : bool :=
  match h with Hsw | Hs | Hse => true | _ => false end.


(** An editor at rest, showing the image at twice its size. *)
Definition restingEditor : Editor.State :=
  Editor.mk 2 (Point.mk 50 40) None false false false false None None false.

(** A press or move of the left button at a client position, the canvas
    element being at (10, 20). *)
Definition pointerAt (x y : Q) : Editor.MouseEvent :=
  Editor.mkEvent x y 0 false 0 0 10 20.

(** The point lies on the square [draw] paints for a handle at [anchor]:
    [fillRect(h.x - (HANDLE_SIZE / 2) / zoom, h.y - (HANDLE_SIZE / 2) / zoom,
    HANDLE_SIZE / zoom, HANDLE_SIZE / zoom)]. *)
Definition onDrawnHandle (HANDLE_SIZE zoom : Q) (p anchor : Point.t) : Prop :=
  let left := (Point.x anchor - (HANDLE_SIZE / 2) / zoom)%Q in
  let top := (Point.y anchor - (HANDLE_SIZE / 2) / zoom)%Q in
  (left <= Point.x p <= left + HANDLE_SIZE / zoom)%Q /\
  (top <= Point.y p <= top + HANDLE_SIZE / zoom)%Q.

(** An editor whose selection is being resized by a handle, the pointer
    having been at [start]. *)
Definition resizingEditor (sel : Rect.t) (h : HandleType) (start : Point.t) : Editor.State :=
  Editor.mk 2 (Point.mk 50 40) (Some sel) false true false false (Some h) (Some start)
            false.


(** A deck of two slides, the second one active and holding one overlay. *)
Definition sampleDeck : App.State :=
  App.mk [Slide.mk 0 "data:image/png;base64,AAAA" 100 100 [];
          Slide.mk 1 "data:image/png;base64,BBBB" 100 100
                   [sampleOverlay (Rect.mk 20 30 10 10) "Hello world" Clone]]
         1 (Some (Rect.mk 25 35 40 20)) None.

(** * Properties *)

(** ** Region resolver *)

Lemma clampZ_bounds (v lo hi : Z) : lo <= hi -> lo <= clampZ v lo hi <= hi.
Proof. unfold clampZ. lia. Qed.

(** C3.  For every canvas of size at least 1x1 and every authored rectangle,
    whatever its position, sign of size or extent, the resolved rectangle has
    a non-negative origin and a non-negative size and ends inside the canvas. *)
Theorem toIntRect_in_canvas (rect : Rect.t) (W H : Z) :
  1 <= W -> 1 <= H -> inCanvas (toIntRect rect W H) W H.
Proof.
  intros HW HH. unfold inCanvas, toIntRect. cbn [IntRect.x IntRect.y IntRect.width IntRect.height].
  pose proof (clampZ_bounds (Qfloor (Rect.x rect)) 0 (Z.max 0 (W - 1)) ltac:(lia)).
  pose proof (clampZ_bounds (Qfloor (Rect.y rect)) 0 (Z.max 0 (H - 1)) ltac:(lia)).
  pose proof (clampZ_bounds (Qceiling (Rect.x rect + Rect.width rect)) 0 W ltac:(lia)).
  pose proof (clampZ_bounds (Qceiling (Rect.y rect + Rect.height rect)) 0 H ltac:(lia)).
  lia.
Qed.

Lemma toIntRect_in_canvas_witness :
  inCanvas (toIntRect (Rect.mk (-7 # 2) 250 (-3) 1000) 100 80) 100 80.
Proof. apply toIntRect_in_canvas; lia. Defined.

(** C2, as stated, fails.  On a 100x100 canvas the rectangle at x = 200, of
    size 50x20, lies wholly to the right of the canvas; it resolves to the
    last column, one pixel wide and twenty high, and rendering a solid
    overlay there repaints the pixel (99, 10). *)
Lemma outside_right_is_painted :
  outsideCanvas (Rect.mk 200 10 50 20) 100 100 /\
  toIntRect (Rect.mk 200 10 50 20) 100 100 = IntRect.mk 99 10 1 20 /\
  ~ (IntRect.width (toIntRect (Rect.mk 200 10 50 20) 100 100) = 0 \/
     IntRect.height (toIntRect (Rect.mk 200 10 50 20) 100 100) = 0) /\
  surface (gradientCanvas 100 100) 99 10 = mkPixel 99 10 7 255 /\
  pixelAfter (renderTextOverlay monoHost 800 (gradientCanvas 100 100)
                                (sampleOverlay (Rect.mk 200 10 50 20) "" Solid)) 99 10
  = Some (mkPixel 170 187 204 255).
Proof.
  split; [ left; vm_compute; discriminate | ].
  split; [ reflexivity | ].
  split; [ vm_compute; intros [H | H]; discriminate H | ].
  split; vm_compute; reflexivity.
Qed.

Lemma Qceiling_nonpos (q : Q) : (q <= 0)%Q -> Qceiling q <= 0.
Proof. intros H. apply (Qceiling_resp_le q 0) in H. exact H. Qed.

Lemma Qfloor_lower (z : Z) (q : Q) : (inject_Z z <= q)%Q -> z <= Qfloor q.
Proof. intros H. apply Qfloor_resp_le in H. now rewrite Qfloor_Z in H. Qed.

Lemma Qceiling_lower (z : Z) (q : Q) : (inject_Z z <= q)%Q -> z <= Qceiling q.
Proof. intros H. apply Qceiling_resp_le in H. now rewrite Qceiling_Z in H. Qed.

(** A rectangle of non-negative width that begins at or after the right edge
    of the canvas resolves to the last column, one pixel wide. *)
Lemma beyond_right_edge_last_column (r : Rect.t) (W H : Z) :
  1 <= W -> (inject_Z W <= Rect.x r)%Q -> (0 <= Rect.width r)%Q ->
  IntRect.x (toIntRect r W H) = W - 1 /\ IntRect.width (toIntRect r W H) = 1.
Proof.
  intros HW Hx Hw. unfold toIntRect, clampZ; cbn [IntRect.x IntRect.width].
  assert (Hsum : (inject_Z W <= Rect.x r + Rect.width r)%Q).
  { rewrite <- (Qplus_0_r (inject_Z W)). now apply Qplus_le_compat. }
  apply Qfloor_lower in Hx. apply Qceiling_lower in Hsum. lia.
Qed.

(** The same below the bottom edge: the last row, one pixel high. *)
Lemma beyond_bottom_edge_last_row (r : Rect.t) (W H : Z) :
  1 <= H -> (inject_Z H <= Rect.y r)%Q -> (0 <= Rect.height r)%Q ->
  IntRect.y (toIntRect r W H) = H - 1 /\ IntRect.height (toIntRect r W H) = 1.
Proof.
  intros HH Hy Hh. unfold toIntRect, clampZ; cbn [IntRect.y IntRect.height].
  assert (Hsum : (inject_Z H <= Rect.y r + Rect.height r)%Q).
  { rewrite <- (Qplus_0_r (inject_Z H)). now apply Qplus_le_compat. }
  apply Qfloor_lower in Hy. apply Qceiling_lower in Hsum. lia.
Qed.

(** C2, amended.  For every canvas of size at least 1x1, a rectangle that
    ends at or before the left edge or the top edge of the canvas resolves to
    width 0 or height 0, and rendering its overlay returns the context, and
    so every surface pixel, as it was. *)
Theorem outside_left_or_above_is_noop (r : Rect.t) (W H : Z) :
  1 <= W -> 1 <= H ->
  (Rect.x r + Rect.width r <= 0)%Q \/ (Rect.y r + Rect.height r <= 0)%Q ->
  (IntRect.width (toIntRect r W H) = 0 \/ IntRect.height (toIntRect r W H) = 0) /\
  forall host fuel ctx overlay,
    rect overlay = r -> canvas_width ctx = W -> canvas_height ctx = H ->
    renderTextOverlay host fuel ctx overlay = Ok ctx.
Proof.
  intros HW HH Hout.
  assert (Hdeg : IntRect.width (toIntRect r W H) = 0 \/
                 IntRect.height (toIntRect r W H) = 0).
  { unfold toIntRect, clampZ; cbn [IntRect.width IntRect.height].
    destruct Hout as [Hx | Hy]; [ left | right ].
    - apply Qceiling_nonpos in Hx. lia.
    - apply Qceiling_nonpos in Hy. lia. }
  split; [ exact Hdeg | ].
  intros host fuel ctx overlay Hr HcW HcH. unfold renderTextOverlay.
  rewrite Hr, HcW, HcH.
  destruct Hdeg as [Hz | Hz]; rewrite Hz; cbn; [ reflexivity | ].
  now rewrite orb_true_r.
Qed.

Lemma outside_left_or_above_is_noop_witness :
  (IntRect.width (toIntRect (Rect.mk (-60) 10 50 20) 100 80) = 0 \/
   IntRect.height (toIntRect (Rect.mk (-60) 10 50 20) 100 80) = 0) /\
  forall host fuel ctx overlay,
    rect overlay = Rect.mk (-60) 10 50 20 ->
    canvas_width ctx = 100 -> canvas_height ctx = 80 ->
    renderTextOverlay host fuel ctx overlay = Ok ctx.
Proof.
  apply (outside_left_or_above_is_noop (Rect.mk (-60) 10 50 20) 100 80);
    [ lia | lia | left; vm_compute; discriminate ].
Defined.

(** ** Style normalizers *)


Lemma Math_round_quotient (a b : Z) :
  0 < b -> Math_round (inject_Z a / inject_Z b) = (2 * a + b) / (2 * b).
Proof.
  intros Hb. destruct b as [ | pb | pb ]; try lia.
  unfold Math_round, Qfloor, Qdiv, Qinv, Qmult, Qplus, inject_Z; cbn [Qnum Qden].
  f_equal; lia.
Qed.

Lemma takeDigits_string_of_uint (d : Decimal.uint) :
  takeDigits (DecimalString.NilEmpty.string_of_uint d)
  = DecimalString.NilEmpty.string_of_uint d.
Proof. induction d; simpl; try rewrite IHd; reflexivity. Qed.

Lemma parseInt10_digits (d : Decimal.uint) (negative : bool) :
  d <> Decimal.Nil ->
  parseInt10 (if negative
              then String "-" (DecimalString.NilEmpty.string_of_uint d)
              else DecimalString.NilEmpty.string_of_uint d)
  = Some (if negative then - Z.of_uint d else Z.of_uint d).
Proof.
  intros Hd.
  assert (Hparse : DecimalString.NilZero.uint_of_string
                     (takeDigits (DecimalString.NilEmpty.string_of_uint d)) = Some d).
  { rewrite takeDigits_string_of_uint.
    pose proof (DecimalString.NilZero.usu d Hd) as Hu.
    destruct d; try congruence; exact Hu. }
  unfold parseInt10.
  destruct negative.
  - change (trimStart (String "-" (DecimalString.NilEmpty.string_of_uint d)))
      with (String "-" (DecimalString.NilEmpty.string_of_uint d)).
    cbv iota beta. now rewrite Hparse.
  - destruct d; try congruence;
      cbn [DecimalString.NilEmpty.string_of_uint] in *;
      match goal with
      | |- context [trimStart (String ?c ?r)] =>
          change (trimStart (String c r)) with (String c r)
      end; cbv iota beta; now rewrite Hparse.
Qed.

Lemma Pos_to_uint_nonnil (p : positive) : Pos.to_uint p <> Decimal.Nil.
Proof.
  intros H. pose proof (DecimalPos.Unsigned.of_to p) as Hp.
  rewrite H in Hp. discriminate Hp.
Qed.

(** [parseInt] reads back the numeral that [String] prints. *)
Lemma parseInt10_numberToString (n : Z) : parseInt10 (numberToString n) = Some n.
Proof.
  unfold numberToString. destruct n as [ | p | p ].
  - reflexivity.
  - cbn [Z.to_int DecimalString.NilZero.string_of_int].
    pose proof (Pos_to_uint_nonnil p) as Hne.
    replace (DecimalString.NilZero.string_of_uint (Pos.to_uint p))
      with (DecimalString.NilEmpty.string_of_uint (Pos.to_uint p))
      by (destruct (Pos.to_uint p) eqn:E; try reflexivity; congruence).
    rewrite (parseInt10_digits (Pos.to_uint p) false Hne).
    unfold Z.of_uint. rewrite DecimalPos.Unsigned.of_to. reflexivity.
  - cbn [Z.to_int DecimalString.NilZero.string_of_int].
    pose proof (Pos_to_uint_nonnil p) as Hne.
    replace (DecimalString.NilZero.string_of_uint (Pos.to_uint p))
      with (DecimalString.NilEmpty.string_of_uint (Pos.to_uint p))
      by (destruct (Pos.to_uint p) eqn:E; try reflexivity; congruence).
    rewrite (parseInt10_digits (Pos.to_uint p) true Hne).
    unfold Z.of_uint. rewrite DecimalPos.Unsigned.of_to. reflexivity.
Qed.

(** C9.  The two colour examples and the two weight examples evaluate as
    documented.  In general the weight normalizer parses the text of its
    input as a decimal integer; without one it answers 500, and otherwise it
    answers the multiple of 100 nearest to the integer (a tie goes up),
    clamped to [100, 900].  The text of a number parses to that number. *)
Theorem style_normalizers_documented :
  normalizeHexColor "notacolor" "#ffffff" = "#ffffff"%string /\
  (forall fallback, normalizeHexColor "#abc" fallback = "#aabbcc"%string) /\
  normalizeWeight WUndefined = 500 /\
  normalizeWeight (WNumber 733) = 700 /\
  (forall value,
     match parseInt10 (weightText value) with
     | None => normalizeWeight value = 500
     | Some parsed =>
         exists m, m mod 100 = 0 /\ -50 <= parsed - m < 50 /\
                   normalizeWeight value = clampZ m 100 900
     end) /\
  (forall n, parseInt10 (weightText (WNumber n)) = Some n) /\
  (forall value, 100 <= normalizeWeight value <= 900).
Proof.
  repeat split; try reflexivity.
  - intros value. unfold normalizeWeight.
    destruct (parseInt10 (weightText value)) as [parsed | ]; [ | reflexivity ].
    exists ((parsed + 50) / 100 * 100). 
    change 100%Q with (inject_Z 100). rewrite Math_round_quotient by lia.
    replace ((2 * parsed + 100) / (2 * 100)) with ((parsed + 50) / 100)
      by (replace (2 * parsed + 100) with (2 * (parsed + 50)) by lia;
          now rewrite Z.div_mul_cancel_l by lia).
    split; [ apply Z.mod_mul; lia | ].
    split; [ | reflexivity ].
    pose proof (Z.div_mod (parsed + 50) 100 ltac:(lia)).
    pose proof (Z.mod_pos_bound (parsed + 50) 100 ltac:(lia)). lia.
  - intros n. apply parseInt10_numberToString.
  - unfold normalizeWeight.
    destruct (parseInt10 (weightText value)); [ unfold clampZ | ]; lia.
  - unfold normalizeWeight.
    destruct (parseInt10 (weightText value)); [ unfold clampZ | ]; lia.
Qed.

(** ** Line breaking *)

Lemma wrapLineByChars_nonempty host ctx line maxWidth letterSpacing :
  wrapLineByChars host ctx line maxWidth letterSpacing <> [].
Proof.
  unfold wrapLineByChars.
  destruct (isEmpty line); [ discriminate | ].
  destruct (Qle_bool maxWidth 1); [ discriminate | ].
  destruct (fold_left _ _ _) as [wrapped current].
  destruct (isEmpty current).
  - destruct wrapped; cbn; discriminate.
  - destruct wrapped; cbn; discriminate.
Qed.

Lemma fold_left_app_flat_map {A : Type} (f : A -> list string) (l : list A)
    (acc : list string) :
  fold_left (fun lines a => lines ++ f a) l acc = acc ++ flat_map f l.
Proof.
  revert acc. induction l as [ | a l IH ]; intros acc; cbn.
  - now rewrite app_nil_r.
  - rewrite IH. now rewrite <- app_assoc.
Qed.

Lemma splitLines_nonempty (text : string) : splitLines text <> [].
Proof.
  destruct text as [ | c rest ]; cbn; [ discriminate | ].
  destruct (Ascii.eqb c "010"); [ discriminate | ].
  destruct (splitLines rest); discriminate.
Qed.

(** [wrapText] concatenates what each paragraph contributes. *)
Lemma wrapText_paragraphs host ctx text maxWidth letterSpacing :
  wrapText host ctx text maxWidth letterSpacing
  = flat_map (paragraphOutput
                (fun line => wrapLineByChars host ctx line maxWidth letterSpacing)
                (length (splitLines text)))
             (indexed (splitLines text)).
Proof.
  unfold wrapText.
  set (f := paragraphOutput _ _).
  assert (Hfold : forall l acc,
            fold_left
              (fun lines '(index, line) =>
                 let lines := lines ++ wrapLineByChars host ctx line maxWidth letterSpacing in
                 if (index <? length (splitLines text) - 1)%nat && isEmpty line
                 then lines ++ [EmptyString] else lines) l acc
            = acc ++ flat_map f l).
  { induction l as [ | [index line] l IH ]; intros acc; cbn [fold_left flat_map].
    - now rewrite app_nil_r.
    - rewrite IH. unfold f at 2, paragraphOutput. cbn [fst snd].
      destruct ((index <? length (splitLines text) - 1)%nat && isEmpty line);
        now rewrite <- ?app_assoc, ?app_nil_r. }
  rewrite Hfold. cbn [app].
  destruct (flat_map f (indexed (splitLines text))) as [ | l0 ls ] eqn:E; [ | reflexivity ].
  exfalso. pose proof (splitLines_nonempty text) as Hne.
  unfold indexed in E. destruct (splitLines text) as [ | p ps ]; [ congruence | ].
  cbn in E. unfold f, paragraphOutput in E. cbn [fst snd] in E.
  apply app_eq_nil in E as [E _]. apply app_eq_nil in E as [E _].
  now apply wrapLineByChars_nonempty in E.
Qed.

Lemma isEmpty_false (s : string) : s <> EmptyString -> isEmpty s = false.
Proof. destruct s; [ congruence | reflexivity ]. Qed.

Lemma wrapLineByChars_narrow host ctx line maxWidth letterSpacing :
  (maxWidth <= 1)%Q ->
  wrapLineByChars host ctx line maxWidth letterSpacing = [line].
Proof.
  intros Hw. unfold wrapLineByChars.
  destruct line; [ reflexivity | cbn [isEmpty] ].
  apply Qle_bool_iff in Hw. now rewrite Hw.
Qed.

(** C10.  For a target width of at most 1 a non-empty line is returned whole,
    whatever the host measures; so is every paragraph by [wrapText]; and so
    the autofit loop of [drawText], in a resolved rectangle one pixel wide,
    only ever holds the unwrapped paragraphs of the text. *)
Theorem narrow_target_never_wraps :
  (forall host ctx line maxWidth letterSpacing,
     line <> EmptyString -> (maxWidth <= 1)%Q ->
     wrapLineByChars host ctx line maxWidth letterSpacing = [line]) /\
  (forall host ctx text maxWidth letterSpacing,
     (maxWidth <= 1)%Q ->
     wrapText host ctx text maxWidth letterSpacing = unwrappedLines text) /\
  (forall host fuel overlay rect fontWeight fontFamily letterSpacing lineHeight st fit,
     IntRect.width rect <= 1 ->
     (6 <= fit_fontSize st)%Q ->
     autofit host fuel overlay rect fontWeight fontFamily letterSpacing lineHeight st
       = Ok fit ->
     fit_lines fit = unwrappedLines (orString (newText overlay) "")).
Proof.
  split; [ | split ].
  - intros. now apply wrapLineByChars_narrow.
  - intros host ctx text maxWidth letterSpacing Hw.
    rewrite wrapText_paragraphs. unfold unwrappedLines.
    apply flat_map_ext. intros [index line]. unfold paragraphOutput. cbn [fst snd].
    now rewrite wrapLineByChars_narrow.
  - intros host fuel overlay rect fontWeight fontFamily letterSpacing lineHeight st fit
           Hnarrow Hsize Hfit.
    assert (Hwrap : forall ctx,
              wrapText host ctx (orString (newText overlay) "")
                       (inject_Z (IntRect.width rect)) letterSpacing
              = unwrappedLines (orString (newText overlay) "")).
    { intros ctx. rewrite wrapText_paragraphs. unfold unwrappedLines.
      apply flat_map_ext. intros [index line]. unfold paragraphOutput. cbn [fst snd].
      rewrite wrapLineByChars_narrow; [ reflexivity | ].
      change 1%Q with (inject_Z 1). rewrite <- Zle_Qle. exact Hnarrow. }
    assert (Hgen : forall st,
              (6 <= fit_fontSize st)%Q \/
              fit_lines st = unwrappedLines (orString (newText overlay) "") ->
              autofit host fuel overlay rect fontWeight fontFamily letterSpacing
                      lineHeight st = Ok fit ->
              fit_lines fit = unwrappedLines (orString (newText overlay) "")).
    { clear st Hsize Hfit.
      induction fuel as [ | fuel IH ]; intros st Hinv Hrun; cbn [autofit] in Hrun;
        [ discriminate | ].
      destruct (Qle_bool 6 (fit_fontSize st)) eqn:Hloop.
      - unfold fitAttempt in Hrun. rewrite Hwrap in Hrun.
        destruct (_ && _) in Hrun.
        + injection Hrun as <-. reflexivity.
        + apply IH in Hrun; [ exact Hrun | right; reflexivity ].
      - injection Hrun as <-. destruct Hinv as [Hge | Hlines]; [ | exact Hlines ].
        apply Qle_bool_iff in Hge. congruence. }
    apply (Hgen st); [ now left | exact Hfit ].
Qed.

Lemma narrow_target_never_wraps_witness :
  wrapLineByChars monoHost (gradientCanvas 100 100) "Hello world" 1 3 = ["Hello world"%string].
Proof.
  apply (proj1 narrow_target_never_wraps); [ discriminate | vm_compute; discriminate ].
Defined.
















(** ** Text measurement *)

Lemma fold_left_seq_shift {A : Type} (f : A -> nat -> A) (k n : nat) (acc : A) :
  fold_left f (seq (S k) n) acc = fold_left (fun a i => f a (S i)) (seq k n) acc.
Proof.
  revert k acc. induction n as [ | n IH ]; intros k acc; cbn; [ reflexivity | ].
  now rewrite IH.
Qed.

Lemma fold_left_pointwise {A B : Type} (f g : A -> B -> A) (l : list B) (acc : A) :
  (forall a b, f a b = g a b) -> fold_left f l acc = fold_left g l acc.
Proof.
  intros Hfg. revert acc. induction l as [ | b l IH ]; intros acc; cbn; [ reflexivity | ].
  now rewrite Hfg, IH.
Qed.

(** The body of the measurement loop of [measureLineWidth]. *)
Lemma spaced_step_shift host ctx letterSpacing (c : ascii) (s : string) (width : Q) (i : nat) :
  (let width := (width + measureText host ctx (charAt (String c s) (S i)))%Q in
   if (S i <? String.length (String c s) - 1)%nat
   then (width + letterSpacing)%Q else width)
  = (let width := (width + measureText host ctx (charAt s i))%Q in
     if (i <? String.length s - 1)%nat then (width + letterSpacing)%Q else width).
Proof.
  cbn [charAt String.get String.length].
  replace (S i <? S (String.length s) - 1)%nat with (i <? String.length s - 1)%nat;
    [ reflexivity | ].
  destruct (Nat.ltb_spec i (String.length s - 1)),
           (Nat.ltb_spec (S i) (S (String.length s) - 1)); (reflexivity || lia).
Qed.

(** The spaced measurement loop over a non-empty line: every character adds
    its own width, and every character but the last the spacing. *)
Lemma spaced_loop_sum host ctx letterSpacing (rest : string) :
  forall (c : ascii) (acc : Q),
    (fold_left
       (fun width i =>
          let width := (width + measureText host ctx (charAt (String c rest) i))%Q in
          if (i <? String.length (String c rest) - 1)%nat
          then (width + letterSpacing)%Q else width)
       (seq 0 (String.length (String c rest))) acc
     == acc + sumCharWidths host ctx (String c rest)
        + letterSpacing * inject_Z (Z.of_nat (String.length rest)))%Q.
Proof.
  induction rest as [ | c' rest IH ]; intros c acc.
  - cbn. ring.
  - change (String.length (String c (String c' rest)))
      with (S (String.length (String c' rest))).
    cbn [seq fold_left]. rewrite fold_left_seq_shift.
    rewrite (fold_left_pointwise _ _ _ _
               (spaced_step_shift host ctx letterSpacing c (String c' rest))).
    rewrite IH.
    cbn [charAt String.get]. 
    replace (0 <? S (String.length (String c' rest)) - 1)%nat with true by reflexivity.
    unfold sumCharWidths. cbn [list_ascii_of_string fold_right String.length].
    rewrite Nat2Z.inj_succ, <- Z.add_1_r, inject_Z_plus. ring.
Qed.

(** C5, as stated, fails.  Under a host that kerns the pair "AV", the spaced
    width of "AV" is the two characters measured apart plus the spacing, 21,
    and not the host's width of the whole line plus the spacing, 19. *)
Lemma spaced_width_ignores_kerning :
  (measureLineWidth kerningHost (gradientCanvas 100 100) "AV" 1 == 21)%Q /\
  (measureText kerningHost (gradientCanvas 100 100) "AV"
   + 1 * (inject_Z (Z.of_nat (String.length "AV")) - 1) == 19)%Q /\
  ~ (forall host ctx text s,
       text <> EmptyString -> (0 < s)%Q ->
       (measureLineWidth host ctx text s
        == measureText host ctx text
           + s * (inject_Z (Z.of_nat (String.length text)) - 1))%Q).
Proof.
  split; [ reflexivity | ]. split; [ reflexivity | ].
  intros Hclaim.
  specialize (Hclaim kerningHost (gradientCanvas 100 100) "AV"%string 1%Q).
  assert (H : (21 == 19)%Q).
  { etransitivity; [ | etransitivity; [ apply Hclaim | ] ];
      [ reflexivity | discriminate | reflexivity | reflexivity ]. }
  discriminate H.
Qed.

(** With a letter spacing other than 0 the line is measured character by
    character. *)
Lemma spaced_width_sum host ctx (text : string) (s : Q) :
  text <> EmptyString -> ~ (s == 0)%Q ->
  (measureLineWidth host ctx text s
   == sumCharWidths host ctx text
      + s * (inject_Z (Z.of_nat (String.length text)) - 1))%Q.
Proof.
  intros Hne Hs. destruct text as [ | c rest ]; [ congruence | ].
  unfold measureLineWidth. cbn [isEmpty].
  destruct (Qeq_bool s 0) eqn:Hz; [ apply Qeq_bool_iff in Hz; contradiction | ].
  rewrite spaced_loop_sum. cbn [String.length].
  rewrite Nat2Z.inj_succ, <- Z.add_1_r, inject_Z_plus. ring.
Qed.

(** Where the host measures a line as the sum of its characters, the spaced
    width is the width of the whole line plus the spacing between characters. *)
Lemma spaced_width_additive_host host ctx (text : string) (s : Q) :
  text <> EmptyString -> ~ (s == 0)%Q ->
  (measureText host ctx text == sumCharWidths host ctx text)%Q ->
  (measureLineWidth host ctx text s
   == measureText host ctx text
      + s * (inject_Z (Z.of_nat (String.length text)) - 1))%Q.
Proof.
  intros Hne Hs Hadd. rewrite (spaced_width_sum host ctx text s Hne Hs), Hadd. reflexivity.
Qed.

(** C5, amended.  For every non-empty line of [n] characters: with letter
    spacing 0 the width is the host's measurement of the whole line; with a
    letter spacing [s] other than 0 (so with every [s > 0]) it is the sum of
    the host's measurements of the characters, each measured alone, plus
    [s (n - 1)]. *)
Theorem measureLineWidth_spacing host ctx (text : string) (s : Q) :
  text <> EmptyString -> ~ (s == 0)%Q ->
  measureLineWidth host ctx text 0 = measureText host ctx text /\
  (measureLineWidth host ctx text s
   == sumCharWidths host ctx text
      + s * (inject_Z (Z.of_nat (String.length text)) - 1))%Q.
Proof.
  intros Hne Hs. split.
  - destruct text; [ congruence | reflexivity ].
  - now apply spaced_width_sum.
Qed.

Lemma measureLineWidth_spacing_witness :
  measureLineWidth kerningHost (gradientCanvas 100 100) "AVA" 0
  = measureText kerningHost (gradientCanvas 100 100) "AVA" /\
  (measureLineWidth kerningHost (gradientCanvas 100 100) "AVA" 2
   == sumCharWidths kerningHost (gradientCanvas 100 100) "AVA"
      + 2 * (inject_Z (Z.of_nat (String.length "AVA")) - 1))%Q.
Proof.
  apply (measureLineWidth_spacing kerningHost (gradientCanvas 100 100) "AVA" 2);
    discriminate.
Defined.

(** ** The autofit loop *)

Lemma inject_nat_succ (n : nat) :
  (inject_Z (Z.of_nat (S n)) == inject_Z (Z.of_nat n) + 1)%Q.
Proof. now rewrite Nat2Z.inj_succ, <- Z.add_1_r, inject_Z_plus. Qed.


(** The loop returns within [n + 1] evaluations of its condition when the
    font size it starts from is below [6 + n / 2]. *)
Lemma autofit_returns host overlay rect fontWeight fontFamily letterSpacing lineHeight :
  forall (n : nat) (st : Fit),
    (fit_fontSize st < 6 + inject_Z (Z.of_nat n) * (1 # 2))%Q ->
    exists fit,
      autofit host (S n) overlay rect fontWeight fontFamily letterSpacing lineHeight st
      = Ok fit.
Proof.
  induction n as [ | n IH ]; intros st Hsize; cbn [autofit].
  - destruct (Qle_bool 6 (fit_fontSize st)) eqn:Hloop; [ | eauto ].
    apply Qle_bool_iff in Hloop.
    change (inject_Z (Z.of_nat 0)) with 0%Q in Hsize. lra.
  - destruct (Qle_bool 6 (fit_fontSize st)) eqn:Hloop; [ | eauto ].
    destruct (fitAttempt _ _ _ _ _ _ _ _ _) as [tried fits] eqn:Htry.
    destruct fits; [ eauto | ].
    apply IH. cbn [fit_fontSize].
    assert (Hsame : fit_fontSize tried = fit_fontSize st)
      by (unfold fitAttempt in Htry; now injection Htry as <- _).
    rewrite Hsame. rewrite inject_nat_succ in Hsize. lra.
Qed.

Lemma clamp_bounds (v lo hi : Q) : (lo <= hi)%Q -> (lo <= clamp v lo hi <= hi)%Q.
Proof.
  intros H. unfold clamp. split.
  - apply Q.le_max_l.
  - apply Q.max_lub; [ exact H | apply Q.le_min_l ].
Qed.

Lemma baseFontSizeOf_bounds (overlay : TextOverlay) :
  (6 <= baseFontSizeOf overlay <= 400)%Q.
Proof. apply clamp_bounds. lra. Qed.

(** When the block fits at no size from 6 up to the starting size, the loop
    runs its font size down in steps of 1/2 and leaves with the first size
    below 6, which is at least 11/2. *)
Lemma autofit_never_fitting host ctx overlay rect :
  forall (n : nat) (st : Fit),
    (forall F, setFont (fit_ctx st) F = setFont ctx F) ->
    (forall size, (6 <= size)%Q -> (size <= fit_fontSize st)%Q ->
                  fitsAt host ctx overlay rect size = false) ->
    (6 <= fit_fontSize st)%Q ->
    (fit_fontSize st < 6 + inject_Z (Z.of_nat n) * (1 # 2))%Q ->
    exists fit,
      autofit host (S n) overlay rect
              (normalizeWeight (fontWeight overlay))
              (orString (fontFamily overlay) "sans-serif")
              (normalizeLetterSpacing (letterSpacing overlay))
              (normalizeLineHeight (lineHeight overlay)) st = Ok fit /\
      (11 # 2 <= fit_fontSize fit)%Q /\ (fit_fontSize fit < 6)%Q /\
      (forall F, setFont (fit_ctx fit) F = setFont ctx F) /\
      exists k : nat,
        (fit_fontSize fit == fit_fontSize st - inject_Z (Z.of_nat k) * (1 # 2))%Q.
Proof.
  induction n as [ | n IH ]; intros st Hctx Hnofit Hlow Hhigh.
  - change (inject_Z (Z.of_nat 0)) with 0%Q in Hhigh. lra.
  - cbn [autofit].
    assert (Hloop : Qle_bool 6 (fit_fontSize st) = true) by now apply Qle_bool_iff.
    rewrite Hloop.
    pose proof (Hnofit (fit_fontSize st) Hlow ltac:(lra)) as Hfits.
    unfold fitsAt in Hfits.
    assert (Hattempt :
      forall w fam ls lh,
        fitAttempt host (fit_ctx st) overlay rect w fam ls lh (fit_fontSize st)
        = fitAttempt host ctx overlay rect w fam ls lh (fit_fontSize st) /\
        fit_fontSize (fst (fitAttempt host ctx overlay rect w fam ls lh (fit_fontSize st)))
        = fit_fontSize st /\
        forall F, setFont (fit_ctx (fst (fitAttempt host ctx overlay rect w fam ls lh
                                           (fit_fontSize st)))) F = setFont ctx F).
    { intros w fam ls lh. unfold fitAttempt. rewrite Hctx. cbn [fst fit_fontSize fit_ctx].
      repeat split. }
    destruct (Hattempt (normalizeWeight (fontWeight overlay))
                       (orString (fontFamily overlay) "sans-serif")
                       (normalizeLetterSpacing (letterSpacing overlay))
                       (normalizeLineHeight (lineHeight overlay)))
      as (Heq & Hsize & Hctx').
    rewrite Heq.
    destruct (fitAttempt host ctx overlay rect _ _ _ _ _) as [tried fits].
    cbn [fst snd] in *. subst fits.
    set (st' := mkFit (fit_ctx tried) (fit_fontSize tried - (1 # 2))%Q
                      (fit_lines tried) (fit_lineHeightPx tried)).
    rewrite inject_nat_succ in Hhigh.
    destruct (Qlt_le_dec (fit_fontSize st') 6) as [Hbelow | Habove].
    + assert (Hexit : Qle_bool 6 (fit_fontSize st') = false).
      { destruct (Qle_bool 6 (fit_fontSize st')) eqn:E; [ | reflexivity ].
        apply Qle_bool_iff in E. lra. }
      exists st'. split.
      { destruct n; cbn [autofit]; now rewrite Hexit. }
      subst st'. cbn [fit_fontSize fit_ctx] in *. rewrite Hsize in *.
      repeat split; try lra; try exact Hctx'.
      exists 1%nat. change (inject_Z (Z.of_nat 1)) with 1%Q. lra.
    + destruct (IH st') as (fit & Hrun & H1 & H2 & H3 & k & Hk).
      * exact Hctx'.
      * intros size Hs1 Hs2. apply Hnofit; [ exact Hs1 | ].
        subst st'. cbn [fit_fontSize] in Hs2. rewrite Hsize in Hs2. lra.
      * exact Habove.
      * subst st'. cbn [fit_fontSize]. rewrite Hsize. lra.
      * exists fit. repeat split; try assumption.
        exists (S k). rewrite Hk, inject_nat_succ. subst st'. cbn [fit_fontSize].
        rewrite Hsize. lra.
Qed.

(** ** Painting text *)

Lemma paintedFrom_refl (c : Ctx) : paintedFrom c c.
Proof.
  unfold paintedFrom. repeat split; try reflexivity.
  exists []. split; [ now rewrite app_nil_r | constructor ].
Qed.

Lemma paintedFrom_trans (a b c : Ctx) :
  paintedFrom a b -> paintedFrom b c -> paintedFrom a c.
Proof.
  intros (Hw1 & Hh1 & Hs1 & Hp1 & Hv1 & Hout1 & runs1 & Hr1 & Hf1)
         (Hw2 & Hh2 & Hs2 & Hp2 & Hv2 & Hout2 & runs2 & Hr2 & Hf2).
  unfold paintedFrom. repeat split; try congruence.
  - intros i j Hclip. rewrite Hout2 by (rewrite Hs1; exact Hclip). now apply Hout1.
  - exists (runs1 ++ runs2). split.
    + rewrite Hr2, Hr1. now rewrite app_assoc.
    + apply Forall_app; split; [ exact Hf1 | ]. now rewrite <- Hs1.
Qed.

Lemma fillText_paintedFrom host (c : Ctx) (text : string) (x y : Q) :
  paintedFrom c (fillText host c text x y).
Proof.
  unfold paintedFrom, fillText; cbn. repeat split; try reflexivity.
  - intros i j Hclip. rewrite Hclip. now rewrite andb_false_r.
  - eexists. split; [ reflexivity | ]. repeat constructor.
Qed.

Lemma drawLineWithSpacing_paintedFrom host (c : Ctx) (line : string) (x y s : Q) :
  paintedFrom c (drawLineWithSpacing host c line x y s).
Proof.
  unfold drawLineWithSpacing.
  destruct (isEmpty line); [ apply paintedFrom_refl | ].
  destruct (Qeq_bool s 0); [ apply fillText_paintedFrom | ].
  generalize (seq 0 (String.length line)) as indices.
  assert (Hgen : forall indices c' cursor,
            paintedFrom c c' ->
            paintedFrom c
              (fst (fold_left
                      (fun '(ctx, cursorX) i =>
                         let ch := charAt line i in
                         let ctx := fillText host ctx ch cursorX y in
                         let cursorX := (cursorX + measureText host ctx ch)%Q in
                         if (i <? String.length line - 1)%nat
                         then (ctx, (cursorX + s)%Q) else (ctx, cursorX))
                      indices (c', cursor)))).
  { induction indices as [ | i indices IH ]; intros c' cursor Hc'; cbn [fold_left fst];
      [ exact Hc' | ].
    destruct (i <? String.length line - 1)%nat; apply IH;
      (eapply paintedFrom_trans; [ exact Hc' | apply fillText_paintedFrom ]). }
  intros indices. apply Hgen, paintedFrom_refl.
Qed.

Lemma fold_paintedFrom {A : Type} (step : Ctx -> A -> Ctx) :
  (forall c a, paintedFrom c (step c a)) ->
  forall (l : list A) (c c' : Ctx),
    paintedFrom c c' -> paintedFrom c (fold_left step l c').
Proof.
  intros Hstep. induction l as [ | a l IH ]; intros c c' Hc'; cbn [fold_left];
    [ exact Hc' | ].
  apply IH. eapply paintedFrom_trans; [ exact Hc' | apply Hstep ].
Qed.

(** The loop only ever changes the font of the context. *)
Lemma autofit_context host overlay rect fontWeight fontFamily letterSpacing lineHeight
    (ctx : Ctx) :
  forall (fuel : nat) (st fit : Fit),
    (forall F, setFont (fit_ctx st) F = setFont ctx F) ->
    autofit host fuel overlay rect fontWeight fontFamily letterSpacing lineHeight st
    = Ok fit ->
    forall F, setFont (fit_ctx fit) F = setFont ctx F.
Proof.
  induction fuel as [ | fuel IH ]; intros st fit Hctx Hrun; cbn [autofit] in Hrun;
    [ discriminate | ].
  destruct (Qle_bool 6 (fit_fontSize st)).
  - unfold fitAttempt in Hrun. destruct (_ && _) in Hrun.
    + injection Hrun as <-. cbn [fit_ctx]. exact Hctx.
    + refine (IH _ fit _ Hrun). cbn [fit_ctx]. exact Hctx.
  - injection Hrun as <-. exact Hctx.
Qed.

(** What [drawText] does once the loop has returned: it paints under a clip
    region inside the rectangle, in the font of the size the loop left. *)
Lemma drawText_after_autofit host fuel ctx overlay rect fit :
  autofit host fuel overlay rect
          (normalizeWeight (fontWeight overlay))
          (orString (fontFamily overlay) "sans-serif")
          (normalizeLetterSpacing (letterSpacing overlay))
          (normalizeLineHeight (lineHeight overlay))
          (mkFit ctx (baseFontSizeOf overlay) [] 0%Q) = Ok fit ->
  exists ctx',
    drawText host fuel ctx overlay rect = Ok ctx' /\
    canvas_width ctx' = canvas_width ctx /\ canvas_height ctx' = canvas_height ctx /\
    (forall i j,
       insideRect (IntRect.x rect) (IntRect.y rect) (IntRect.width rect)
                  (IntRect.height rect) i j = false ->
       surface ctx' i j = surface ctx i j) /\
    exists runs,
      painted ctx' = painted ctx ++ runs /\
      Forall (fun r => font_size (run_font r) = fit_fontSize fit) runs.
Proof.
  intros Hfit.
  pose proof (autofit_context host overlay rect _ _ _ _ ctx fuel
                (mkFit ctx (baseFontSizeOf overlay) [] 0%Q) fit
                (fun F => eq_refl) Hfit) as Hctx.
  unfold drawText. fold (baseFontSizeOf overlay). rewrite Hfit. cbn [bind].
  rewrite Hctx.
  eexists. split; [ reflexivity | ].
  match goal with
  | |- context [fold_left ?step ?l ?c0] =>
      pose proof (fold_paintedFrom step
                    ltac:(intros c [index line]; apply drawLineWithSpacing_paintedFrom)
                    l c0 c0 (paintedFrom_refl c0))
        as (Hw & Hh & Hs & Hp & Hv & Hout & runs & Hruns & Hfont);
      set (drawn := fold_left step l c0) in *;
      assert (Hc0 : canvas_width c0 = canvas_width ctx /\
                    canvas_height c0 = canvas_height ctx /\
                    surface c0 = surface ctx /\ painted c0 = painted ctx /\
                    font (state c0)
                    = mkFont (normalizeWeight (fontWeight overlay)) (fit_fontSize fit)
                             (orString (fontFamily overlay) "sans-serif"
                              ++ ", sans-serif")%string /\
                    forall i j,
                      insideRect (IntRect.x rect) (IntRect.y rect) (IntRect.width rect)
                                 (IntRect.height rect) i j = false ->
                      clip (state c0) i j = false)
        by (unfold setFillStyle; destruct (parseColor _); cbn; repeat split;
            intros i j Hin; rewrite Hin; cbn; now rewrite andb_false_r)
  end.
  destruct Hc0 as (Cw & Ch & Cs & Cp & Cf & Cclip).
  assert (Hrestore : canvas_width (restore drawn) = canvas_width drawn /\
                     canvas_height (restore drawn) = canvas_height drawn /\
                     surface (restore drawn) = surface drawn /\
                     painted (restore drawn) = painted drawn)
    by (unfold restore; destruct (saved drawn); repeat split).
  destruct Hrestore as (Rw & Rh & Rs & Rp).
  rewrite Rw, Rh, Rs, Rp. repeat split.
  - congruence.
  - congruence.
  - intros i j Hin. rewrite <- Cs. apply Hout. now apply Cclip.
  - exists runs. split; [ congruence | ].
    eapply List.Forall_impl; [ | exact Hfont ]. cbn beta. intros r ->. now rewrite Cf.
Qed.

(** The loop of [drawText] returns for every overlay within 790 evaluations
    of its condition: the starting size is at most 400. *)
Lemma drawText_terminates host fuel ctx overlay rect :
  (790 <= fuel)%nat -> exists ctx', drawText host fuel ctx overlay rect = Ok ctx'.
Proof.
  intros Hfuel. destruct fuel as [ | n ]; [ lia | ].
  destruct (autofit_returns host overlay rect
              (normalizeWeight (fontWeight overlay))
              (orString (fontFamily overlay) "sans-serif")
              (normalizeLetterSpacing (letterSpacing overlay))
              (normalizeLineHeight (lineHeight overlay)) n
              (mkFit ctx (baseFontSizeOf overlay) [] 0%Q)) as [fit Hfit].
  { cbn [fit_fontSize]. pose proof (baseFontSizeOf_bounds overlay) as [_ Hmax].
    assert (Hn : (789 <= inject_Z (Z.of_nat n))%Q).
    { change 789%Q with (inject_Z 789). rewrite <- Zle_Qle. lia. }
    lra. }
  destruct (drawText_after_autofit host (S n) ctx overlay rect fit Hfit) as (ctx' & H & _).
  eauto.
Qed.

(** C1.  For an overlay whose text fits at no font size from 6 up to the
    starting size, [drawText] returns (790 evaluations of the loop condition
    always suffice), and every run it paints is issued at one font size,
    which is the starting size less a whole number of half pixels, at least
    5.5 and strictly below 6: the loop leaves with the first size under the
    floor, not with the floor. *)
Theorem unfittable_text_painted_below_floor host fuel ctx overlay rect :
  (790 <= fuel)%nat ->
  (forall size, (6 <= size)%Q -> (size <= baseFontSizeOf overlay)%Q ->
                fitsAt host ctx overlay rect size = false) ->
  exists ctx' size,
    drawText host fuel ctx overlay rect = Ok ctx' /\
    (11 # 2 <= size)%Q /\ (size < 6)%Q /\
    (exists k : nat,
       (size == baseFontSizeOf overlay - inject_Z (Z.of_nat k) * (1 # 2))%Q) /\
    exists runs,
      painted ctx' = painted ctx ++ runs /\
      Forall (fun r => font_size (run_font r) = size) runs.
Proof.
  intros Hfuel Hnofit. destruct fuel as [ | n ]; [ lia | ].
  pose proof (baseFontSizeOf_bounds overlay) as [Hmin Hmax].
  destruct (autofit_never_fitting host ctx overlay rect n
              (mkFit ctx (baseFontSizeOf overlay) [] 0%Q))
    as (fit & Hfit & Hlow & Hhigh & _ & Hsteps).
  - intros F. reflexivity.
  - exact Hnofit.
  - exact Hmin.
  - cbn [fit_fontSize].
    assert (Hn : (789 <= inject_Z (Z.of_nat n))%Q).
    { change 789%Q with (inject_Z 789). rewrite <- Zle_Qle. lia. }
    lra.
  - destruct (drawText_after_autofit host (S n) ctx overlay rect fit Hfit)
      as (ctx' & Hdraw & _ & _ & _ & runs & Hruns & Hfont).
    exists ctx', (fit_fontSize fit).
    split; [ exact Hdraw | ]. split; [ exact Hlow | ]. split; [ exact Hhigh | ].
    split; [ exact Hsteps | ].
    exists runs. split; assumption.
Qed.

Lemma tallOverlay_never_fits (size : Q) :
  (6 <= size)%Q ->
  fitsAt monoHost (gradientCanvas 100 100) tallOverlay (IntRect.mk 20 30 10 10) size = false.
Proof.
  intros Hsize. unfold fitsAt, fitAttempt. cbn [snd].
  apply andb_false_iff. left.
  destruct (Qle_bool _ _) eqn:E; [ exfalso | reflexivity ].
  apply Qle_bool_iff in E. 
  change (wrapText monoHost _ _ _ _) with ["W"%string] in E.
  change (normalizeLineHeight (lineHeight tallOverlay)) with
    (Qmax (8 # 10) (Qmin (24 # 10) 2)) in E.
  assert (Hlh : (Qmax (8 # 10) (Qmin (24 # 10) 2) == 2)%Q) by reflexivity.
  rewrite Hlh in E. cbn [length IntRect.height] in E.
  change (inject_Z (Z.of_nat 1)) with 1%Q in E. change (inject_Z 10) with 10%Q in E.
  lra.
Qed.

Lemma unfittable_text_painted_below_floor_witness :
  exists ctx' size,
    drawText monoHost 800 (gradientCanvas 100 100) tallOverlay (IntRect.mk 20 30 10 10)
    = Ok ctx' /\
    (11 # 2 <= size)%Q /\ (size < 6)%Q /\
    (exists k : nat,
       (size == baseFontSizeOf tallOverlay - inject_Z (Z.of_nat k) * (1 # 2))%Q) /\
    exists runs,
      painted ctx' = painted (gradientCanvas 100 100) ++ runs /\
      Forall (fun r => font_size (run_font r) = size) runs.
Proof.
  apply (unfittable_text_painted_below_floor monoHost 800 (gradientCanvas 100 100)
           tallOverlay (IntRect.mk 20 30 10 10)).
  - lia.
  - intros size Hlow _. now apply tallOverlay_never_fits.
Defined.

(** The run that [drawText] paints for the sample overlay: the character at
    the corner of the rectangle, at font size 11/2. *)
Example tallOverlay_painted_at_5_5 :
  match drawText monoHost 800 (gradientCanvas 100 100) tallOverlay
                 (IntRect.mk 20 30 10 10) with
  | Ok ctx' =>
      map (fun r => (run_text r, Qred (run_x r), Qred (run_y r),
                     Qred (font_size (run_font r)))) (painted ctx')
  | _ => []
  end = [("W"%string, 20%Q, 30%Q, 11 # 2)].
Proof. vm_compute. reflexivity. Qed.

(** ** Pixel blocks *)

Lemma lookup_map_seq {A : Type} (g : nat -> A) (s n a : nat) :
  (a < n)%nat -> map g (seq s n) !! a = Some (g (s + a)%nat).
Proof.
  revert s a. induction n as [ | n IH ]; intros s a Ha; [ lia | ].
  destruct a as [ | a ]; cbn.
  - now rewrite Nat.add_0_r.
  - rewrite IH by lia. now rewrite Nat.add_succ_r.
Qed.

(** Row-major addressing: element [a] of row [b] sits at [b * n + a]. *)
Lemma lookup_rows {A : Type} (f : nat -> nat -> A) (n m k a b : nat) :
  (a < n)%nat -> (b < m)%nat ->
  flat_map (fun j => map (f j) (seq 0 n)) (seq k m) !! (b * n + a)%nat
  = Some (f (k + b)%nat a).
Proof.
  intros Ha. revert k b. induction m as [ | m IH ]; intros k b Hb; [ lia | ].
  cbn [seq flat_map]. destruct b as [ | b ].
  - rewrite lookup_app_l by (rewrite length_map, length_seq; exact Ha).
    cbn [Nat.mul Nat.add]. rewrite lookup_map_seq by exact Ha.
    now rewrite Nat.add_0_r.
  - rewrite lookup_app_r by (rewrite length_map, length_seq; lia).
    rewrite length_map, length_seq.
    replace (S b * n + a - n)%nat with (b * n + a)%nat by lia.
    rewrite IH by lia. now rewrite Nat.add_succ_r.
Qed.

Lemma length_rows {A : Type} (f : nat -> nat -> A) (n m k : nat) :
  length (flat_map (fun j => map (f j) (seq 0 n)) (seq k m)) = (m * n)%nat.
Proof.
  revert k. induction m as [ | m IH ]; intros k; [ reflexivity | ].
  cbn [seq flat_map]. rewrite length_app, length_map, length_seq, IH. lia.
Qed.

Section InsertLoop.

Context {A K : Type} (ix : K -> nat) (v : K -> A) (g : nat -> A).

Lemma insert_loop_length (ks : list K) (out : list A) :
  length (fold_left (fun out k => <[ix k := v k]> out) ks out) = length out.
Proof.
  revert out. induction ks as [ | k ks IH ]; intros out; cbn [fold_left];
    [ reflexivity | ].
  now rewrite IH, length_insert.
Qed.

Lemma insert_loop_untouched (ks : list K) (out : list A) (i : nat) :
  ~ In i (map ix ks) ->
  fold_left (fun out k => <[ix k := v k]> out) ks out !! i = out !! i.
Proof.
  revert out. induction ks as [ | k ks IH ]; intros out Hi; cbn [fold_left];
    [ reflexivity | ].
  cbn [map In] in Hi. rewrite IH by tauto.
  apply list_lookup_insert_ne. tauto.
Qed.

(** A loop that stores at index [ix k] a value determined by that index
    leaves [g i] at every index it visits. *)
Lemma insert_loop_visited (ks : list K) (out : list A) (i : nat) :
  (forall k, In k ks -> v k = g (ix k)) ->
  (i < length out)%nat -> In i (map ix ks) ->
  fold_left (fun out k => <[ix k := v k]> out) ks out !! i = Some (g i).
Proof.
  revert out. induction ks as [ | k ks IH ]; intros out Hv Hi Hin; cbn [fold_left];
    [ destruct Hin | ].
  destruct (in_dec Nat.eq_dec i (map ix ks)) as [Hlater | Hnot].
  - apply IH; [ intros k' Hk'; apply Hv; now right | now rewrite length_insert | exact Hlater ].
  - rewrite insert_loop_untouched by exact Hnot.
    destruct Hin as [Hk | Hlater]; [ | contradiction ].
    rewrite <- Hk, list_lookup_insert_eq by (rewrite Hk; exact Hi).
    f_equal. apply Hv. now left.
Qed.

End InsertLoop.

Lemma fold_left_flat_map {A B C : Type} (f : A -> C -> A) (g : B -> list C)
    (l : list B) (a : A) :
  fold_left f (flat_map g l) a = fold_left (fun a y => fold_left f (g y) a) l a.
Proof.
  revert a. induction l as [ | y l IH ]; intros a; cbn [flat_map fold_left];
    [ reflexivity | ].
  now rewrite fold_left_app, IH.
Qed.

Lemma fold_left_map {A B C : Type} (f : A -> C -> A) (g : B -> C) (l : list B) (a : A) :
  fold_left f (map g l) a = fold_left (fun a x => f a (g x)) l a.
Proof.
  revert a. induction l as [ | x l IH ]; intros a; cbn [map fold_left];
    [ reflexivity | ].
  now rewrite IH.
Qed.

Lemma row_major_index (W : Z) (x y : nat) :
  0 < W -> Z.to_nat (Z.of_nat y * W + Z.of_nat x) = (y * Z.to_nat W + x)%nat.
Proof.
  intros HW. rewrite <- (Z2Nat.id W) at 1 by lia.
  rewrite <- Nat2Z.inj_mul, <- Nat2Z.inj_add. apply Nat2Z.id.
Qed.

Lemma featherBlend_length (sourceData targetData : ImageData) (W H : Z) :
  length (featherBlend sourceData targetData W H) = length (data targetData).
Proof.
  unfold featherBlend. generalize (data targetData) as out.
  induction (seq 0 (Z.to_nat H)) as [ | y ys IH ]; intros out; cbn [fold_left];
    [ reflexivity | ].
  rewrite IH. unfold blendAt. apply insert_loop_length.
Qed.

(** The nested loops leave at [(a, b)] the blend of the two blocks there. *)
Lemma featherBlend_lookup (sourceData targetData : ImageData) (W H : Z) (a b : nat) :
  0 < W -> (a < Z.to_nat W)%nat -> (b < Z.to_nat H)%nat ->
  length (data targetData) = (Z.to_nat H * Z.to_nat W)%nat ->
  featherBlend sourceData targetData W H !! (b * Z.to_nat W + a)%nat
  = Some (blendPixel (data sourceData !! (b * Z.to_nat W + a)%nat)
                     (data targetData !! (b * Z.to_nat W + a)%nat)
                     (featherAlpha W H (Z.of_nat a) (Z.of_nat b))).
Proof.
  intros HW Ha Hb Hlen.
  set (Wn := Z.to_nat W) in *.
  set (ix := fun p : nat * nat => Z.to_nat (Z.of_nat (fst p) * W + Z.of_nat (snd p))).
  set (v := fun p : nat * nat =>
              blendPixel (data sourceData !! ix p) (data targetData !! ix p)
                         (featherAlpha W H (Z.of_nat (snd p)) (Z.of_nat (fst p)))).
  set (g := fun i : nat =>
              blendPixel (data sourceData !! i) (data targetData !! i)
                         (featherAlpha W H (Z.of_nat (i mod Wn)) (Z.of_nat (i / Wn)))).
  set (pairs := flat_map (fun y => map (pair y) (seq 0 Wn)) (seq 0 (Z.to_nat H))).
  assert (Hflat : featherBlend sourceData targetData W H
                  = fold_left (fun out p => <[ix p := v p]> out) pairs (data targetData)).
  { unfold featherBlend, pairs. rewrite fold_left_flat_map.
    apply fold_left_pointwise. intros out y. now rewrite fold_left_map. }
  assert (Hpair : forall p, In p pairs ->
                            ix p = (fst p * Wn + snd p)%nat /\ (snd p < Wn)%nat).
  { intros [y x] Hp. unfold pairs in Hp. apply in_flat_map in Hp as (y' & _ & Hp).
    apply in_map_iff in Hp as (x' & [= <- <-] & Hx). apply in_seq in Hx.
    cbn [fst snd]. split; [ apply row_major_index; exact HW | lia ]. }
  assert (Hg : g (b * Wn + a)%nat
               = blendPixel (data sourceData !! (b * Wn + a)%nat)
                            (data targetData !! (b * Wn + a)%nat)
                            (featherAlpha W H (Z.of_nat a) (Z.of_nat b))).
  { unfold g. replace ((b * Wn + a) mod Wn)%nat with a
      by (apply Nat.mod_unique with b; lia).
    replace ((b * Wn + a) / Wn)%nat with b
      by (apply Nat.div_unique with a; lia).
    reflexivity. }
  rewrite Hflat, <- Hg. apply insert_loop_visited.
  - intros p Hp. destruct (Hpair p Hp) as [Hix Hx]. unfold v, g. rewrite Hix.
    replace ((fst p * Wn + snd p) mod Wn)%nat with (snd p)
      by (apply Nat.mod_unique with (fst p); lia).
    replace ((fst p * Wn + snd p) / Wn)%nat with (fst p)
      by (apply Nat.div_unique with (snd p); lia).
    reflexivity.
  - rewrite Hlen. nia.
  - apply in_map_iff. exists (b, a). split.
    + unfold ix. cbn [fst snd]. apply row_major_index. exact HW.
    + unfold pairs. apply in_flat_map. exists b. split; [ apply in_seq; lia | ].
      apply in_map, in_seq. lia.
Qed.

Lemma getImageData_block (ctx : Ctx) (sx sy w h : Z) :
  0 < w -> 0 < h ->
  exists img,
    getImageData ctx sx sy w h = Ok img /\
    img_width img = w /\ img_height img = h /\
    length (data img) = (Z.to_nat h * Z.to_nat w)%nat /\
    forall a b : nat,
      (a < Z.to_nat w)%nat -> (b < Z.to_nat h)%nat ->
      data img !! (b * Z.to_nat w + a)%nat
      = Some (pixelAt ctx (sx + Z.of_nat a) (sy + Z.of_nat b)).
Proof.
  intros Hw Hh. unfold getImageData.
  replace (w =? 0) with false by (symmetry; apply Z.eqb_neq; lia).
  replace (h =? 0) with false by (symmetry; apply Z.eqb_neq; lia).
  cbn [orb].
  replace (Z.min sx (sx + w)) with sx by lia.
  replace (Z.min sy (sy + h)) with sy by lia.
  replace (Z.abs w) with w by lia. replace (Z.abs h) with h by lia.
  eexists. split; [ reflexivity | ]. cbn [img_width img_height data].
  repeat split.
  - apply (length_rows (fun j i => pixelAt ctx (sx + Z.of_nat i) (sy + Z.of_nat j))).
  - intros a b Ha Hb.
    apply (lookup_rows (fun j i => pixelAt ctx (sx + Z.of_nat i) (sy + Z.of_nat j))
                       (Z.to_nat w) (Z.to_nat h) 0 a b Ha Hb).
Qed.

Lemma getSourceRect_shifted (rect : IntRect.t) (W H : Z) (d : CloneDirection) :
  inCanvas rect W H ->
  getSourceRect rect W H d
  = if withinCanvas (shifted rect d) W H then Some (shifted rect d) else None.
Proof.
  intros (Hx & Hy & Hw & Hh & Hr & Hb).
  unfold getSourceRect, withinCanvas, shifted.
  destruct d; cbn [IntRect.x IntRect.y IntRect.width IntRect.height];
    repeat match goal with
           | |- context [?a <=? ?b] =>
               destruct (Z.leb_spec a b); cbn [andb]
           end; try reflexivity; lia.
Qed.

Lemma inSurface_inside (ctx : Ctx) (r : IntRect.t) (i j : Z) :
  withinCanvas r (canvas_width ctx) (canvas_height ctx) = true ->
  insideRect (IntRect.x r) (IntRect.y r) (IntRect.width r) (IntRect.height r) i j = true ->
  inSurface ctx i j = true.
Proof.
  unfold withinCanvas, insideRect, inSurface. intros Hc Hin.
  repeat (apply andb_true_iff in Hc as [Hc ?]).
  repeat (apply andb_true_iff in Hin as [Hin ?]).
  repeat (apply andb_true_iff; split); lia.
Qed.

Lemma inCanvas_withinCanvas (r : IntRect.t) (W H : Z) :
  inCanvas r W H -> withinCanvas r W H = true.
Proof.
  intros (Hx & Hy & Hw & Hh & Hr & Hb). unfold withinCanvas.
  repeat (apply andb_true_iff; split); lia.
Qed.

Lemma pixelAt_inside (ctx : Ctx) (i j : Z) :
  inSurface ctx i j = true -> pixelAt ctx i j = surface ctx i j.
Proof. unfold pixelAt. now intros ->. Qed.

(** One successful turn of the clone loop: the rectangle takes the feathered
    blend of the source block over its own pixels. *)
Lemma cloneFromFirst_source (ctx : Ctx) (rect source : IntRect.t)
    (d : CloneDirection) (others : list CloneDirection) :
  0 < IntRect.width rect -> 0 < IntRect.height rect ->
  inCanvas rect (canvas_width ctx) (canvas_height ctx) ->
  getSourceRect rect (canvas_width ctx) (canvas_height ctx) d = Some source ->
  withinCanvas source (canvas_width ctx) (canvas_height ctx) = true ->
  IntRect.width source = IntRect.width rect ->
  IntRect.height source = IntRect.height rect ->
  exists ctx1,
    cloneFromFirst ctx rect (d :: others) = Ok (Some ctx1) /\
    sameButSurface ctx ctx1 /\
    forall i j, surface ctx1 i j = clonedSurface ctx rect source i j.
Proof.
  intros Hw Hh Hrect Hsrc Hin HsW HsH.
  cbn [cloneFromFirst]. rewrite Hsrc.
  destruct (getImageData_block ctx (IntRect.x source) (IntRect.y source)
              (IntRect.width rect) (IntRect.height rect) Hw Hh)
    as (src & -> & _ & _ & _ & Hsrcpx).
  destruct (getImageData_block ctx (IntRect.x rect) (IntRect.y rect)
              (IntRect.width rect) (IntRect.height rect) Hw Hh)
    as (tgt & -> & _ & _ & Htgtlen & Htgtpx).
  cbn [bind]. unfold newImageData.
  replace (IntRect.width rect <=? 0) with false by (symmetry; apply Z.leb_gt; lia).
  replace (IntRect.height rect <=? 0) with false by (symmetry; apply Z.leb_gt; lia).
  cbn [orb]. rewrite featherBlend_length, Htgtlen.
  replace (Z.of_nat (Z.to_nat (IntRect.height rect) * Z.to_nat (IntRect.width rect))
           =? IntRect.width rect * IntRect.height rect) with true
    by (symmetry; apply Z.eqb_eq; rewrite Nat2Z.inj_mul, !Z2Nat.id; lia).
  cbn [bind]. eexists. split; [ reflexivity | ].
  split; [ unfold sameButSurface, putImageData; cbn; repeat split | ].
  intros i j. unfold putImageData, clonedSurface.
  cbn [surface withSurface img_width img_height data].
  destruct (insideRect (IntRect.x rect) (IntRect.y rect) (IntRect.width rect)
                       (IntRect.height rect) i j) eqn:Hinside.
  - rewrite (inSurface_inside ctx rect i j (inCanvas_withinCanvas _ _ _ Hrect) Hinside).
    cbn [andb].
    assert (Hij : IntRect.x rect <= i < IntRect.x rect + IntRect.width rect /\
                  IntRect.y rect <= j < IntRect.y rect + IntRect.height rect).
    { unfold insideRect in Hinside.
      repeat (apply andb_true_iff in Hinside as [Hinside ?]). lia. }
    set (a := Z.to_nat (i - IntRect.x rect)).
    set (b := Z.to_nat (j - IntRect.y rect)).
    assert (Ha : Z.of_nat a = i - IntRect.x rect) by (subst a; rewrite Z2Nat.id; lia).
    assert (Hb : Z.of_nat b = j - IntRect.y rect) by (subst b; rewrite Z2Nat.id; lia).
    rewrite <- Ha, <- Hb, (row_major_index _ a b Hw).
    rewrite featherBlend_lookup by (lia || exact Htgtlen).
    rewrite Hsrcpx, Htgtpx by lia. cbn [default].
    rewrite !pixelAt_inside.
    + replace (IntRect.x rect + Z.of_nat a) with i by lia.
      replace (IntRect.y rect + Z.of_nat b) with j by lia. reflexivity.
    + apply (inSurface_inside ctx rect); [ now apply inCanvas_withinCanvas | ].
      rewrite Ha, Hb.
      replace (IntRect.x rect + (i - IntRect.x rect)) with i by lia.
      replace (IntRect.y rect + (j - IntRect.y rect)) with j by lia. exact Hinside.
    + apply (inSurface_inside ctx source); [ exact Hin | ].
      unfold insideRect. rewrite HsW, HsH.
      repeat (apply andb_true_iff; split); lia.
  - now rewrite andb_false_r.
Qed.

(** ** Background reconstruction *)

Lemma shifted_size (rect : IntRect.t) (d : CloneDirection) :
  IntRect.width (shifted rect d) = IntRect.width rect /\
  IntRect.height (shifted rect d) = IntRect.height rect.
Proof. destruct d; split; reflexivity. Qed.

(** The clone loop returns at the first direction, in the order given, whose
    source rectangle lies within the canvas, and runs out otherwise. *)
Lemma cloneFromFirst_first (ctx : Ctx) (rect : IntRect.t) (dirs : list CloneDirection) :
  0 < IntRect.width rect -> 0 < IntRect.height rect ->
  inCanvas rect (canvas_width ctx) (canvas_height ctx) ->
  match List.find (fun s => withinCanvas s (canvas_width ctx) (canvas_height ctx))
                  (map (shifted rect) dirs) with
  | Some source =>
      exists ctx1,
        cloneFromFirst ctx rect dirs = Ok (Some ctx1) /\
        sameButSurface ctx ctx1 /\
        forall i j, surface ctx1 i j = clonedSurface ctx rect source i j
  | None => cloneFromFirst ctx rect dirs = Ok None
  end.
Proof.
  intros Hw Hh Hrect. induction dirs as [ | d dirs IH ]; cbn [map List.find];
    [ reflexivity | ].
  pose proof (getSourceRect_shifted rect _ _ d Hrect) as Hsrc.
  destruct (withinCanvas (shifted rect d) (canvas_width ctx) (canvas_height ctx)) eqn:Hin.
  - destruct (shifted_size rect d) as [HsW HsH].
    now apply (cloneFromFirst_source ctx rect (shifted rect d) d dirs).
  - cbn [cloneFromFirst]. rewrite Hsrc. exact IH.
Qed.



(** *** The neighbour average *)

Lemma hexRoundTrip_bytes : forallb hexRoundTrip (seq 0 256) = true.
Proof. vm_compute. reflexivity. Qed.

Lemma toHex_byte (n : Z) :
  0 <= n <= 255 ->
  exists hi lo,
    padStart2 (toString16 n) = String hi (String lo EmptyString) /\
    hexByteValue hi lo = Some n.
Proof.
  intros Hn. pose proof hexRoundTrip_bytes as Hall.
  rewrite forallb_forall in Hall.
  specialize (Hall (Z.to_nat n) ltac:(apply in_seq; lia)).
  unfold hexRoundTrip in Hall. rewrite Z2Nat.id in Hall by lia.
  destruct (padStart2 (toString16 n)) as [ | hi [ | lo [ | ? ? ] ] ]; try discriminate.
  destruct (hexByteValue hi lo) as [m | ] eqn:Hm; [ | discriminate ].
  apply Z.eqb_eq in Hall. subst m. eauto.
Qed.

Lemma parseColor_hex (r g b : Q) :
  0 <= Math_round r <= 255 -> 0 <= Math_round g <= 255 -> 0 <= Math_round b <= 255 ->
  parseColor (String.concat "" ["#"%string; toHex r; toHex g; toHex b])
  = Some (mkPixel (Math_round r) (Math_round g) (Math_round b) 255).
Proof.
  intros Hr Hg Hb. unfold toHex.
  destruct (toHex_byte _ Hr) as (r1 & r0 & -> & Hrv).
  destruct (toHex_byte _ Hg) as (g1 & g0 & -> & Hgv).
  destruct (toHex_byte _ Hb) as (b1 & b0 & -> & Hbv).
  cbn [String.concat String.append parseColor]. now rewrite Hrv, Hgv, Hbv.
Qed.

Lemma flat_map_singleton {A B : Type} (f : A -> B) (l : list A) :
  flat_map (fun a => [f a]) l = map f l.
Proof. induction l as [ | a l IH ]; cbn; [ reflexivity | now rewrite IH ]. Qed.

Lemma addPixel_sums (pixels : list Pixel) (acc : Sums) :
  fold_left addPixel pixels acc
  = mkSums (sum_r acc + fold_right Z.add 0 (map red pixels))
           (sum_g acc + fold_right Z.add 0 (map green pixels))
           (sum_b acc + fold_right Z.add 0 (map blue pixels))
           (count acc + Z.of_nat (length pixels)).
Proof.
  revert acc. induction pixels as [ | p pixels IH ]; intros acc.
  - cbn. destruct acc; cbn. f_equal; lia.
  - cbn [fold_left]. rewrite IH. unfold addPixel.
    cbn [sum_r sum_g sum_b count map fold_right length]. f_equal; lia.
Qed.

(** [collect] on a column of [h] pixels inside the canvas. *)
Lemma collect_column (ctx : Ctx) (acc : Sums) (x y h : Z) :
  0 < h -> 0 <= x < canvas_width ctx -> 0 <= y -> y + h <= canvas_height ctx ->
  collect ctx acc x y 1 h
  = Ok (fold_left addPixel
          (map (fun b => surface ctx x (y + Z.of_nat b)) (seq 0 (Z.to_nat h))) acc).
Proof.
  intros Hh Hx Hy Hb. unfold collect, getImageData.
  replace (h <=? 0) with false by (symmetry; apply Z.leb_gt; lia).
  replace (h =? 0) with false by (symmetry; apply Z.eqb_neq; lia).
  change (1 <=? 0) with false. change (1 =? 0) with false.
  change (Z.to_nat (Z.abs 1)) with 1%nat. cbn [orb bind data seq map].
  replace (Z.min y (y + h)) with y by lia. replace (Z.abs h) with h by lia.
  replace (Z.min x (x + 1)) with x by lia.
  do 2 f_equal. rewrite flat_map_singleton. apply map_ext_in.
  intros b Hin. apply in_seq in Hin. rewrite Z.add_0_r. apply pixelAt_inside.
  unfold inSurface. repeat (apply andb_true_iff; split); lia.
Qed.

(** [collect] on a row of [w] pixels inside the canvas. *)
Lemma collect_row (ctx : Ctx) (acc : Sums) (x y w : Z) :
  0 < w -> 0 <= y < canvas_height ctx -> 0 <= x -> x + w <= canvas_width ctx ->
  collect ctx acc x y w 1
  = Ok (fold_left addPixel
          (map (fun a => surface ctx (x + Z.of_nat a) y) (seq 0 (Z.to_nat w))) acc).
Proof.
  intros Hw Hy Hx Hr. unfold collect, getImageData.
  replace (w <=? 0) with false by (symmetry; apply Z.leb_gt; lia).
  replace (w =? 0) with false by (symmetry; apply Z.eqb_neq; lia).
  change (1 <=? 0) with false. change (1 =? 0) with false.
  change (Z.to_nat (Z.abs 1)) with 1%nat. cbn [orb bind data seq flat_map].
  rewrite app_nil_r.
  replace (Z.min x (x + w)) with x by lia. replace (Z.abs w) with w by lia.
  replace (Z.min y (y + 1)) with y by lia.
  do 2 f_equal. apply map_ext_in.
  intros a Hin. apply in_seq in Hin. rewrite Z.add_0_r. apply pixelAt_inside.
  unfold inSurface. repeat (apply andb_true_iff; split); lia.
Qed.

(** The sums that [getAverageNeighborColor] accumulates are those of the
    neighbour pixels, and its answer is their mean colour in hex, or the
    fallback when there is no neighbour. *)
Lemma getAverageNeighborColor_mean (ctx : Ctx) (rect : IntRect.t) (fallback : string) :
  0 < IntRect.width rect -> 0 < IntRect.height rect ->
  inCanvas rect (canvas_width ctx) (canvas_height ctx) ->
  getAverageNeighborColor ctx rect fallback
  = Ok (match neighbourPixels ctx rect with
        | [] => fallback
        | pixels =>
            let n := inject_Z (Z.of_nat (length pixels)) in
            String.concat ""
              ["#"%string;
               toHex (inject_Z (fold_right Z.add 0%Z (map red pixels)) / n)%Q;
               toHex (inject_Z (fold_right Z.add 0%Z (map green pixels)) / n)%Q;
               toHex (inject_Z (fold_right Z.add 0%Z (map blue pixels)) / n)%Q]
        end).
Proof.
  intros Hw Hh (Hx & Hy & _ & _ & Hr & Hb).
  unfold getAverageNeighborColor, neighbourPixels.
  set (x := IntRect.x rect) in *. set (y := IntRect.y rect) in *.
  set (w := IntRect.width rect) in *. set (h := IntRect.height rect) in *.
  set (left := map (fun b => surface ctx (x - 1) (y + Z.of_nat b)) (seq 0 (Z.to_nat h))).
  set (right := map (fun b => surface ctx (x + w) (y + Z.of_nat b)) (seq 0 (Z.to_nat h))).
  set (top := map (fun a => surface ctx (x + Z.of_nat a) (y - 1)) (seq 0 (Z.to_nat w))).
  set (bottom := map (fun a => surface ctx (x + Z.of_nat a) (y + h)) (seq 0 (Z.to_nat w))).
  assert (H1 : forall acc,
            (if 0 <? x then collect ctx acc (x - 1) y 1 h else Ok acc)
            = Ok (fold_left addPixel (if 0 <? x then left else []) acc)).
  { intros acc. destruct (Z.ltb_spec 0 x); [ | reflexivity ].
    apply collect_column; lia. }
  assert (H2 : forall acc,
            (if x + w <? canvas_width ctx then collect ctx acc (x + w) y 1 h else Ok acc)
            = Ok (fold_left addPixel (if x + w <? canvas_width ctx then right else []) acc)).
  { intros acc. destruct (Z.ltb_spec (x + w) (canvas_width ctx)); [ | reflexivity ].
    apply collect_column; lia. }
  assert (H3 : forall acc,
            (if 0 <? y then collect ctx acc x (y - 1) w 1 else Ok acc)
            = Ok (fold_left addPixel (if 0 <? y then top else []) acc)).
  { intros acc. destruct (Z.ltb_spec 0 y); [ | reflexivity ].
    apply collect_row; lia. }
  assert (H4 : forall acc,
            (if y + h <? canvas_height ctx then collect ctx acc x (y + h) w 1 else Ok acc)
            = Ok (fold_left addPixel (if y + h <? canvas_height ctx then bottom else []) acc)).
  { intros acc. destruct (Z.ltb_spec (y + h) (canvas_height ctx)); [ | reflexivity ].
    apply collect_row; lia. }
  rewrite H1. cbn [bind]. rewrite H2. cbn [bind]. rewrite H3. cbn [bind].
  rewrite H4. cbn [bind]. rewrite <- !fold_left_app.
  rewrite <- ?app_assoc.
  match goal with
  | |- context [fold_left addPixel ?l (mkSums 0 0 0 0)] => generalize l
  end.
  intros pixels. rewrite addPixel_sums. cbn [sum_r sum_g sum_b count Z.add].
  destruct pixels as [ | p pixels ]; [ reflexivity | ].
  replace (Z.of_nat (length (p :: pixels)) =? 0) with false
    by (symmetry; apply Z.eqb_neq; cbn [length]; lia).
  reflexivity.
Qed.

Lemma channel_sum_bounds (channel : Pixel -> Z) (pixels : list Pixel) :
  Forall (fun p => 0 <= channel p <= 255) pixels ->
  0 <= fold_right Z.add 0 (map channel pixels) <= 255 * Z.of_nat (length pixels).
Proof.
  induction 1 as [ | p pixels Hp _ IH ]; cbn [map fold_right length]; lia.
Qed.

(** The rounded mean of bytes is a byte. *)
Lemma channelMean_byte (channel : Pixel -> Z) (pixels : list Pixel) :
  pixels <> [] -> Forall (fun p => 0 <= channel p <= 255) pixels ->
  0 <= channelMean channel pixels <= 255.
Proof.
  intros Hne Hbytes. pose proof (channel_sum_bounds channel pixels Hbytes) as Hsum.
  assert (Hn : 0 < Z.of_nat (length pixels)) by (destruct pixels; [ congruence | cbn; lia ]).
  unfold channelMean. rewrite Math_round_quotient by exact Hn.
  split.
  - apply Z.div_pos; lia.
  - apply Z.lt_succ_r. apply Z.div_lt_upper_bound; lia.
Qed.

Lemma neighbourPixels_bytes (ctx : Ctx) (rect : IntRect.t) :
  byteSurface ctx ->
  Forall (fun p => 0 <= red p <= 255 /\ 0 <= green p <= 255 /\ 0 <= blue p <= 255)
         (neighbourPixels ctx rect).
Proof.
  intros Hbytes. unfold neighbourPixels.
  repeat (apply Forall_app; split);
    match goal with |- Forall _ (if ?c then _ else _) => destruct c end;
    try constructor;
    apply List.Forall_forall; intros p Hp; apply in_map_iff in Hp as (k & <- & _);
    apply Hbytes.
Qed.

Lemma hexDigit_value (c : ascii) :
  isHexDigit c = true -> isWhiteSpace c = false /\ exists v, hexDigitValue c = Some v.
Proof.
  destruct c as [[] [] [] [] [] [] [] []]; cbn; intros H; try discriminate H;
    (split; [ reflexivity | eexists; reflexivity ]).
Qed.

Lemma trimEnd_hex (s : string) : allHexDigits s = true -> trimEnd s = s.
Proof.
  induction s as [ | c rest IH ]; cbn [allHexDigits trimEnd]; [ reflexivity | ].
  intros H. apply andb_true_iff in H as [Hc Hrest]. rewrite (IH Hrest).
  destruct (hexDigit_value c Hc) as [Hws _]. rewrite Hws. now destruct rest.
Qed.

(** A well-formed six-digit colour is kept as it is. *)
Lemma normalizeHexColor_hex6 (value fallback : string) :
  testHexPattern 6 value = true -> normalizeHexColor value fallback = value.
Proof.
  intros H. unfold normalizeHexColor.
  assert (Htrim : trim value = value).
  { unfold testHexPattern in H. destruct value as [ | c digits ]; [ discriminate | ].
    destruct (Ascii.eqb_spec c "#") as [-> | Hc];
      [ | destruct c as [[] [] [] [] [] [] [] []]; try discriminate H; congruence ].
    apply andb_true_iff in H as [_ Hd]. unfold trim.
    cbn [trimEnd]. rewrite (trimEnd_hex digits Hd).
    destruct digits; reflexivity. }
  rewrite Htrim, H. reflexivity.
Qed.

Lemma parseColor_hex6 (s : string) :
  testHexPattern 6 s = true -> exists colour, parseColor s = Some colour.
Proof.
  unfold testHexPattern. intros H.
  destruct s as [ | c digits ]; [ discriminate | ].
  destruct (Ascii.eqb_spec c "#") as [-> | Hc];
    [ | destruct c as [[] [] [] [] [] [] [] []]; try discriminate H; congruence ].
  apply andb_true_iff in H as [Hlen Hd]. apply Nat.eqb_eq in Hlen.
  destruct digits as [ | r1 [ | r0 [ | g1 [ | g0 [ | b1 [ | b0 [ | ? ? ] ] ] ] ] ] ];
    try discriminate Hlen.
  cbn [allHexDigits] in Hd.
  repeat (apply andb_true_iff in Hd as [? Hd]).
  repeat match goal with
         | Hc : isHexDigit ?c = true |- _ =>
             let v := fresh "v" in
             destruct (hexDigit_value c Hc) as [_ [v ?]]; clear Hc
         end.
  unfold parseColor, hexByteValue.
  repeat match goal with Hv : hexDigitValue _ = Some _ |- _ => rewrite Hv; clear Hv end.
  eexists. reflexivity.
Qed.

Lemma normalizeHexColor_is_hex6 (value fallback : string) :
  testHexPattern 6 fallback = true ->
  testHexPattern 6 (normalizeHexColor value fallback) = true.
Proof.
  intros Hf. unfold normalizeHexColor.
  destruct (testHexPattern 6 (trim value)) eqn:H6; [ exact H6 | ].
  destruct (testHexPattern 3 (trim value)) eqn:H3; [ | exact Hf ].
  unfold testHexPattern in H3.
  destruct (trim value) as [ | c digits ]; [ discriminate | ].
  destruct (Ascii.eqb_spec c "#") as [-> | Hc];
    [ | destruct c as [[] [] [] [] [] [] [] []]; try discriminate H3; congruence ].
  apply andb_true_iff in H3 as [Hlen Hd]. apply Nat.eqb_eq in Hlen.
  destruct digits as [ | d0 [ | d1 [ | d2 [ | ? ? ] ] ] ]; try discriminate Hlen.
  cbn [allHexDigits] in Hd.
  repeat (apply andb_true_iff in Hd as [? Hd]).
  cbn. repeat (apply andb_true_iff; split); assumption || reflexivity.
Qed.

Lemma fillRect_filled (ctx : Ctx) (rect : IntRect.t) (colour : Pixel) :
  parseColor (fillStyle (state ctx)) = Some colour ->
  inCanvas rect (canvas_width ctx) (canvas_height ctx) ->
  let ctx1 := fillRect ctx (IntRect.x rect) (IntRect.y rect) (IntRect.width rect)
                       (IntRect.height rect) in
  sameButSurface ctx ctx1 /\
  forall i j, surface ctx1 i j = filledSurface ctx rect colour i j.
Proof.
  intros Hcolour Hrect. unfold fillRect. rewrite Hcolour. cbn zeta.
  split; [ unfold sameButSurface; cbn; repeat split | ].
  intros i j. unfold filledSurface. cbn [surface withSurface].
  destruct Hrect as (Hx & Hy & Hw & Hh & Hr & Hb).
  replace (Z.min (IntRect.x rect) (IntRect.x rect + IntRect.width rect))
    with (IntRect.x rect) by lia.
  replace (Z.min (IntRect.y rect) (IntRect.y rect + IntRect.height rect))
    with (IntRect.y rect) by lia.
  replace (Z.abs (IntRect.width rect)) with (IntRect.width rect) by lia.
  replace (Z.abs (IntRect.height rect)) with (IntRect.height rect) by lia.
  destruct (insideRect _ _ _ _ i j) eqn:Hin.
  - rewrite (inSurface_inside ctx rect i j); [ reflexivity | | exact Hin ].
    apply inCanvas_withinCanvas. unfold inCanvas. lia.
  - now rewrite !andb_false_r.
Qed.

Lemma setFillStyle_colour (ctx : Ctx) (s : string) (colour : Pixel) :
  parseColor s = Some colour ->
  let ctx1 := setFillStyle ctx s in
  fillStyle (state ctx1) = s /\ clip (state ctx1) = clip (state ctx) /\
  canvas_width ctx1 = canvas_width ctx /\ canvas_height ctx1 = canvas_height ctx /\
  surface ctx1 = surface ctx.
Proof. intros H. unfold setFillStyle. rewrite H. cbn. repeat split. Qed.

Lemma cloneFromFirst_none (ctx : Ctx) (rect : IntRect.t) (dirs : list CloneDirection) :
  (forall d, In d dirs ->
             getSourceRect rect (canvas_width ctx) (canvas_height ctx) d = None) ->
  cloneFromFirst ctx rect dirs = Ok None.
Proof.
  induction dirs as [ | d dirs IH ]; intros Hnone; cbn [cloneFromFirst]; [ reflexivity | ].
  rewrite (Hnone d) by now left. apply IH. intros d' Hd'. apply Hnone. now right.
Qed.

(** Without a source the background is a flat fill in the answer of
    [getAverageNeighborColor], whatever that string is once it is a colour. *)
Lemma applyBackground_flat (ctx : Ctx) (overlay : TextOverlay) (rect : IntRect.t)
    (sampled : string) (colour : Pixel) :
  backgroundMode overlay = Some Clone ->
  cloneFromFirst ctx rect (getCloneOrder (cloneDirection overlay)) = Ok None ->
  getAverageNeighborColor ctx rect
    (normalizeHexColor (orString (backgroundColor overlay) "#ffffff") "#ffffff")
  = Ok sampled ->
  parseColor sampled = Some colour ->
  inCanvas rect (canvas_width ctx) (canvas_height ctx) ->
  exists ctx1,
    applyBackground ctx overlay rect = Ok ctx1 /\
    canvas_width ctx1 = canvas_width ctx /\ canvas_height ctx1 = canvas_height ctx /\
    forall i j, surface ctx1 i j = filledSurface ctx rect colour i j.
Proof.
  intros Hmode Hloop Havg Hcolour Hrect.
  unfold applyBackground. rewrite Hmode. cbn [default]. rewrite Hloop. cbn [bind].
  rewrite Havg. cbn [bind].
  destruct (setFillStyle_colour ctx sampled colour Hcolour) as (Hs & Hc & Hw & Hh & Hsurf).
  destruct (fillRect_filled (setFillStyle ctx sampled) rect colour) as [Hsame Hpx].
  - now rewrite Hs.
  - now rewrite Hw, Hh.
  - eexists. split; [ reflexivity | ].
    destruct Hsame as (Sw & Sh & _). repeat split; try congruence.
    intros i j. rewrite Hpx. unfold filledSurface. now rewrite Hc, Hsurf.
Qed.

Lemma neighbourPixels_none (ctx : Ctx) (rect : IntRect.t) :
  0 < IntRect.width rect -> 0 < IntRect.height rect ->
  inCanvas rect (canvas_width ctx) (canvas_height ctx) ->
  neighbourPixels ctx rect = [] <->
  rect = IntRect.mk 0 0 (canvas_width ctx) (canvas_height ctx).
Proof.
  intros Hw Hh (Hx & Hy & _ & _ & Hr & Hb). unfold neighbourPixels.
  assert (Hrow : forall f : nat -> Pixel,
            map f (seq 0 (Z.to_nat (IntRect.width rect))) <> []).
  { intros f. destruct (Z.to_nat (IntRect.width rect)) eqn:E; [ lia | discriminate ]. }
  assert (Hcol : forall f : nat -> Pixel,
            map f (seq 0 (Z.to_nat (IntRect.height rect))) <> []).
  { intros f. destruct (Z.to_nat (IntRect.height rect)) eqn:E; [ lia | discriminate ]. }
  split.
  - intros Hnil.
    apply app_eq_nil in Hnil as [H1 Hnil]. apply app_eq_nil in Hnil as [H2 Hnil].
    apply app_eq_nil in Hnil as [H3 H4].
    destruct (Z.ltb_spec 0 (IntRect.x rect)); [ now apply Hcol in H1 | ].
    destruct (Z.ltb_spec (IntRect.x rect + IntRect.width rect) (canvas_width ctx));
      [ now apply Hcol in H2 | ].
    destruct (Z.ltb_spec 0 (IntRect.y rect)); [ now apply Hrow in H3 | ].
    destruct (Z.ltb_spec (IntRect.y rect + IntRect.height rect) (canvas_height ctx));
      [ now apply Hrow in H4 | ].
    destruct rect as [x y w h]; cbn in *. f_equal; lia.
  - intros ->. cbn [IntRect.x IntRect.y IntRect.width IntRect.height].
    rewrite !Z.ltb_irrefl. reflexivity.
Qed.

(** C7.  In clone mode, when none of the directions tried yields a source,
    [applyBackground] returns without an exception and the rectangle is
    filled, where the clip region admits it, with one colour: the rounded
    per-channel mean of the pixels of the one-pixel strips just outside the
    edges that have a neighbour in the canvas, and, when there is no such
    pixel, which is when the rectangle is the whole canvas, the colour of the
    overlay's (normalized) [backgroundColor]. *)
Theorem neighbour_average_fallback (ctx : Ctx) (overlay : TextOverlay) (rect : IntRect.t) :
  backgroundMode overlay = Some Clone ->
  (forall d, In d (getCloneOrder (cloneDirection overlay)) ->
             getSourceRect rect (canvas_width ctx) (canvas_height ctx) d = None) ->
  0 < IntRect.width rect -> 0 < IntRect.height rect ->
  inCanvas rect (canvas_width ctx) (canvas_height ctx) ->
  byteSurface ctx ->
  exists ctx1 colour,
    applyBackground ctx overlay rect = Ok ctx1 /\
    (forall i j, surface ctx1 i j = filledSurface ctx rect colour i j) /\
    (neighbourPixels ctx rect <> [] -> colour = meanColour (neighbourPixels ctx rect)) /\
    (neighbourPixels ctx rect = [] ->
     parseColor (normalizeHexColor (orString (backgroundColor overlay) "#ffffff") "#ffffff")
     = Some colour /\
     (testHexPattern 6 (backgroundColor overlay) = true ->
      parseColor (backgroundColor overlay) = Some colour)) /\
    (neighbourPixels ctx rect = [] <->
     rect = IntRect.mk 0 0 (canvas_width ctx) (canvas_height ctx)).
Proof.
  intros Hmode Hnone Hw Hh Hrect Hbytes.
  pose proof (cloneFromFirst_none ctx rect _ Hnone) as Hloop.
  pose proof (getAverageNeighborColor_mean ctx rect
                (normalizeHexColor (orString (backgroundColor overlay) "#ffffff") "#ffffff")
                Hw Hh Hrect) as Havg.
  pose proof (neighbourPixels_bytes ctx rect Hbytes) as Hpx.
  pose proof (neighbourPixels_none ctx rect Hw Hh Hrect) as Hwhole.
  destruct (neighbourPixels ctx rect) as [ | p pixels ] eqn:Hstrips.
  - destruct (parseColor_hex6 _ (normalizeHexColor_is_hex6
                                   (orString (backgroundColor overlay) "#ffffff")
                                   "#ffffff" eq_refl)) as [colour Hcolour].
    destruct (applyBackground_flat ctx overlay rect _ colour Hmode Hloop Havg Hcolour Hrect)
      as (ctx1 & Hrun & _ & _ & Hfill).
    exists ctx1, colour.
    split; [ exact Hrun | ]. split; [ exact Hfill | ].
    split; [ intros Hne; congruence | ]. split; [ | exact Hwhole ].
    intros _. split; [ exact Hcolour | ].
    intros Hhex.
    assert (Hbg : orString (backgroundColor overlay) "#ffffff" = backgroundColor overlay)
      by (destruct (backgroundColor overlay); [ discriminate Hhex | reflexivity ]).
    rewrite Hbg, normalizeHexColor_hex6 in Hcolour by exact Hhex. exact Hcolour.
  - set (strips := p :: pixels) in *.
    assert (Hne : strips <> []) by discriminate.
    assert (Hcolour : parseColor
              (let n := inject_Z (Z.of_nat (length strips)) in
               String.concat ""
                 ["#"%string;
                  toHex (inject_Z (fold_right Z.add 0%Z (map red strips)) / n)%Q;
                  toHex (inject_Z (fold_right Z.add 0%Z (map green strips)) / n)%Q;
                  toHex (inject_Z (fold_right Z.add 0%Z (map blue strips)) / n)%Q])
              = Some (meanColour strips)).
    { cbn zeta. apply parseColor_hex; apply channelMean_byte; try exact Hne;
        (eapply List.Forall_impl; [ | exact Hpx ]); cbn beta; tauto. }
    destruct (applyBackground_flat ctx overlay rect _ _ Hmode Hloop Havg Hcolour Hrect)
      as (ctx1 & Hrun & _ & _ & Hfill).
    exists ctx1, (meanColour strips).
    split; [ exact Hrun | ]. split; [ exact Hfill | ].
    split; [ reflexivity | ]. split; [ intros Hnil; congruence | exact Hwhole ].
Qed.

Lemma gradientCanvas_bytes (W H : Z) : byteSurface (gradientCanvas W H).
Proof.
  intros i j. cbn.
  pose proof (Z.mod_pos_bound i 256 ltac:(lia)).
  pose proof (Z.mod_pos_bound j 256 ltac:(lia)). lia.
Qed.

Lemma neighbour_average_fallback_witness :
  exists ctx1,
    applyBackground (gradientCanvas 12 6) (sampleOverlay (Rect.mk 1 0 11 6) "Hi" Clone)
                    (IntRect.mk 1 0 11 6) = Ok ctx1 /\
    forall i j,
      surface ctx1 i j
      = filledSurface (gradientCanvas 12 6) (IntRect.mk 1 0 11 6) (mkPixel 0 3 7 255) i j.
Proof.
  destruct (neighbour_average_fallback
              (gradientCanvas 12 6) (sampleOverlay (Rect.mk 1 0 11 6) "Hi" Clone)
              (IntRect.mk 1 0 11 6))
    as (ctx1 & colour & Hrun & Hfill & Hmean & _).
  - reflexivity.
  - intros d [<- | [<- | [<- | [<- | []]]]]; reflexivity.
  - reflexivity.
  - reflexivity.
  - unfold inCanvas; cbn; lia.
  - apply gradientCanvas_bytes.
  - exists ctx1. split; [ exact Hrun | ].
    intros i j. rewrite Hfill. f_equal. rewrite Hmean by discriminate.
    vm_compute. reflexivity.
Defined.

(** *** Nothing outside the rectangle *)

Lemma setFillStyle_surface (ctx : Ctx) (s : string) :
  canvas_width (setFillStyle ctx s) = canvas_width ctx /\
  canvas_height (setFillStyle ctx s) = canvas_height ctx /\
  surface (setFillStyle ctx s) = surface ctx.
Proof. unfold setFillStyle. destruct (parseColor s); cbn; repeat split. Qed.

Lemma fillRect_frame (ctx : Ctx) (x y w h : Z) :
  0 <= w -> 0 <= h ->
  canvas_width (fillRect ctx x y w h) = canvas_width ctx /\
  canvas_height (fillRect ctx x y w h) = canvas_height ctx /\
  forall i j, insideRect x y w h i j = false ->
              surface (fillRect ctx x y w h) i j = surface ctx i j.
Proof.
  intros Hw Hh. unfold fillRect.
  destruct (parseColor (fillStyle (state ctx))); cbn; repeat split.
  intros i j Hout.
  replace (Z.min x (x + w)) with x by lia. replace (Z.min y (y + h)) with y by lia.
  replace (Z.abs w) with w by lia. replace (Z.abs h) with h by lia.
  rewrite Hout. now rewrite andb_false_r.
Qed.

(** The background is painted without an exception and inside the rectangle. *)
Lemma applyBackground_frame (ctx : Ctx) (overlay : TextOverlay) (rect : IntRect.t) :
  0 < IntRect.width rect -> 0 < IntRect.height rect ->
  inCanvas rect (canvas_width ctx) (canvas_height ctx) ->
  exists ctx1,
    applyBackground ctx overlay rect = Ok ctx1 /\
    canvas_width ctx1 = canvas_width ctx /\ canvas_height ctx1 = canvas_height ctx /\
    forall i j,
      insideRect (IntRect.x rect) (IntRect.y rect) (IntRect.width rect)
                 (IntRect.height rect) i j = false ->
      surface ctx1 i j = surface ctx i j.
Proof.
  intros Hw Hh Hrect. unfold applyBackground.
  set (fallbackColor := normalizeHexColor _ _).
  assert (Hflat : forall s,
            let ctx1 := fillRect (setFillStyle ctx s) (IntRect.x rect) (IntRect.y rect)
                                 (IntRect.width rect) (IntRect.height rect) in
            canvas_width ctx1 = canvas_width ctx /\ canvas_height ctx1 = canvas_height ctx /\
            forall i j,
              insideRect (IntRect.x rect) (IntRect.y rect) (IntRect.width rect)
                         (IntRect.height rect) i j = false ->
              surface ctx1 i j = surface ctx i j).
  { intros s ctx1. subst ctx1.
    destruct (setFillStyle_surface ctx s) as (Sw & Sh & Ss).
    destruct (fillRect_frame (setFillStyle ctx s) (IntRect.x rect) (IntRect.y rect)
                (IntRect.width rect) (IntRect.height rect) ltac:(lia) ltac:(lia))
      as (Fw & Fh & Fs).
    repeat split; try congruence. intros i j Hout. rewrite Fs by exact Hout. now rewrite Ss. }
  destruct (default Solid (backgroundMode overlay)).
  - eexists. split; [ reflexivity | ]. apply Hflat.
  - pose proof (cloneFromFirst_first ctx rect (getCloneOrder (cloneDirection overlay))
                  Hw Hh Hrect) as Hloop.
    destruct (List.find _ _) as [source | ].
    + destruct Hloop as (ctx1 & -> & (Sw & Sh & _) & Hpx). cbn [bind].
      exists ctx1. repeat split; try assumption.
      intros i j Hout. rewrite Hpx. unfold clonedSurface. now rewrite Hout.
    + rewrite Hloop. cbn [bind].
      rewrite (getAverageNeighborColor_mean ctx rect fallbackColor Hw Hh Hrect).
      cbn [bind]. eexists. split; [ reflexivity | ]. apply Hflat.
Qed.

Lemma toIntRect_positive_in_canvas (r : Rect.t) (W H : Z) :
  0 < IntRect.width (toIntRect r W H) -> 0 < IntRect.height (toIntRect r W H) ->
  inCanvas (toIntRect r W H) W H.
Proof.
  unfold inCanvas, toIntRect, clampZ.
  cbn [IntRect.x IntRect.y IntRect.width IntRect.height]. lia.
Qed.

(** C8.  Rendering an overlay returns (790 evaluations of the autofit
    condition always suffice) and leaves every surface pixel outside the
    resolved rectangle as it was: the background is written inside the
    rectangle, and every glyph is painted under a clip region inside it. *)
Theorem render_stays_inside_rect host (fuel : nat) (ctx : Ctx) (overlay : TextOverlay) :
  (790 <= fuel)%nat ->
  exists ctx',
    renderTextOverlay host fuel ctx overlay = Ok ctx' /\
    forall i j,
      insideRect
        (IntRect.x (toIntRect (rect overlay) (canvas_width ctx) (canvas_height ctx)))
        (IntRect.y (toIntRect (rect overlay) (canvas_width ctx) (canvas_height ctx)))
        (IntRect.width (toIntRect (rect overlay) (canvas_width ctx) (canvas_height ctx)))
        (IntRect.height (toIntRect (rect overlay) (canvas_width ctx) (canvas_height ctx)))
        i j = false ->
      surface ctx' i j = surface ctx i j.
Proof.
  intros Hfuel. unfold renderTextOverlay.
  set (r := toIntRect (rect overlay) (canvas_width ctx) (canvas_height ctx)).
  destruct ((IntRect.width r <=? 0) || (IntRect.height r <=? 0)) eqn:Hdeg.
  - exists ctx. split; reflexivity.
  - apply orb_false_iff in Hdeg as [Hw Hh]. apply Z.leb_gt in Hw, Hh.
    pose proof (toIntRect_positive_in_canvas _ _ _ Hw Hh) as Hrect. fold r in Hrect.
    destruct (applyBackground_frame ctx overlay r Hw Hh Hrect)
      as (ctx1 & -> & Bw & Bh & Bframe).
    cbn [bind]. destruct fuel as [ | n ]; [ lia | ].
    destruct (autofit_returns host overlay r
                (normalizeWeight (fontWeight overlay))
                (orString (fontFamily overlay) "sans-serif")
                (normalizeLetterSpacing (letterSpacing overlay))
                (normalizeLineHeight (lineHeight overlay)) n
                (mkFit ctx1 (baseFontSizeOf overlay) [] 0%Q)) as [fit Hfit].
    { cbn [fit_fontSize]. pose proof (baseFontSizeOf_bounds overlay) as [_ Hmax].
      assert (Hn : (789 <= inject_Z (Z.of_nat n))%Q).
      { change 789%Q with (inject_Z 789). rewrite <- Zle_Qle. lia. }
      lra. }
    destruct (drawText_after_autofit host (S n) ctx1 overlay r fit Hfit)
      as (ctx' & -> & _ & _ & Dframe & _).
    exists ctx'. split; [ reflexivity | ].
    intros i j Hout. rewrite Dframe by exact Hout. now apply Bframe.
Qed.

Lemma render_stays_inside_rect_witness :
  exists ctx',
    renderTextOverlay monoHost 800 (gradientCanvas 100 100)
                      (sampleOverlay (Rect.mk 20 30 10 10) "Hello world" Clone) = Ok ctx' /\
    forall i j,
      insideRect 20 30 10 10 i j = false ->
      surface ctx' i j = surface (gradientCanvas 100 100) i j.
Proof.
  apply (render_stays_inside_rect monoHost 800 (gradientCanvas 100 100)
           (sampleOverlay (Rect.mk 20 30 10 10) "Hello world" Clone)).
  lia.
Defined.

(** The clone of the sample canvas: in the interior the source pixel twelve
    rows down replaces the target, on the edge it is blended at 96%. *)
Example clone_from_below_pixels :
  pixelAfter (applyBackground (gradientCanvas 30 40)
                (sampleOverlay (Rect.mk 0 0 30 10) "Hi" Clone) (IntRect.mk 0 0 30 10)) 5 5
  = Some (mkPixel 5 17 7 255) /\
  pixelAfter (applyBackground (gradientCanvas 30 40)
                (sampleOverlay (Rect.mk 0 0 30 10) "Hi" Clone) (IntRect.mk 0 0 30 10)) 0 0
  = Some (mkPixel 0 12 7 255) /\
  pixelAfter (applyBackground (gradientCanvas 30 40)
                (sampleOverlay (Rect.mk 0 0 30 10) "Hi" Clone) (IntRect.mk 0 0 30 10)) 5 10
  = Some (mkPixel 5 10 7 255).
Proof. vm_compute. repeat split. Qed.

(** * Further properties *)

(** ** Line breaking keeps the text *)

Lemma append_assoc (a b c : string) : ((a ++ b) ++ c = a ++ (b ++ c))%string.
Proof. induction a as [ | x a IH ]; cbn; [ reflexivity | now rewrite IH ]. Qed.

Lemma append_empty_r (a : string) : (a ++ "" = a)%string.
Proof. induction a as [ | x a IH ]; cbn; [ reflexivity | now rewrite IH ]. Qed.

Lemma joinLines_app (a b : list string) :
  joinLines (a ++ b) = (joinLines a ++ joinLines b)%string.
Proof.
  induction a as [ | x a IH ]; cbn; [ reflexivity | ].
  fold (joinLines (a ++ b)). fold (joinLines a). now rewrite IH, append_assoc.
Qed.

Lemma string_of_list_ascii_app (chars : list ascii) (s : string) :
  (s ++ string_of_list_ascii chars)%string
  = fold_left (fun acc c => (acc ++ String c EmptyString)%string) chars s.
Proof.
  revert s. induction chars as [ | c chars IH ]; intros s; cbn.
  - apply append_empty_r.
  - rewrite <- IH, append_assoc. reflexivity.
Qed.

(** The loop of [wrapLineByChars] keeps the characters read so far, in
    order, in [wrapped] followed by [current]. *)
Lemma wrapChar_keeps_text host ctx maxWidth letterSpacing (chars : list ascii) :
  forall acc,
    let acc' := fold_left (wrapChar host ctx maxWidth letterSpacing) chars acc in
    (joinLines (fst acc') ++ snd acc')%string
    = (joinLines (fst acc) ++ snd acc ++ string_of_list_ascii chars)%string.
Proof.
  induction chars as [ | ch chars IH ]; intros [wrapped current]; cbn [fold_left fst snd].
  - cbn. now rewrite append_empty_r.
  - cbv zeta in IH. rewrite IH. unfold wrapChar.
    destruct (negb (isEmpty current) && negb (Qle_bool _ maxWidth)); cbn [fst snd].
    + rewrite joinLines_app. cbn. rewrite append_empty_r, append_assoc. reflexivity.
    + rewrite !append_assoc. reflexivity.
Qed.

Lemma wrapLineByChars_join host ctx (line : string) (maxWidth letterSpacing : Q) :
  joinLines (wrapLineByChars host ctx line maxWidth letterSpacing) = line.
Proof.
  unfold wrapLineByChars.
  destruct (isEmpty line) eqn:Hline; [ destruct line; [ reflexivity | discriminate ] | ].
  destruct (Qle_bool maxWidth 1); [ cbn; apply append_empty_r | ].
  pose proof (wrapChar_keeps_text host ctx maxWidth letterSpacing
                (list_ascii_of_string line) ([], EmptyString)) as Hloop.
  cbv zeta in Hloop. cbn [fst snd joinLines fold_right String.append] in Hloop.
  rewrite string_of_list_ascii_of_string in Hloop.
  destruct (fold_left _ _ _) as [wrapped current]. cbn [fst snd] in Hloop.
  assert (Hjoin : joinLines (if isEmpty current then wrapped else wrapped ++ [current])
                  = line).
  { destruct current; cbn [isEmpty].
    - now rewrite append_empty_r in Hloop.
    - rewrite joinLines_app. cbn. now rewrite append_empty_r. }
  destruct (if isEmpty current then wrapped else wrapped ++ [current]) as [ | p ps ];
    [ cbn; apply append_empty_r | exact Hjoin ].
Qed.

Lemma joinLines_splitLines (text : string) :
  joinLines (splitLines text) = withoutNewlines text.
Proof.
  induction text as [ | c rest IH ]; [ reflexivity | ].
  cbn [splitLines withoutNewlines]. destruct (Ascii.eqb c "010").
  - cbn. exact IH.
  - destruct (splitLines rest) as [ | first others ] eqn:E.
    + now apply splitLines_nonempty in E.
    + cbn in IH |- *. now rewrite IH.
Qed.

Lemma paragraphs_join (wrap : string -> list string) (N : nat) (l : list string) :
  (forall line, joinLines (wrap line) = line) ->
  forall k, joinLines (flat_map (paragraphOutput wrap N) (combine (seq k (length l)) l))
            = joinLines l.
Proof.
  intros Hwrap. induction l as [ | p ps IH ]; intros k; [ reflexivity | ].
  cbn [length seq combine flat_map]. rewrite joinLines_app, IH.
  cbn [joinLines fold_right]. f_equal.
  unfold paragraphOutput. cbn [fst snd]. rewrite joinLines_app, Hwrap.
  destruct (_ && _); cbn; now rewrite ?append_empty_r.
Qed.

(** X1.  The pieces a line is wrapped into, put back together, are the line:
    wrapping loses, adds and reorders no character. *)
Theorem wrapLineByChars_keeps_text host ctx (line : string) (maxWidth letterSpacing : Q) :
  joinLines (wrapLineByChars host ctx line maxWidth letterSpacing) = line.
Proof. apply wrapLineByChars_join. Qed.

(** X2.  The lines [wrapText] returns, put back together, are the text
    without its newline characters: no character of the text is lost to
    wrapping, whatever the target width and the host's measurements. *)
Theorem wrapText_keeps_text host ctx (text : string) (maxWidth letterSpacing : Q) :
  joinLines (wrapText host ctx text maxWidth letterSpacing) = withoutNewlines text.
Proof.
  rewrite wrapText_paragraphs, <- joinLines_splitLines.
  apply paragraphs_join. intros line. apply wrapLineByChars_join.
Qed.

(** ** Wrapped pieces fit *)

Lemma wrapChar_pieces_fit host ctx maxWidth letterSpacing (chars : list ascii) :
  let good := fun p => String.length p = 1%nat \/
                       (measureLineWidth host ctx p letterSpacing <= maxWidth)%Q in
  forall acc,
    Forall good (fst acc) -> (snd acc = EmptyString \/ good (snd acc)) ->
    let acc' := fold_left (wrapChar host ctx maxWidth letterSpacing) chars acc in
    Forall good (fst acc') /\ (snd acc' = EmptyString \/ good (snd acc')) /\
    (chars <> [] -> snd acc' <> EmptyString).
Proof.
  intros good. induction chars as [ | ch chars IH ]; intros [wrapped current] Hw Hc;
    cbn [fold_left fst snd] in *.
  - repeat split; try assumption. congruence.
  - assert (Hstep : let acc1 := wrapChar host ctx maxWidth letterSpacing (wrapped, current) ch in
                    Forall good (fst acc1) /\ good (snd acc1) /\ snd acc1 <> EmptyString).
    { unfold wrapChar. destruct current as [ | c0 cur ]; cbn [isEmpty negb andb fst snd].
      - repeat split; [ exact Hw | left; reflexivity | discriminate ].
      - destruct (Qle_bool _ maxWidth) eqn:Hfit; cbn [negb fst snd].
        + repeat split; [ exact Hw | right; now apply Qle_bool_iff | discriminate ].
        + repeat split; [ | left; reflexivity | discriminate ].
          apply Forall_app; split; [ exact Hw | ].
          constructor; [ | constructor ]. destruct Hc as [Hc | Hc]; [ discriminate | exact Hc ]. }
    cbv zeta in Hstep. destruct (wrapChar _ _ _ _ _ _) as [wrapped1 current1].
    cbn [fst snd] in Hstep. destruct Hstep as (H1 & H2 & H3).
    specialize (IH (wrapped1, current1) H1 (or_intror H2)). cbv zeta in IH.
    destruct IH as (I1 & I2 & I3). repeat split; try assumption.
    intros _. destruct chars as [ | c1 chars ]; [ exact H3 | apply I3; discriminate ].
Qed.

(** X3.  For a target width above 1, every piece of a wrapped line either is
    a single character or measures, letter spacing included, no more than
    the target width: only a character that is too wide on its own
    overflows. *)
Theorem wrapLineByChars_pieces_fit host ctx (line : string) (maxWidth letterSpacing : Q) :
  line <> EmptyString -> (1 < maxWidth)%Q ->
  Forall (fun p => String.length p = 1%nat \/
                   (measureLineWidth host ctx p letterSpacing <= maxWidth)%Q)
         (wrapLineByChars host ctx line maxWidth letterSpacing).
Proof.
  intros Hne Hwide. unfold wrapLineByChars. rewrite (isEmpty_false line Hne).
  assert (Hnarrow : Qle_bool maxWidth 1 = false).
  { destruct (Qle_bool maxWidth 1) eqn:E; [ | reflexivity ].
    apply Qle_bool_iff in E. lra. }
  rewrite Hnarrow.
  pose proof (wrapChar_pieces_fit host ctx maxWidth letterSpacing
                (list_ascii_of_string line) ([], EmptyString)
                ltac:(constructor) (or_introl eq_refl)) as Hloop.
  cbv zeta in Hloop. destruct (fold_left _ _ _) as [wrapped current].
  cbn [fst snd] in Hloop. destruct Hloop as (Hw & Hc & Hcur).
  assert (Hchars : list_ascii_of_string line <> [])
    by (destruct line; [ congruence | discriminate ]).
  specialize (Hcur Hchars). rewrite (isEmpty_false current Hcur).
  destruct Hc as [Hc | Hc]; [ contradiction | ].
  destruct wrapped as [ | p ps ]; cbn [app length Nat.eqb].
  - constructor; [ exact Hc | constructor ].
  - apply (Forall_app _ (p :: ps) [current]). split; [ exact Hw | ].
    constructor; [ exact Hc | constructor ].
Qed.

Lemma wrapLineByChars_pieces_fit_witness :
  Forall (fun p => String.length p = 1%nat \/
                   (measureLineWidth monoHost (gradientCanvas 100 100) p 0 <= 35)%Q)
         (wrapLineByChars monoHost (gradientCanvas 100 100) "abcdefgh" 35 0).
Proof.
  apply (wrapLineByChars_pieces_fit monoHost (gradientCanvas 100 100) "abcdefgh" 35 0);
    [ discriminate | reflexivity ].
Defined.

(** ** Normalized styles *)

Lemma clamp_inside (v lo hi : Q) : (lo <= v <= hi)%Q -> (clamp v lo hi == v)%Q.
Proof.
  intros [Hlo Hhi]. unfold clamp.
  rewrite (Q.min_r hi v Hhi). apply Q.max_r. exact Hlo.
Qed.

Lemma normalizeWeight_grid (value : WeightInput) :
  exists k, 1 <= k <= 9 /\ normalizeWeight value = 100 * k.
Proof.
  unfold normalizeWeight. destruct (parseInt10 (weightText value)) as [parsed | ].
  - change 100%Q with (inject_Z 100). rewrite Math_round_quotient by lia.
    set (q := (2 * parsed + 100) / (2 * 100)). unfold clampZ.
    exists (Z.max 1 (Z.min 9 q)). lia.
  - exists 5. lia.
Qed.

(** X4.  Whatever an overlay holds in its style fields (absent values,
    malformed text, numbers out of range), the style [drawText] works with
    is in range: the weight is one of 100, 200, ..., 900, the starting font
    size is within [6, 400], the letter spacing within [-2, 12] and the line
    height within [0.8, 2.4]; and a letter spacing or line height already in
    range is used as it is. *)
Theorem drawText_style_in_range (overlay : TextOverlay) :
  (exists k, 1 <= k <= 9 /\ normalizeWeight (fontWeight overlay) = 100 * k) /\
  (6 <= baseFontSizeOf overlay <= 400)%Q /\
  (-2 <= normalizeLetterSpacing (letterSpacing overlay) <= 12)%Q /\
  (8 # 10 <= normalizeLineHeight (lineHeight overlay) <= 24 # 10)%Q /\
  (forall v, (-2 <= v <= 12)%Q -> (normalizeLetterSpacing (Some v) == v)%Q) /\
  (forall v, (8 # 10 <= v <= 24 # 10)%Q -> (normalizeLineHeight (Some v) == v)%Q).
Proof.
  split; [ apply normalizeWeight_grid | ].
  split; [ apply clamp_bounds; lra | ].
  split; [ unfold normalizeLetterSpacing; destruct (letterSpacing overlay);
           [ apply clamp_bounds | ]; lra | ].
  split; [ unfold normalizeLineHeight; destruct (lineHeight overlay);
           [ apply clamp_bounds | ]; lra | ].
  split; intros v Hv; now apply clamp_inside.
Qed.

(** ** Colours *)

Lemma hexDigit_pair (c : ascii) (v : Z) :
  hexDigitValue c = Some v -> hexByteValue c c = Some (17 * v).
Proof. intros H. unfold hexByteValue. rewrite H. f_equal. lia. Qed.

Lemma trim_hash_hex (digits : string) :
  allHexDigits digits = true -> trim (String "#" digits) = String "#" digits.
Proof.
  intros Hd. unfold trim. cbn [trimEnd]. rewrite (trimEnd_hex digits Hd).
  destruct digits; reflexivity.
Qed.

(** X5.  With a six-digit fallback the colour normalizer always answers a
    well-formed six-digit colour, which the canvas accepts, and normalizing
    its answer again changes nothing; and the three-digit shorthand [#abc]
    becomes [#aabbcc], the colour whose channels are 17 times the digits. *)
Theorem normalizeHexColor_well_formed (value fallback : string) :
  testHexPattern 6 fallback = true ->
  testHexPattern 6 (normalizeHexColor value fallback) = true /\
  (exists colour, parseColor (normalizeHexColor value fallback) = Some colour) /\
  normalizeHexColor (normalizeHexColor value fallback) fallback
  = normalizeHexColor value fallback /\
  (forall a b c va vb vc,
     hexDigitValue a = Some va -> hexDigitValue b = Some vb -> hexDigitValue c = Some vc ->
     value = String "#" (String a (String b (String c EmptyString))) ->
     normalizeHexColor value fallback
     = String "#" (String a (String a (String b (String b (String c (String c EmptyString)))))) /\
     parseColor (normalizeHexColor value fallback)
     = Some (mkPixel (17 * va) (17 * vb) (17 * vc) 255)).
Proof.
  intros Hf. pose proof (normalizeHexColor_is_hex6 value fallback Hf) as Hhex.
  split; [ exact Hhex | ].
  split; [ now apply parseColor_hex6 | ].
  split; [ now apply normalizeHexColor_hex6 | ].
  intros a b c va vb vc Ha Hb Hc ->.
  assert (Hdigit : forall ch v, hexDigitValue ch = Some v ->
                                isHexDigit ch = true /\ isWhiteSpace ch = false).
  { intros ch v. destruct ch as [[] [] [] [] [] [] [] []]; cbn; intros H;
      try discriminate H; split; reflexivity. }
  destruct (Hdigit a va Ha) as [Ha1 Ha2]. destruct (Hdigit b vb Hb) as [Hb1 Hb2].
  destruct (Hdigit c vc Hc) as [Hc1 Hc2].
  assert (Hnorm : normalizeHexColor (String "#" (String a (String b (String c EmptyString))))
                                    fallback
                  = String "#" (String a (String a (String b (String b (String c
                      (String c EmptyString))))))).
  { unfold normalizeHexColor.
    rewrite (trim_hash_hex (String a (String b (String c EmptyString))))
      by (cbn [allHexDigits]; now rewrite Ha1, Hb1, Hc1).
    unfold testHexPattern. cbn [String.length Nat.eqb andb allHexDigits].
    rewrite Ha1, Hb1, Hc1. reflexivity. }
  split; [ exact Hnorm | ]. rewrite Hnorm. cbn [parseColor].
  rewrite (hexDigit_pair a va Ha), (hexDigit_pair b vb Hb), (hexDigit_pair c vc Hc).
  reflexivity.
Qed.

Lemma normalizeHexColor_well_formed_witness :
  testHexPattern 6 (normalizeHexColor "  #1aF " "#000000") = true /\
  (exists colour, parseColor (normalizeHexColor "  #1aF " "#000000") = Some colour) /\
  normalizeHexColor (normalizeHexColor "  #1aF " "#000000") "#000000"
  = normalizeHexColor "  #1aF " "#000000".
Proof.
  destruct (normalizeHexColor_well_formed "  #1aF " "#000000" eq_refl) as (H1 & H2 & H3 & _).
  repeat split; assumption.
Defined.

(** ** Backgrounds *)

(** X6.  In solid mode, which is also the mode of an overlay without one,
    the rectangle is filled, without an exception, with the normalized
    background colour, and with white when the overlay's colour is empty or
    is not a three- or six-digit hex colour. *)
Theorem solid_background_fill (ctx : Ctx) (overlay : TextOverlay) (rect : IntRect.t) :
  default Solid (backgroundMode overlay) = Solid ->
  inCanvas rect (canvas_width ctx) (canvas_height ctx) ->
  exists ctx1 colour,
    applyBackground ctx overlay rect = Ok ctx1 /\
    parseColor (normalizeHexColor (orString (backgroundColor overlay) "#ffffff") "#ffffff")
    = Some colour /\
    (forall i j, surface ctx1 i j = filledSurface ctx rect colour i j) /\
    (backgroundColor overlay = EmptyString \/
     (testHexPattern 6 (trim (backgroundColor overlay)) = false /\
      testHexPattern 3 (trim (backgroundColor overlay)) = false) ->
     colour = mkPixel 255 255 255 255).
Proof.
  intros Hmode Hrect. unfold applyBackground. rewrite Hmode.
  set (fill := normalizeHexColor (orString (backgroundColor overlay) "#ffffff") "#ffffff").
  destruct (parseColor_hex6 fill (normalizeHexColor_is_hex6 _ "#ffffff" eq_refl))
    as [colour Hcolour].
  destruct (setFillStyle_colour ctx fill colour Hcolour) as (Hs & Hc & Hw & Hh & Hsurf).
  destruct (fillRect_filled (setFillStyle ctx fill) rect colour) as [_ Hpx].
  - now rewrite Hs.
  - now rewrite Hw, Hh.
  - eexists. exists colour. split; [ reflexivity | ]. split; [ exact Hcolour | ].
    split.
    + intros i j. rewrite Hpx. unfold filledSurface. now rewrite Hc, Hsurf.
    + intros Hbad. assert (Hwhite : fill = "#ffffff"%string).
      { subst fill. destruct Hbad as [-> | [H6 H3]]; [ reflexivity | ].
        destruct (backgroundColor overlay) as [ | c s ] eqn:E; [ reflexivity | ].
        cbn [orString]. unfold normalizeHexColor. now rewrite H6, H3. }
      rewrite Hwhite in Hcolour. vm_compute in Hcolour. congruence.
Qed.

Lemma solid_background_fill_witness :
  exists ctx1 colour,
    applyBackground (gradientCanvas 50 40) (sampleOverlay (Rect.mk 5 5 10 10) "Hi" Solid)
                    (IntRect.mk 5 5 10 10) = Ok ctx1 /\
    parseColor (normalizeHexColor
                  (orString (backgroundColor (sampleOverlay (Rect.mk 5 5 10 10) "Hi" Solid))
                            "#ffffff") "#ffffff") = Some colour /\
    (forall i j,
       surface ctx1 i j
       = filledSurface (gradientCanvas 50 40) (IntRect.mk 5 5 10 10) colour i j).
Proof.
  destruct (solid_background_fill (gradientCanvas 50 40)
              (sampleOverlay (Rect.mk 5 5 10 10) "Hi" Solid) (IntRect.mk 5 5 10 10)
              eq_refl ltac:(unfold inCanvas; cbn; lia))
    as (ctx1 & colour & H1 & H2 & H3 & _).
  exists ctx1, colour. repeat split; assumption.
Defined.

(** Without a source the rectangle is filled flat, with the mean colour of
    its neighbours when it has any. *)
Lemma applyBackground_no_source (ctx : Ctx) (overlay : TextOverlay) (rect : IntRect.t) :
  backgroundMode overlay = Some Clone ->
  cloneFromFirst ctx rect (getCloneOrder (cloneDirection overlay)) = Ok None ->
  0 < IntRect.width rect -> 0 < IntRect.height rect ->
  inCanvas rect (canvas_width ctx) (canvas_height ctx) ->
  byteSurface ctx ->
  exists ctx1 colour,
    applyBackground ctx overlay rect = Ok ctx1 /\
    (forall i j, surface ctx1 i j = filledSurface ctx rect colour i j) /\
    (neighbourPixels ctx rect <> [] -> colour = meanColour (neighbourPixels ctx rect)).
Proof.
  intros Hmode Hloop Hw Hh Hrect Hbytes.
  pose proof (getAverageNeighborColor_mean ctx rect
                (normalizeHexColor (orString (backgroundColor overlay) "#ffffff") "#ffffff")
                Hw Hh Hrect) as Havg.
  pose proof (neighbourPixels_bytes ctx rect Hbytes) as Hpx.
  destruct (neighbourPixels ctx rect) as [ | p pixels ] eqn:Hstrips.
  - destruct (parseColor_hex6 _ (normalizeHexColor_is_hex6
                                   (orString (backgroundColor overlay) "#ffffff")
                                   "#ffffff" eq_refl)) as [colour Hcolour].
    destruct (applyBackground_flat ctx overlay rect _ colour Hmode Hloop Havg Hcolour Hrect)
      as (ctx1 & Hrun & _ & _ & Hfill).
    exists ctx1, colour. split; [ exact Hrun | ]. split; [ exact Hfill | congruence ].
  - set (strips := p :: pixels) in *.
    assert (Hne : strips <> []) by discriminate.
    assert (Hcolour : parseColor
              (let n := inject_Z (Z.of_nat (length strips)) in
               String.concat ""
                 ["#"%string;
                  toHex (inject_Z (fold_right Z.add 0%Z (map red strips)) / n)%Q;
                  toHex (inject_Z (fold_right Z.add 0%Z (map green strips)) / n)%Q;
                  toHex (inject_Z (fold_right Z.add 0%Z (map blue strips)) / n)%Q])
              = Some (meanColour strips)).
    { cbn zeta. apply parseColor_hex; apply channelMean_byte; try exact Hne;
        (eapply List.Forall_impl; [ | exact Hpx ]); cbn beta; tauto. }
    destruct (applyBackground_flat ctx overlay rect _ _ Hmode Hloop Havg Hcolour Hrect)
      as (ctx1 & Hrun & _ & _ & Hfill).
    exists ctx1, (meanColour strips). split; [ exact Hrun | ]. split; [ exact Hfill | ].
    reflexivity.
Qed.



Lemma channelMean_constant (channel : Pixel -> Z) (pixels : list Pixel) (v : Z) :
  pixels <> [] -> Forall (fun p => channel p = v) pixels ->
  channelMean channel pixels = v.
Proof.
  intros Hne Hall.
  assert (Hsum : fold_right Z.add 0 (map channel pixels) = Z.of_nat (length pixels) * v).
  { clear Hne. induction Hall as [ | p ps Hp _ IH ]; [ cbn; lia | ].
    cbn [map fold_right length]. rewrite IH, Hp. lia. }
  assert (Hn : 0 < Z.of_nat (length pixels)) by (destruct pixels; [ congruence | cbn; lia ]).
  unfold channelMean. rewrite Math_round_quotient by exact Hn. rewrite Hsum.
  symmetry. apply Z.div_unique with (r := Z.of_nat (length pixels)); lia.
Qed.

(** X8.  When no source is available and every pixel next to the rectangle
    has one and the same colour, the rectangle is filled with exactly that
    colour, made opaque: the average invents no colour. *)
Theorem uniform_neighbours_fill (ctx : Ctx) (overlay : TextOverlay) (rect : IntRect.t)
    (r g b : Z) :
  backgroundMode overlay = Some Clone ->
  (forall d, In d (getCloneOrder (cloneDirection overlay)) ->
             getSourceRect rect (canvas_width ctx) (canvas_height ctx) d = None) ->
  0 < IntRect.width rect -> 0 < IntRect.height rect ->
  inCanvas rect (canvas_width ctx) (canvas_height ctx) ->
  byteSurface ctx ->
  neighbourPixels ctx rect <> [] ->
  Forall (fun p => red p = r /\ green p = g /\ blue p = b) (neighbourPixels ctx rect) ->
  exists ctx1,
    applyBackground ctx overlay rect = Ok ctx1 /\
    forall i j, surface ctx1 i j = filledSurface ctx rect (mkPixel r g b 255) i j.
Proof.
  intros Hmode Hnone Hw Hh Hrect Hbytes Hne Hsame.
  destruct (applyBackground_no_source ctx overlay rect Hmode
              (cloneFromFirst_none ctx rect _ Hnone) Hw Hh Hrect Hbytes)
    as (ctx1 & colour & Hrun & Hfill & Hmean).
  exists ctx1. split; [ exact Hrun | ].
  intros i j. rewrite Hfill, (Hmean Hne). unfold meanColour.
  rewrite (channelMean_constant red _ r Hne), (channelMean_constant green _ g Hne),
    (channelMean_constant blue _ b Hne);
    [ reflexivity | | | ];
    (eapply List.Forall_impl; [ | exact Hsame ]); cbn beta; tauto.
Qed.

Lemma uniform_neighbours_fill_witness :
  exists ctx1,
    applyBackground (plainCanvas 12 6 (mkPixel 200 100 50 255))
                    (sampleOverlay (Rect.mk 1 0 11 6) "Hi" Clone) (IntRect.mk 1 0 11 6)
    = Ok ctx1 /\
    forall i j,
      surface ctx1 i j
      = filledSurface (plainCanvas 12 6 (mkPixel 200 100 50 255)) (IntRect.mk 1 0 11 6)
                      (mkPixel 200 100 50 255) i j.
Proof.
  apply (uniform_neighbours_fill (plainCanvas 12 6 (mkPixel 200 100 50 255))
           (sampleOverlay (Rect.mk 1 0 11 6) "Hi" Clone) (IntRect.mk 1 0 11 6) 200 100 50).
  - reflexivity.
  - intros d [<- | [<- | [<- | [<- | []]]]]; reflexivity.
  - reflexivity.
  - reflexivity.
  - unfold inCanvas; cbn; lia.
  - intros i j. cbn. lia.
  - discriminate.
  - vm_compute. repeat constructor.
Defined.

(** ** The feathered clone *)

Lemma featherAlpha_range (width height x y : Z) :
  (96 # 100 <= featherAlpha width height x y <= 1)%Q.
Proof.
  unfold featherAlpha.
  set (t := clamp _ 0 1). pose proof (clamp_bounds
    (inject_Z (Z.min (Z.min x y) (Z.min (width - 1 - x) (height - 1 - y))) / inject_Z 3)%Q
    0 1 ltac:(lra)) as Ht. fold t in Ht. lra.
Qed.

Lemma featherAlpha_interior (width height x y : Z) :
  3 <= x <= width - 4 -> 3 <= y <= height - 4 ->
  (featherAlpha width height x y == 1)%Q.
Proof.
  intros Hx Hy. unfold featherAlpha.
  set (d := Z.min (Z.min x y) (Z.min (width - 1 - x) (height - 1 - y))).
  assert (Hd : 3 <= d) by (subst d; lia).
  assert (Hq : (1 <= inject_Z d / inject_Z 3)%Q).
  { apply Qle_shift_div_l; [ reflexivity | ].
    rewrite Qmult_1_l. rewrite <- Zle_Qle. exact Hd. }
  assert (Ht : (clamp (inject_Z d / inject_Z 3) 0 1 == 1)%Q).
  { unfold clamp. rewrite (Q.min_l 1 _ Hq). apply Q.max_r. lra. }
  rewrite Ht. reflexivity.
Qed.

Lemma Math_round_integer (z : Z) (q : Q) : (q == inject_Z z)%Q -> Math_round q = z.
Proof.
  intros Hq. unfold Math_round. rewrite Hq.
  assert (Hlow : z <= Qfloor (inject_Z z + (1 # 2))).
  { apply Qfloor_lower. lra. }
  assert (Hhigh : Qfloor (inject_Z z + (1 # 2)) < z + 1).
  { apply Z.lt_le_trans with (Qfloor (inject_Z z + (1 # 2)) + 1 - 0); [ lia | ].
    pose proof (Qfloor_le (inject_Z z + (1 # 2))) as Hf.
    assert (Hlt : (inject_Z (Qfloor (inject_Z z + (1 # 2))) < inject_Z (z + 1))%Q).
    { rewrite inject_Z_plus. change (inject_Z 1) with 1%Q. lra. }
    rewrite <- Zlt_Qlt in Hlt. lia. }
  lia.
Qed.

Lemma blendChannel_between (s t : Z) (alpha : Q) :
  0 <= s <= 255 -> 0 <= t <= 255 -> (0 <= alpha <= 1)%Q ->
  Z.min s t <= blendChannel (Some s) (Some t) alpha <= Z.max s t.
Proof.
  intros Hs Ht Ha. unfold blendChannel.
  set (v := (inject_Z s * alpha + inject_Z t * (1 - alpha))%Q).
  assert (Hlow : (inject_Z (Z.min s t) <= v)%Q).
  { subst v. destruct (Z.min_spec s t) as [[Hlt ->] | [Hle ->]].
    - assert (Hst : (inject_Z s <= inject_Z t)%Q) by (rewrite <- Zle_Qle; lia). nra.
    - assert (Hst : (inject_Z t <= inject_Z s)%Q) by (rewrite <- Zle_Qle; lia). nra. }
  assert (Hhigh : (v <= inject_Z (Z.max s t))%Q).
  { subst v. destruct (Z.max_spec s t) as [[Hlt ->] | [Hle ->]].
    - assert (Hst : (inject_Z s <= inject_Z t)%Q) by (rewrite <- Zle_Qle; lia). nra.
    - assert (Hst : (inject_Z t <= inject_Z s)%Q) by (rewrite <- Zle_Qle; lia). nra. }
  assert (Hround : Z.min s t <= Math_round v <= Z.max s t).
  { unfold Math_round. split.
    - apply Qfloor_lower. lra.
    - rewrite <- (Math_round_integer (Z.max s t) (inject_Z (Z.max s t))) by reflexivity.
      unfold Math_round. apply Qfloor_resp_le. lra. }
  unfold clampZ. lia.
Qed.

(** X9.  The feathered clone takes at least 96% of the source everywhere:
    three pixels or more inside the rectangle a pixel of byte channels
    becomes the source pixel exactly, and nearer the edge each channel lies
    between the source and the target; the result is always opaque. *)
Theorem feather_blend_favours_source (width height x y : Z) (source target : Pixel) :
  0 <= red source <= 255 -> 0 <= green source <= 255 -> 0 <= blue source <= 255 ->
  0 <= red target <= 255 -> 0 <= green target <= 255 -> 0 <= blue target <= 255 ->
  let blended := blendPixel (Some source) (Some target) (featherAlpha width height x y) in
  (96 # 100 <= featherAlpha width height x y <= 1)%Q /\
  opacity blended = 255 /\
  Z.min (red source) (red target) <= red blended <= Z.max (red source) (red target) /\
  Z.min (green source) (green target) <= green blended
    <= Z.max (green source) (green target) /\
  Z.min (blue source) (blue target) <= blue blended <= Z.max (blue source) (blue target) /\
  (3 <= x <= width - 4 -> 3 <= y <= height - 4 ->
   blended = mkPixel (red source) (green source) (blue source) 255).
Proof.
  intros Hr Hg Hb Hr' Hg' Hb' blended.
  pose proof (featherAlpha_range width height x y) as Halpha.
  assert (Hunit : (0 <= featherAlpha width height x y <= 1)%Q) by lra.
  split; [ exact Halpha | ]. split; [ reflexivity | ].
  subst blended. unfold blendPixel. cbn [red green blue opacity fmap option_fmap option_map].
  split; [ now apply blendChannel_between | ].
  split; [ now apply blendChannel_between | ].
  split; [ now apply blendChannel_between | ].
  intros Hx Hy. pose proof (featherAlpha_interior width height x y Hx Hy) as Hone.
  assert (Hcopy : forall s t, 0 <= s <= 255 ->
                    blendChannel (Some s) (Some t) (featherAlpha width height x y) = s).
  { intros s t Hs. unfold blendChannel.
    rewrite (Math_round_integer s) by (rewrite Hone; ring).
    unfold clampZ. lia. }
  now rewrite !Hcopy.
Qed.

Lemma feather_blend_favours_source_witness :
  let blended := blendPixel (Some (mkPixel 10 200 30 255)) (Some (mkPixel 250 0 90 255))
                            (featherAlpha 20 20 1 7) in
  (96 # 100 <= featherAlpha 20 20 1 7 <= 1)%Q /\
  opacity blended = 255 /\
  Z.min 10 250 <= red blended <= Z.max 10 250 /\
  Z.min 200 0 <= green blended <= Z.max 200 0 /\
  Z.min 30 90 <= blue blended <= Z.max 30 90 /\
  (3 <= 1 <= 20 - 4 -> 3 <= 7 <= 20 - 4 -> blended = mkPixel 10 200 30 255).
Proof.
  apply (feather_blend_favours_source 20 20 1 7 (mkPixel 10 200 30 255)
           (mkPixel 250 0 90 255)); cbn; lia.
Defined.

(** X10.  A source rectangle never touches what it replaces: no pixel of it
    lies in the target rectangle or in the ring two pixels wide around it. *)
Theorem clone_source_apart (rect source : IntRect.t) (W H : Z) (d : CloneDirection) :
  0 <= IntRect.width rect -> 0 <= IntRect.height rect ->
  getSourceRect rect W H d = Some source ->
  forall i j,
    insideRect (IntRect.x source) (IntRect.y source) (IntRect.width source)
               (IntRect.height source) i j = true ->
    insideRect (IntRect.x rect - 2) (IntRect.y rect - 2) (IntRect.width rect + 4)
               (IntRect.height rect + 4) i j = false.
Proof.
  intros Hw Hh Hsrc i j Hin.
  assert (Hs : source = shifted rect d).
  { unfold getSourceRect in Hsrc. destruct d;
      match type of Hsrc with (if ?c then _ else _) = _ => destruct c end;
      try discriminate; now injection Hsrc as <-. }
  subst source. unfold insideRect in *.
  repeat (apply andb_true_iff in Hin as [Hin ?]).
  destruct d; cbn [shifted IntRect.x IntRect.y IntRect.width IntRect.height] in *;
    repeat match goal with
           | |- context [?a <=? ?b] => destruct (Z.leb_spec a b); cbn [andb]
           | |- context [?a <? ?b] => destruct (Z.ltb_spec a b); cbn [andb]
           end; try reflexivity; lia.
Qed.

Lemma clone_source_apart_witness :
  insideRect 0 12 30 10 5 15 = true /\
  insideRect (0 - 2) (0 - 2) (30 + 4) (10 + 4) 5 15 = false.
Proof.
  split; [ reflexivity | ].
  apply (clone_source_apart (IntRect.mk 0 0 30 10) (IntRect.mk 0 12 30 10) 30 40 Down);
    [ cbn; lia | cbn; lia | reflexivity | reflexivity ].
Defined.

(** ** The size autofit settles on *)




(** ** Where the lines are painted *)

Lemma autofit_size_floor host overlay rect fontWeight fontFamily letterSpacing lineHeight :
  forall (fuel : nat) (st fit : Fit),
    (6 <= fit_fontSize st)%Q ->
    autofit host fuel overlay rect fontWeight fontFamily letterSpacing lineHeight st
    = Ok fit ->
    (11 # 2 <= fit_fontSize fit)%Q.
Proof.
  induction fuel as [ | fuel IH ]; intros st fit Hsize Hrun; cbn [autofit] in Hrun;
    [ discriminate | ].
  destruct (Qle_bool 6 (fit_fontSize st)) eqn:Hloop.
  - unfold fitAttempt in Hrun. destruct (_ && _) in Hrun.
    + injection Hrun as <-. cbn [fit_fontSize]. lra.
    + set (st' := mkFit _ _ _ _) in Hrun.
      destruct (Qlt_le_dec (fit_fontSize st') 6) as [Hbelow | Habove].
      * destruct fuel as [ | fuel' ]; cbn [autofit] in Hrun; [ discriminate | ].
        assert (Hexit : Qle_bool 6 (fit_fontSize st') = false).
        { destruct (Qle_bool 6 (fit_fontSize st')) eqn:E; [ | reflexivity ].
          apply Qle_bool_iff in E. lra. }
        rewrite Hexit in Hrun. injection Hrun as <-. subst st'. cbn [fit_fontSize]. lra.
      * now apply (IH st').
  - injection Hrun as <-. lra.
Qed.

(** With letter spacing 0 a loop that draws lines paints one run a line. *)
Lemma drawLines_whole_runs host (ls : Q) (X : Q -> Q) (Y : nat -> Q)
    (step : Ctx -> nat * string -> Ctx) :
  Qeq_bool ls 0 = true ->
  (forall c entry,
     step c entry
     = drawLineWithSpacing host c (snd entry)
         (X (measureLineWidth host c (snd entry) ls)) (Y (fst entry)) ls) ->
  forall (entries : list (nat * string)) (c : Ctx),
    state (fold_left step entries c) = state c /\
    painted (fold_left step entries c)
    = painted c ++
      flat_map (fun entry =>
                  if isEmpty (snd entry) then []
                  else [mkTextRun (snd entry)
                                  (X (hostMeasureText host (font (state c)) (snd entry)))
                                  (Y (fst entry)) (font (state c)) (fillStyle (state c))])
               entries.
Proof.
  intros Hls Hstep. induction entries as [ | [index line] entries IH ]; intros c.
  - cbn. now rewrite app_nil_r.
  - cbn [fold_left flat_map fst snd].
    assert (Hone : state (step c (index, line)) = state c /\
                   painted (step c (index, line))
                   = painted c ++
                     (if isEmpty line then []
                      else [mkTextRun line (X (hostMeasureText host (font (state c)) line))
                                      (Y index) (font (state c)) (fillStyle (state c))])).
    { rewrite Hstep. cbn [fst snd]. unfold drawLineWithSpacing, measureLineWidth.
      destruct (isEmpty line); [ now rewrite app_nil_r | ].
      rewrite Hls. unfold fillText, measureText. cbn. split; reflexivity. }
    destruct Hone as [Hs Hp]. destruct (IH (step c (index, line))) as [IHs IHp].
    split; [ congruence | ]. rewrite IHp, Hp, Hs. now rewrite <- app_assoc.
Qed.

(** X12.  With letter spacing 0, [drawText] paints each non-empty line of
    the fitted block as one run, in the normalized font colour, at the left
    position its alignment gives for the width the host measures and at the
    top of its row; so a run never starts above the rectangle, a centred run
    has the rectangle's centre as its own, and a right-aligned run ends at
    the rectangle's right edge. *)
Theorem lines_painted_where_aligned host (fuel : nat) (ctx : Ctx) (overlay : TextOverlay)
    (rect : IntRect.t) :
  (790 <= fuel)%nat ->
  Qeq_bool (normalizeLetterSpacing (letterSpacing overlay)) 0 = true ->
  exists ctx' fit,
    autofit host fuel overlay rect
            (normalizeWeight (fontWeight overlay))
            (orString (fontFamily overlay) "sans-serif")
            (normalizeLetterSpacing (letterSpacing overlay))
            (normalizeLineHeight (lineHeight overlay))
            (mkFit ctx (baseFontSizeOf overlay) [] 0%Q) = Ok fit /\
    drawText host fuel ctx overlay rect = Ok ctx' /\
    painted ctx'
    = painted ctx ++ flat_map (placedRun host overlay rect fit) (indexed (fit_lines fit)) /\
    Forall
      (fun r =>
         (inject_Z (IntRect.y rect) <= run_y r)%Q /\
         let width := hostMeasureText host (run_font r) (run_text r) in
         match default HLeft (hAlign overlay) with
         | HLeft => run_x r = inject_Z (IntRect.x rect)
         | HCenter =>
             (run_x r + width / 2
              == inject_Z (IntRect.x rect) + inject_Z (IntRect.width rect) / 2)%Q
         | HRight =>
             (run_x r + width == inject_Z (IntRect.x rect) + inject_Z (IntRect.width rect))%Q
         end)
      (flat_map (placedRun host overlay rect fit) (indexed (fit_lines fit))).
Proof.
  intros Hfuel Hls. destruct fuel as [ | n ]; [ lia | ].
  destruct (autofit_returns host overlay rect
              (normalizeWeight (fontWeight overlay))
              (orString (fontFamily overlay) "sans-serif")
              (normalizeLetterSpacing (letterSpacing overlay))
              (normalizeLineHeight (lineHeight overlay)) n
              (mkFit ctx (baseFontSizeOf overlay) [] 0%Q)) as [fit Hfit].
  { cbn [fit_fontSize]. pose proof (baseFontSizeOf_bounds overlay) as [_ Hmax].
    assert (Hn : (789 <= inject_Z (Z.of_nat n))%Q).
    { change 789%Q with (inject_Z 789). rewrite <- Zle_Qle. lia. }
    lra. }
  pose proof (autofit_context host overlay rect _ _ _ _ ctx (S n)
                (mkFit ctx (baseFontSizeOf overlay) [] 0%Q) fit
                (fun F => eq_refl) Hfit) as Hctx.
  pose proof (autofit_size_floor host overlay rect _ _ _ _ (S n)
                (mkFit ctx (baseFontSizeOf overlay) [] 0%Q) fit
                (proj1 (baseFontSizeOf_bounds overlay)) Hfit) as Hfloor.
  eexists. exists fit. split; [ exact Hfit | ].
  unfold drawText. fold (baseFontSizeOf overlay). rewrite Hfit. cbn [bind]. rewrite Hctx.
  split; [ reflexivity | ].
  split.
  - match goal with
    | |- context [fold_left ?step ?l ?c0] =>
        destruct (drawLines_whole_runs host
                    (normalizeLetterSpacing (letterSpacing overlay))
                    (fun lineWidth => lineLeft overlay rect lineWidth)
                    (fun index =>
                       (blockTop overlay rect
                          (inject_Z (Z.of_nat (length (fit_lines fit)))
                           * (fit_fontSize fit * normalizeLineHeight (lineHeight overlay)))
                        + inject_Z (Z.of_nat index)
                          * (fit_fontSize fit * normalizeLineHeight (lineHeight overlay)))%Q)
                    step Hls ltac:(intros c [index line]; reflexivity) l c0) as [_ Hruns];
        set (drawn := fold_left step l c0) in *;
        assert (Hc0 : painted c0 = painted ctx /\
                      font (state c0) = paintFont overlay (fit_fontSize fit) /\
                      fillStyle (state c0)
                      = normalizeHexColor (orString (fontColor overlay) "#000000") "#000000")
          by (destruct (parseColor_hex6 _ (normalizeHexColor_is_hex6
                          (orString (fontColor overlay) "#000000") "#000000" eq_refl))
                as [colour Hcolour];
              unfold setFillStyle; rewrite Hcolour; cbn; repeat split)
    end.
    destruct Hc0 as (Cp & Cf & Cs).
    assert (Rp : painted (restore drawn) = painted drawn)
      by (unfold restore; destruct (saved drawn); reflexivity).
    rewrite Rp, Hruns, Cp, Cf, Cs. reflexivity.
  - apply List.Forall_forall. intros r Hr. apply in_flat_map in Hr as ([index line] & _ & Hr).
    unfold placedRun in Hr. cbn [fst snd] in Hr.
    destruct (isEmpty line); [ destruct Hr | ]. destruct Hr as [<- | []].
    cbn [run_x run_y run_font run_text]. split.
    + unfold blockTop.
      pose proof (Q.le_max_l (inject_Z (IntRect.y rect))
                    match default VTop (vAlign overlay) with
                    | VTop => inject_Z (IntRect.y rect)
                    | VMiddle =>
                        (inject_Z (IntRect.y rect)
                         + (inject_Z (IntRect.height rect)
                            - inject_Z (Z.of_nat (length (fit_lines fit)))
                              * (fit_fontSize fit * normalizeLineHeight (lineHeight overlay)))
                           / 2)%Q
                    | VBottom =>
                        (inject_Z (IntRect.y rect) + inject_Z (IntRect.height rect)
                         - inject_Z (Z.of_nat (length (fit_lines fit)))
                           * (fit_fontSize fit * normalizeLineHeight (lineHeight overlay)))%Q
                    end) as Htop.
      assert (Hlh : (8 # 10 <= normalizeLineHeight (lineHeight overlay))%Q).
      { unfold normalizeLineHeight. destruct (lineHeight overlay);
          [ apply clamp_bounds | ]; lra. }
      assert (Hidx : (0 <= inject_Z (Z.of_nat index))%Q).
      { change 0%Q with (inject_Z 0). rewrite <- Zle_Qle. lia. }
      assert (Hrow : (0 <= inject_Z (Z.of_nat index)
                            * (fit_fontSize fit * normalizeLineHeight (lineHeight overlay)))%Q)
        by (apply Qmult_le_0_compat; [ exact Hidx | apply Qmult_le_0_compat; lra ]).
      cbv zeta. lra.
    + cbv zeta. unfold lineLeft. destruct (default HLeft (hAlign overlay));
        [ reflexivity | field | ring ].
Qed.

Lemma lines_painted_where_aligned_witness :
  exists ctx' fit,
    drawText monoHost 800 (gradientCanvas 100 40) centredOverlay (IntRect.mk 0 0 100 40)
    = Ok ctx' /\
    painted ctx'
    = painted (gradientCanvas 100 40)
      ++ flat_map (placedRun monoHost centredOverlay (IntRect.mk 0 0 100 40) fit)
                  (indexed (fit_lines fit)).
Proof.
  destruct (lines_painted_where_aligned monoHost 800 (gradientCanvas 100 40) centredOverlay
              (IntRect.mk 0 0 100 40) ltac:(lia) eq_refl)
    as (ctx' & fit & _ & H1 & H2 & _).
  exists ctx', fit. split; assumption.
Defined.

(** The centred sample: a line 60 wide in a block 20 high, in a rectangle
    100 by 40, is painted with its left edge at 20 and its top at 10. *)
Example centred_line_position :
  match drawText monoHost 800 (gradientCanvas 100 40) centredOverlay
                 (IntRect.mk 0 0 100 40) with
  | Ok ctx' =>
      map (fun r => (run_text r, Qred (run_x r), Qred (run_y r),
                     Qred (font_size (run_font r)))) (painted ctx')
  | _ => []
  end = [("abc"%string, 20%Q, 10%Q, 20%Q)].
Proof. vm_compute. reflexivity. Qed.

(** ** Painting a line character by character *)

Lemma spacedStep_shift host (y letterSpacing : Q) (c : ascii) (s : string)
    (acc : Ctx * Q) (i : nat) :
  spacedStep host y letterSpacing (String c s) acc (S i)
  = spacedStep host y letterSpacing s acc i.
Proof.
  unfold spacedStep. destruct acc as [ctx cursorX]. cbn [charAt String.get String.length].
  replace (S i <? S (String.length s) - 1)%nat with (i <? String.length s - 1)%nat;
    [ reflexivity | ].
  destruct (Nat.ltb_spec i (String.length s - 1)),
           (Nat.ltb_spec (S i) (S (String.length s) - 1)); (reflexivity || lia).
Qed.

(** The painting loop of [drawLineWithSpacing] issues the runs of
    [spacedRuns], and leaves the drawing state as it was. *)
Lemma spaced_draw_loop host (y letterSpacing : Q) (line : string) :
  forall (c : Ctx) (x : Q),
    let drawn :=
      fst (fold_left (spacedStep host y letterSpacing line)
                     (seq 0 (String.length line)) (c, x)) in
    state drawn = state c /\
    painted drawn
    = painted c ++ spacedRuns host (font (state c)) (fillStyle (state c)) y letterSpacing
                              line x.
Proof.
  induction line as [ | ch rest IH ]; intros c x.
  - cbn. now rewrite app_nil_r.
  - cbv zeta.
    replace (seq 0 (String.length (String ch rest)))
      with (0%nat :: seq 1 (String.length rest)) by reflexivity.
    cbn [fold_left]. rewrite fold_left_seq_shift.
    rewrite (fold_left_pointwise _ _ _ _ (spacedStep_shift host y letterSpacing ch rest)).
    unfold spacedStep at 2 4. cbn [charAt String.get String.length].
    replace (0 <? S (String.length rest) - 1)%nat with (negb (isEmpty rest))
      by (destruct rest; reflexivity).
    set (c1 := fillText host c (String ch EmptyString) x y).
    assert (Hc1 : state c1 = state c /\
                  painted c1 = painted c ++ [mkTextRun (String ch EmptyString) x y
                                                        (font (state c)) (fillStyle (state c))])
      by (split; reflexivity).
    destruct Hc1 as [Hs1 Hp1].
    assert (Hm : measureText host c1 (String ch EmptyString)
                 = hostMeasureText host (font (state c)) (String ch EmptyString))
      by (unfold measureText; now rewrite Hs1).
    rewrite Hm.
    destruct (isEmpty rest) eqn:Hrest; cbn [negb];
      match goal with
      | |- context [fold_left _ _ (c1, ?cursor)] =>
          destruct (IH c1 cursor) as [IHs IHp]
      end;
      (split; [ congruence | ]);
      rewrite IHp, Hp1, Hs1, <- app_assoc; cbn [spacedRuns app]; rewrite Hrest; reflexivity.
Qed.

Lemma sumCharWidths_cons host ctx (ch : ascii) (rest : string) :
  sumCharWidths host ctx (String ch rest)
  = (measureText host ctx (String ch EmptyString) + sumCharWidths host ctx rest)%Q.
Proof. reflexivity. Qed.

(** The pen positions of [spacedRuns], in closed form. *)
Lemma spacedRuns_positions host ctx (fill : string) (y letterSpacing : Q) (line : string) :
  forall (cursor : Q) (k : nat) (r : TextRun),
    spacedRuns host (font (state ctx)) fill y letterSpacing line cursor !! k = Some r ->
    run_text r = charAt line k /\ run_y r = y /\ run_font r = font (state ctx) /\
    (run_x r == cursor + sumCharWidths host ctx (String.substring 0 k line)
                + inject_Z (Z.of_nat k) * letterSpacing)%Q.
Proof.
  induction line as [ | ch rest IH ]; intros cursor k r Hk; [ discriminate Hk | ].
  destruct k as [ | k ].
  - cbn in Hk. injection Hk as <-. cbn [run_text run_y run_font run_x charAt String.get].
    repeat split. cbn. ring.
  - cbn [spacedRuns] in Hk. rewrite lookup_cons in Hk.
    cbn [String.substring charAt String.get]. 
    destruct rest as [ | ch' rest' ] eqn:Erest.
    + cbn in Hk. discriminate Hk.
    + cbn [isEmpty] in Hk. apply IH in Hk as (Ht & Hy & Hf & Hx).
      repeat split; try assumption.
      rewrite Hx, sumCharWidths_cons, inject_nat_succ. unfold measureText. ring.
Qed.

Lemma spacedRuns_length host (f : Font) (fill : string) (y letterSpacing : Q) (line : string) :
  forall cursor : Q,
    length (spacedRuns host f fill y letterSpacing line cursor) = String.length line.
Proof.
  induction line as [ | ch rest IH ]; intros cursor; [ reflexivity | ].
  cbn [spacedRuns length String.length]. now rewrite IH.
Qed.

Lemma sumCharWidths_prefix host ctx (line : string) :
  forall k : nat,
    (k < String.length line)%nat ->
    String.length (String.substring 0 (S k) line) = S k /\
    (sumCharWidths host ctx (String.substring 0 (S k) line)
     == sumCharWidths host ctx (String.substring 0 k line)
        + measureText host ctx (charAt line k))%Q.
Proof.
  induction line as [ | ch rest IH ]; intros k Hk; cbn [String.length] in Hk; [ lia | ].
  destruct k as [ | k ].
  - split; [ destruct rest; reflexivity | ].
    replace (String.substring 0 1 (String ch rest)) with (String ch EmptyString)
      by (destruct rest; reflexivity).
    replace (String.substring 0 0 (String ch rest)) with EmptyString by reflexivity.
    change (charAt (String ch rest) 0) with (String ch EmptyString).
    rewrite sumCharWidths_cons. ring.
  - destruct (IH k ltac:(lia)) as [Hlen Hsum].
    change (String.substring 0 (S (S k)) (String ch rest))
      with (String ch (String.substring 0 (S k) rest)).
    change (String.substring 0 (S k) (String ch rest))
      with (String ch (String.substring 0 k rest)).
    change (charAt (String ch rest) (S k)) with (charAt rest k).
    split; [ cbn [String.length]; now rewrite Hlen | ].
    rewrite !sumCharWidths_cons, Hsum. ring.
Qed.

(** X13.  With a letter spacing other than 0, [drawLineWithSpacing] paints a
    non-empty line one character per run, in the order of the line and on
    the given baseline, and leaves the drawing state as it was.  Character
    [k] is painted at [x] plus the widths of the characters before it, each
    measured alone, plus [k] letter spacings; and it ends where
    [measureLineWidth] puts the end of the first [k + 1] characters, so the
    painted line is as wide as the measured one. *)
Theorem spaced_line_painted_per_character host ctx (line : string) (x y s : Q) :
  line <> EmptyString -> ~ (s == 0)%Q ->
  let drawn := drawLineWithSpacing host ctx line x y s in
  state drawn = state ctx /\
  exists runs : list TextRun,
    painted drawn = painted ctx ++ runs /\
    length runs = String.length line /\
    forall (k : nat) (r : TextRun),
      runs !! k = Some r ->
      run_text r = charAt line k /\ run_y r = y /\
      run_font r = font (state ctx) /\ run_fillStyle r = fillStyle (state ctx) /\
      (run_x r == x + sumCharWidths host ctx (String.substring 0 k line)
                  + inject_Z (Z.of_nat k) * s)%Q /\
      (run_x r + measureText host ctx (charAt line k)
       == x + measureLineWidth host ctx (String.substring 0 (S k) line) s)%Q.
Proof.
  intros Hne Hs drawn.
  assert (Hdrawn : drawn = fst (fold_left (spacedStep host y s line)
                                          (seq 0 (String.length line)) (ctx, x))).
  { unfold drawn, drawLineWithSpacing.
    destruct line as [ | ch rest ]; [ congruence | ]. cbn [isEmpty].
    destruct (Qeq_bool s 0) eqn:Hz; [ apply Qeq_bool_iff in Hz; contradiction | ].
    f_equal. apply fold_left_pointwise. intros [c0 x0] i. reflexivity. }
  destruct (spaced_draw_loop host y s line ctx x) as [Hstate Hpainted].
  rewrite <- Hdrawn in Hstate, Hpainted.
  split; [ exact Hstate | ].
  eexists. split; [ exact Hpainted | ].
  split; [ apply spacedRuns_length | ].
  intros k r Hk.
  assert (Hlt : (k < String.length line)%nat).
  { apply lookup_lt_Some in Hk. now rewrite spacedRuns_length in Hk. }
  assert (Hfill : run_fillStyle r = fillStyle (state ctx)).
  { clear - Hk. revert x k Hk. induction line as [ | ch rest IH ]; intros x k Hk;
      [ discriminate Hk | ].
    destruct k as [ | k ]; [ cbn in Hk; now injection Hk as <- | ].
    cbn [spacedRuns] in Hk. rewrite lookup_cons in Hk. eapply IH, Hk. }
  apply spacedRuns_positions in Hk as (Ht & Hy & Hf & Hx).
  destruct (sumCharWidths_prefix host ctx line k Hlt) as [Hlen Hsum].
  repeat (split; [ assumption | ]).
  rewrite spaced_width_sum, Hlen, Hsum, Hx, inject_nat_succ;
    [ ring | | exact Hs ].
  intros Hempty. rewrite Hempty in Hlen. discriminate Hlen.
Qed.

Lemma spaced_line_painted_per_character_witness :
  let drawn := drawLineWithSpacing kerningHost (gradientCanvas 100 100) "AVA" 5 20 2 in
  state drawn = state (gradientCanvas 100 100) /\
  exists runs : list TextRun,
    painted drawn = painted (gradientCanvas 100 100) ++ runs /\
    length runs = String.length "AVA" /\
    forall (k : nat) (r : TextRun),
      runs !! k = Some r ->
      run_text r = charAt "AVA" k /\ run_y r = 20%Q /\
      run_font r = font (state (gradientCanvas 100 100)) /\
      run_fillStyle r = fillStyle (state (gradientCanvas 100 100)) /\
      (run_x r == 5 + sumCharWidths kerningHost (gradientCanvas 100 100)
                                    (String.substring 0 k "AVA")
                  + inject_Z (Z.of_nat k) * 2)%Q /\
      (run_x r + measureText kerningHost (gradientCanvas 100 100) (charAt "AVA" k)
       == 5 + measureLineWidth kerningHost (gradientCanvas 100 100)
                               (String.substring 0 (S k) "AVA") 2)%Q.
Proof.
  apply (spaced_line_painted_per_character kerningHost (gradientCanvas 100 100) "AVA" 5 20 2);
    discriminate.
Defined.

(** Under a host whose characters are 10 wide, "AVA" spaced by 2 from 5 is
    painted at 5, 17 and 29. *)
Example spaced_AVA_positions :
  map (fun r => (run_text r, Qred (run_x r)))
      (painted (drawLineWithSpacing kerningHost (gradientCanvas 100 100) "AVA" 5 20 2))
  = [("A"%string, 5%Q); ("V"%string, 17%Q); ("A"%string, 29%Q)].
Proof. vm_compute. reflexivity. Qed.

(** ** Rendering overlays one after another *)

Lemma setFillStyle_keeps (ctx : Ctx) (s : string) :
  saved (setFillStyle ctx s) = saved ctx /\
  clip (state (setFillStyle ctx s)) = clip (state ctx) /\
  font (state (setFillStyle ctx s)) = font (state ctx) /\
  textBaseline (state (setFillStyle ctx s)) = textBaseline (state ctx) /\
  textAlign (state (setFillStyle ctx s)) = textAlign (state ctx).
Proof. unfold setFillStyle. destruct (parseColor s); cbn; repeat split. Qed.

Lemma fillRect_keeps (ctx : Ctx) (x y w h : Z) :
  saved (fillRect ctx x y w h) = saved ctx /\ state (fillRect ctx x y w h) = state ctx.
Proof. unfold fillRect. destruct (parseColor _); cbn; split; reflexivity. Qed.

(** The background leaves the clip region and the stack of saved states as
    they were. *)
Lemma applyBackground_keeps (ctx ctx1 : Ctx) (overlay : TextOverlay) (rect : IntRect.t) :
  0 < IntRect.width rect -> 0 < IntRect.height rect ->
  inCanvas rect (canvas_width ctx) (canvas_height ctx) ->
  applyBackground ctx overlay rect = Ok ctx1 ->
  saved ctx1 = saved ctx /\ clip (state ctx1) = clip (state ctx).
Proof.
  intros Hw Hh Hrect. unfold applyBackground.
  set (fallbackColor := normalizeHexColor _ _).
  assert (Hflat : forall s c,
            Ok (fillRect (setFillStyle ctx s) (IntRect.x rect) (IntRect.y rect)
                         (IntRect.width rect) (IntRect.height rect)) = Ok c ->
            saved c = saved ctx /\ clip (state c) = clip (state ctx)).
  { intros s c [= <-].
    destruct (fillRect_keeps (setFillStyle ctx s) (IntRect.x rect) (IntRect.y rect)
                (IntRect.width rect) (IntRect.height rect)) as [-> ->].
    destruct (setFillStyle_keeps ctx s) as (-> & -> & _). split; reflexivity. }
  destruct (default Solid (backgroundMode overlay)); [ apply Hflat | ].
  pose proof (cloneFromFirst_first ctx rect (getCloneOrder (cloneDirection overlay))
                Hw Hh Hrect) as Hloop.
  destruct (List.find _ _) as [source | ].
  - destruct Hloop as (c & -> & (_ & _ & Hs & _ & Hv & _) & _). cbn [bind].
    intros [= <-]. now rewrite Hs, Hv.
  - rewrite Hloop. cbn [bind].
    rewrite (getAverageNeighborColor_mean ctx rect fallbackColor Hw Hh Hrect).
    cbn [bind]. apply Hflat.
Qed.

(** What [drawText] leaves in the context: the style it painted with, under
    the clip region and the stack of saved states it found. *)
Lemma drawText_leaves host fuel ctx ctx' overlay rect fit :
  autofit host fuel overlay rect
          (normalizeWeight (fontWeight overlay))
          (orString (fontFamily overlay) "sans-serif")
          (normalizeLetterSpacing (letterSpacing overlay))
          (normalizeLineHeight (lineHeight overlay))
          (mkFit ctx (baseFontSizeOf overlay) [] 0%Q) = Ok fit ->
  drawText host fuel ctx overlay rect = Ok ctx' ->
  saved ctx' = saved ctx /\
  state ctx'
  = mkDrawState (paintFont overlay (fit_fontSize fit))
                (normalizeHexColor (orString (fontColor overlay) "#000000") "#000000")
                BaselineTop AlignLeft (clip (state ctx)).
Proof.
  intros Hfit.
  pose proof (autofit_context host overlay rect _ _ _ _ ctx fuel
                (mkFit ctx (baseFontSizeOf overlay) [] 0%Q) fit
                (fun F => eq_refl) Hfit) as Hctx.
  unfold drawText. fold (baseFontSizeOf overlay). rewrite Hfit. cbn [bind].
  rewrite Hctx. intros [= <-].
  destruct (parseColor_hex6 _ (normalizeHexColor_is_hex6
                                 (orString (fontColor overlay) "#000000") "#000000" eq_refl))
    as [colour Hcolour].
  match goal with
  | |- context [fold_left ?step ?l ?c0] =>
      pose proof (fold_paintedFrom step
                    ltac:(intros c [index line]; apply drawLineWithSpacing_paintedFrom)
                    l c0 c0 (paintedFrom_refl c0))
        as (_ & _ & Hs & _ & Hv & _);
      set (drawn := fold_left step l c0) in *
  end.
  unfold restore. rewrite Hv. cbn [saved save beginPath rectPath clipPath withState].
  unfold setFillStyle. rewrite Hcolour. cbn. split; reflexivity.
Qed.

(** Rendering one overlay: it returns, within the rectangle, and leaves the
    canvas size, the clip region and the stack of saved states as they
    were. *)
Lemma renderTextOverlay_effect host (fuel : nat) (ctx : Ctx) (overlay : TextOverlay) :
  (790 <= fuel)%nat ->
  exists ctx',
    renderTextOverlay host fuel ctx overlay = Ok ctx' /\
    canvas_width ctx' = canvas_width ctx /\ canvas_height ctx' = canvas_height ctx /\
    saved ctx' = saved ctx /\ clip (state ctx') = clip (state ctx) /\
    (forall i j,
       insideResolved (canvas_width ctx) (canvas_height ctx) overlay i j = false ->
       surface ctx' i j = surface ctx i j) /\
    (let r := toIntRect (rect overlay) (canvas_width ctx) (canvas_height ctx) in
     0 < IntRect.width r -> 0 < IntRect.height r ->
     exists size,
       state ctx'
       = mkDrawState (paintFont overlay size)
                     (normalizeHexColor (orString (fontColor overlay) "#000000") "#000000")
                     BaselineTop AlignLeft (clip (state ctx))).
Proof.
  intros Hfuel. unfold renderTextOverlay, insideResolved.
  set (r := toIntRect (rect overlay) (canvas_width ctx) (canvas_height ctx)).
  destruct ((IntRect.width r <=? 0) || (IntRect.height r <=? 0)) eqn:Hdeg.
  - exists ctx. repeat split. intros Hw Hh.
    apply orb_true_iff in Hdeg as [Hd | Hd]; apply Z.leb_le in Hd; lia.
  - apply orb_false_iff in Hdeg as [Hw Hh]. apply Z.leb_gt in Hw, Hh.
    pose proof (toIntRect_positive_in_canvas _ _ _ Hw Hh) as Hrect. fold r in Hrect.
    destruct (applyBackground_frame ctx overlay r Hw Hh Hrect)
      as (ctx1 & Hback & Bw & Bh & Bframe).
    destruct (applyBackground_keeps ctx ctx1 overlay r Hw Hh Hrect Hback) as [Bsaved Bclip].
    rewrite Hback. cbn [bind]. destruct fuel as [ | n ]; [ lia | ].
    destruct (autofit_returns host overlay r
                (normalizeWeight (fontWeight overlay))
                (orString (fontFamily overlay) "sans-serif")
                (normalizeLetterSpacing (letterSpacing overlay))
                (normalizeLineHeight (lineHeight overlay)) n
                (mkFit ctx1 (baseFontSizeOf overlay) [] 0%Q)) as [fit Hfit].
    { cbn [fit_fontSize]. pose proof (baseFontSizeOf_bounds overlay) as [_ Hmax].
      assert (Hn : (789 <= inject_Z (Z.of_nat n))%Q).
      { change 789%Q with (inject_Z 789). rewrite <- Zle_Qle. lia. }
      lra. }
    destruct (drawText_after_autofit host (S n) ctx1 overlay r fit Hfit)
      as (ctx' & Hdraw & Dw & Dh & Dframe & _).
    destruct (drawText_leaves host (S n) ctx1 ctx' overlay r fit Hfit Hdraw)
      as [Dsaved Dstate].
    exists ctx'. split; [ exact Hdraw | ].
    split; [ congruence | ]. split; [ congruence | ]. split; [ congruence | ].
    split; [ rewrite Dstate; exact Bclip | ].
    split.
    + intros i j Hout. rewrite Dframe by exact Hout. now apply Bframe.
    + intros _ _. exists (fit_fontSize fit). rewrite Dstate. now rewrite Bclip.
Qed.



Lemma renderOverlays_cons host (fuel : nat) (ctx : Ctx) (overlay : TextOverlay)
    (overlays : list TextOverlay) :
  renderOverlays host fuel ctx (overlay :: overlays)
  = let* ctx1 := renderTextOverlay host fuel ctx overlay in
    renderOverlays host fuel ctx1 overlays.
Proof.
  unfold renderOverlays. cbn [fold_left bind].
  destruct (renderTextOverlay host fuel ctx overlay) as [ ctx1 | e | ]; cbn [bind];
    [ reflexivity | | ];
    induction overlays as [ | o l IH ]; cbn [fold_left bind]; auto.
Qed.

Lemma renderOverlays_effect host (fuel : nat) :
  (790 <= fuel)%nat ->
  forall (overlays : list TextOverlay) (ctx : Ctx),
  exists ctx',
    renderOverlays host fuel ctx overlays = Ok ctx' /\
    canvas_width ctx' = canvas_width ctx /\ canvas_height ctx' = canvas_height ctx /\
    saved ctx' = saved ctx /\ clip (state ctx') = clip (state ctx) /\
    forall i j,
      (forall overlay, In overlay overlays ->
         insideResolved (canvas_width ctx) (canvas_height ctx) overlay i j = false) ->
      surface ctx' i j = surface ctx i j.
Proof.
  intros Hfuel. induction overlays as [ | overlay overlays IH ]; intros ctx.
  - exists ctx. repeat split.
  - destruct (renderTextOverlay_effect host fuel ctx overlay Hfuel)
      as (ctx1 & Hrun & Hw & Hh & Hsaved & Hclip & Hframe & _).
    destruct (IH ctx1) as (ctx' & Hrest & Rw & Rh & Rsaved & Rclip & Rframe).
    exists ctx'. rewrite renderOverlays_cons, Hrun. cbn [bind].
    split; [ exact Hrest | ].
    split; [ congruence | ]. split; [ congruence | ]. split; [ congruence | ].
    split; [ congruence | ].
    intros i j Hout. rewrite Rframe.
    + apply Hframe, Hout. now left.
    + intros o Ho. rewrite Hw, Hh. apply Hout. now right.
Qed.

(** X15.  Rendering the overlays of a slide one after another, as the
    exports and the editor do, returns for every list of overlays, keeps the
    canvas size, and leaves every pixel that lies in no overlay's resolved
    rectangle as it was in the slide image. *)
Theorem slide_untouched_outside_overlays host (fuel : nat) (ctx : Ctx)
    (overlays : list TextOverlay) :
  (790 <= fuel)%nat ->
  exists ctx',
    renderOverlays host fuel ctx overlays = Ok ctx' /\
    canvas_width ctx' = canvas_width ctx /\ canvas_height ctx' = canvas_height ctx /\
    forall i j,
      (forall overlay, In overlay overlays ->
         insideResolved (canvas_width ctx) (canvas_height ctx) overlay i j = false) ->
      surface ctx' i j = surface ctx i j.
Proof.
  intros Hfuel.
  destruct (renderOverlays_effect host fuel Hfuel overlays ctx)
    as (ctx' & Hrun & Hw & Hh & _ & _ & Hframe).
  exists ctx'. repeat (split; [ assumption | ]). exact Hframe.
Qed.

Lemma slide_untouched_outside_overlays_witness :
  let ctx := gradientCanvas 100 100 in
  let overlays := [sampleOverlay (Rect.mk 20 30 10 10) "Hello world" Clone;
                   sampleOverlay (Rect.mk 25 35 40 20) "again" Solid] in
  exists ctx',
    renderOverlays monoHost 800 ctx overlays = Ok ctx' /\
    canvas_width ctx' = canvas_width ctx /\ canvas_height ctx' = canvas_height ctx /\
    forall i j,
      (forall overlay, In overlay overlays ->
         insideResolved (canvas_width ctx) (canvas_height ctx) overlay i j = false) ->
      surface ctx' i j = surface ctx i j.
Proof.
  apply (slide_untouched_outside_overlays monoHost 800 (gradientCanvas 100 100)
           [sampleOverlay (Rect.mk 20 30 10 10) "Hello world" Clone;
            sampleOverlay (Rect.mk 25 35 40 20) "again" Solid]).
  lia.
Defined.

(** ** What the resolved rectangle covers *)






(** The rectangle from 2.5 to 6 across and from -3 to 7 down resolves to the
    columns 2 to 5 and the rows 0 to 6. *)
Example toIntRect_fractional :
  toIntRect (Rect.mk (5 # 2) (-3) (7 # 2) 10) 100 80 = IntRect.mk 2 0 4 7.
Proof. reflexivity. Qed.

(** ** The overlay handlers of the application *)

Lemma removelast_snoc {A : Type} (l : list A) (x : A) : removelast (l ++ [x]) = l.
Proof. now rewrite removelast_last. Qed.

(** X17.  Undoing right after applying an overlay gives back the slides as
    they were, on every slide and whichever slide is active (also when the
    active index names no slide): undo drops exactly the overlay that was
    applied last.  After the apply the new overlay is the selected one and
    the selection rectangle is gone; after the undo no overlay is
    selected. *)
Theorem apply_then_undo (overlay : TextOverlay) (st : App.State) :
  App.slides (App.handleUndo (App.handleApplyOverlay overlay st)) = App.slides st /\
  App.activeSlideIdx (App.handleUndo (App.handleApplyOverlay overlay st))
  = App.activeSlideIdx st /\
  App.selectedOverlayId (App.handleApplyOverlay overlay st) = Some (id overlay) /\
  App.selection (App.handleApplyOverlay overlay st) = None /\
  App.selectedOverlayId (App.handleUndo (App.handleApplyOverlay overlay st)) = None.
Proof.
  repeat split.
  apply list_eq. intros i.
  unfold App.handleUndo, App.handleApplyOverlay. cbn [App.slides App.activeSlideIdx].
  rewrite !list_lookup_imap.
  destruct (App.slides st !! i) as [ s | ]; [ | reflexivity ]. cbn [fmap option_fmap option_map].
  destruct (i =? App.activeSlideIdx st)%nat; cbn [andb]; [ | reflexivity ].
  unfold App.withOverlays. cbn [Slide.overlays Slide.index Slide.dataUrl Slide.width
                                Slide.height].
  rewrite length_app, removelast_snoc. cbn [length].
  replace (0 <? length (Slide.overlays s) + 1)%nat with true
    by (symmetry; apply Nat.ltb_lt; lia).
  now destruct s.
Qed.

(** Two overlays applied and two undos, on [sampleDeck]. *)
Example apply_twice_undo_twice :
  App.slides
    (App.handleUndo
       (App.handleUndo
          (App.handleApplyOverlay (sampleOverlay (Rect.mk 0 0 5 5) "b" Solid)
             (App.handleApplyOverlay (sampleOverlay (Rect.mk 1 1 5 5) "a" Solid)
                sampleDeck))))
  = App.slides sampleDeck.
Proof. reflexivity. Qed.

Lemma renderOverlays_snoc host (fuel : nat) (overlays : list TextOverlay)
    (overlay : TextOverlay) :
  forall ctx : Ctx,
    renderOverlays host fuel ctx (overlays ++ [overlay])
    = let* painted := renderOverlays host fuel ctx overlays in
      renderTextOverlay host fuel painted overlay.
Proof.
  induction overlays as [ | o l IH ]; intros ctx.
  - cbn [app]. rewrite renderOverlays_cons. unfold renderOverlays. cbn [fold_left bind].
    destruct (renderTextOverlay host fuel ctx overlay); reflexivity.
  - cbn [app]. rewrite !renderOverlays_cons.
    destruct (renderTextOverlay host fuel ctx o); cbn [bind]; [ apply IH | | ]; reflexivity.
Qed.

(** X18.  An applied overlay is painted last: the image of the active slide
    after [handleApplyOverlay] is the image before with the new overlay
    rendered on top of it, so it differs from the image before only inside
    the new overlay's resolved rectangle; the other slides hold the overlays
    they held. *)
Theorem applied_overlay_painted_on_top host (fuel : nat) (ctx : Ctx) (overlay : TextOverlay)
    (st : App.State) (s : Slide.t) :
  (790 <= fuel)%nat ->
  App.slides st !! App.activeSlideIdx st = Some s ->
  exists (s' : Slide.t) (before after : Ctx),
    App.slides (App.handleApplyOverlay overlay st) !! App.activeSlideIdx st = Some s' /\
    renderOverlays host fuel ctx (Slide.overlays s) = Ok before /\
    renderOverlays host fuel ctx (Slide.overlays s') = Ok after /\
    renderTextOverlay host fuel before overlay = Ok after /\
    (forall i j,
       insideResolved (canvas_width ctx) (canvas_height ctx) overlay i j = false ->
       surface after i j = surface before i j) /\
    forall (k : nat) (other : Slide.t),
      k <> App.activeSlideIdx st ->
      App.slides st !! k = Some other ->
      App.slides (App.handleApplyOverlay overlay st) !! k = Some other.
Proof.
  intros Hfuel Hactive.
  destruct (renderOverlays_effect host fuel Hfuel (Slide.overlays s) ctx)
    as (before & Hbefore & Bw & Bh & _).
  destruct (renderTextOverlay_effect host fuel before overlay Hfuel)
    as (after & Hafter & _ & _ & _ & _ & Hframe & _).
  exists (App.withOverlays s (Slide.overlays s ++ [overlay])), before, after.
  unfold App.handleApplyOverlay. cbn [App.slides].
  split.
  { rewrite list_lookup_imap, Hactive. cbn. now rewrite Nat.eqb_refl. }
  split; [ exact Hbefore | ].
  split.
  { cbn [App.withOverlays Slide.overlays]. rewrite renderOverlays_snoc, Hbefore.
    exact Hafter. }
  split; [ exact Hafter | ].
  split.
  { intros i j Hout. apply Hframe. now rewrite Bw, Bh. }
  intros k other Hk Hother. rewrite list_lookup_imap, Hother. cbn.
  destruct (Nat.eqb_spec k (App.activeSlideIdx st)); [ contradiction | reflexivity ].
Qed.

Lemma applied_overlay_painted_on_top_witness :
  let ctx := gradientCanvas 100 100 in
  let overlay := sampleOverlay (Rect.mk 25 35 40 20) "again" Solid in
  exists (s' : Slide.t) (before after : Ctx),
    App.slides (App.handleApplyOverlay overlay sampleDeck) !! App.activeSlideIdx sampleDeck
    = Some s' /\
    renderOverlays monoHost 800 ctx
      (Slide.overlays (Slide.mk 1 "data:image/png;base64,BBBB" 100 100
                         [sampleOverlay (Rect.mk 20 30 10 10) "Hello world" Clone]))
    = Ok before /\
    renderOverlays monoHost 800 ctx (Slide.overlays s') = Ok after /\
    renderTextOverlay monoHost 800 before overlay = Ok after /\
    (forall i j,
       insideResolved (canvas_width ctx) (canvas_height ctx) overlay i j = false ->
       surface after i j = surface before i j) /\
    forall (k : nat) (other : Slide.t),
      k <> App.activeSlideIdx sampleDeck ->
      App.slides sampleDeck !! k = Some other ->
      App.slides (App.handleApplyOverlay overlay sampleDeck) !! k = Some other.
Proof.
  apply (applied_overlay_painted_on_top monoHost 800 (gradientCanvas 100 100)
           (sampleOverlay (Rect.mk 25 35 40 20) "again" Solid) sampleDeck
           (Slide.mk 1 "data:image/png;base64,BBBB" 100 100
                     [sampleOverlay (Rect.mk 20 30 10 10) "Hello world" Clone]));
    [ lia | reflexivity ].
Defined.

(** ** The masked key *)

Lemma substring_cut (s : string) :
  forall a : nat,
    (a <= String.length s)%nat ->
    s = (String.substring 0 a s ++ String.substring a (String.length s - a) s)%string /\
    String.length (String.substring 0 a s) = a /\
    String.length (String.substring a (String.length s - a) s) = (String.length s - a)%nat.
Proof.
  induction s as [ | c s IH ]; intros a Ha; cbn [String.length] in Ha.
  - replace a with 0%nat by lia. repeat split.
  - destruct a as [ | a ].
    + cbn [String.substring String.append String.length Nat.sub].
      destruct (IH 0%nat ltac:(lia)) as (Hs & _ & Hl).
      rewrite Nat.sub_0_r in Hs, Hl.
      replace (String.substring 0 0 s) with EmptyString in Hs by (destruct s; reflexivity).
      cbn [String.append] in Hs. rewrite <- Hs. repeat split.
    + destruct (IH a ltac:(lia)) as (Hs & Hl1 & Hl2).
      cbn [String.substring String.append String.length Nat.sub].
      rewrite <- Hs, Hl1, Hl2. repeat split.
Qed.

Lemma stars_length (n : nat) :
  String.length (string_of_list_ascii (repeat "*"%char n)) = n.
Proof. induction n as [ | n IH ]; cbn; [ reflexivity | now rewrite IH ]. Qed.

Lemma append_length (a b : string) :
  String.length (a ++ b) = (String.length a + String.length b)%nat.
Proof. induction a as [ | c a IH ]; cbn; [ reflexivity | now rewrite IH ]. Qed.

(** X19.  What [maskApiKey] hides of a stored key of [n] characters.  Up to
    8 characters the mask is [n] stars and shows nothing.  From 10
    characters on the key is its first six characters, [n - 10] hidden ones
    and its last four, and the mask shows the first six and the last four
    around at least four stars: a key of 10 characters is shown whole, and
    one of 14 or more is masked at its own length. *)
Theorem maskApiKey_hides (key : string) :
  key <> EmptyString ->
  let n := String.length key in
  let stars (k : nat) := string_of_list_ascii (repeat "*"%char k) in
  ((n <= 8)%nat -> App.maskApiKey key = stars n) /\
  ((8 < n)%nat -> String.length (App.maskApiKey key) = Nat.max n 14) /\
  ((10 <= n)%nat ->
   exists hidden : string,
     String.length hidden = (n - 10)%nat /\
     key = (String.substring 0 6 key ++ hidden ++ String.substring (n - 4) 4 key)%string /\
     App.maskApiKey key
     = (String.substring 0 6 key ++ stars (Nat.max 4 (n - 10))
        ++ String.substring (n - 4) 4 key)%string).
Proof.
  intros Hne n stars. unfold App.maskApiKey. fold stars. fold n.
  destruct key as [ | c rest ] eqn:Hkey; [ congruence | ]. cbn [isEmpty]. rewrite <- Hkey.
  assert (Hn : n = String.length key) by (subst key; reflexivity). clearbody n.
  split; [ intros Hle; now rewrite (proj2 (Nat.leb_le n 8) Hle) | ].
  split.
  - intros Hgt. rewrite (proj2 (Nat.leb_gt n 8) Hgt).
    destruct (substring_cut key 6 ltac:(lia)) as (_ & Hl6 & _).
    destruct (substring_cut key (n - 4) ltac:(lia)) as (_ & _ & Hl4).
    replace (String.length key - (n - 4))%nat with 4%nat in Hl4 by lia.
    rewrite !append_length, Hl6, Hl4. unfold stars. rewrite stars_length. lia.
  - intros Hge. rewrite (proj2 (Nat.leb_gt n 8) ltac:(lia)).
    destruct (substring_cut key 6 ltac:(lia)) as (Hcut6 & Hl6 & Hr6).
    set (tail := String.substring 6 (String.length key - 6) key) in *.
    destruct (substring_cut tail (n - 10) ltac:(lia)) as (Hcut & Hlh & Hl4).
    exists (String.substring 0 (n - 10) tail).
    split; [ exact Hlh | ]. split; [ | reflexivity ].
    assert (Hlast : String.substring (n - 4) 4 key
                    = String.substring (n - 10) (String.length tail - (n - 10)) tail).
    { replace (String.length tail - (n - 10))%nat with 4%nat by lia.
      clear - Hge Hn. subst tail.
      replace (n - 4)%nat with (6 + (n - 10))%nat by lia.
      generalize (n - 10)%nat as k. intros k.
      assert (Hshift : forall (m : nat) (s : string) (a b : nat),
                 String.substring (m + a) b s
                 = String.substring a b (String.substring m (String.length s - m) s)).
      { induction m as [ | m IHm ]; intros s a b.
        - cbn [Nat.add]. rewrite Nat.sub_0_r.
          destruct (substring_cut s 0 ltac:(lia)) as (Hs & _).
          replace (String.substring 0 0 s) with EmptyString in Hs
            by (destruct s; reflexivity).
          rewrite Nat.sub_0_r in Hs. cbn [String.append] in Hs. now rewrite <- Hs.
        - destruct s as [ | c s ]; [ destruct a, b; reflexivity | ].
          cbn [Nat.add String.substring String.length Nat.sub]. apply IHm. }
      apply Hshift. }
    rewrite Hlast, <- Hcut. exact Hcut6.
Qed.

Lemma maskApiKey_hides_witness :
  let key := "AIzaSyD-4f2kQ9xLmN"%string in
  let n := String.length key in
  let stars (k : nat) := string_of_list_ascii (repeat "*"%char k) in
  ((n <= 8)%nat -> App.maskApiKey key = stars n) /\
  ((8 < n)%nat -> String.length (App.maskApiKey key) = Nat.max n 14) /\
  ((10 <= n)%nat ->
   exists hidden : string,
     String.length hidden = (n - 10)%nat /\
     key = (String.substring 0 6 key ++ hidden ++ String.substring (n - 4) 4 key)%string /\
     App.maskApiKey key
     = (String.substring 0 6 key ++ stars (Nat.max 4 (n - 10))
        ++ String.substring (n - 4) 4 key)%string).
Proof.
  apply (maskApiKey_hides "AIzaSyD-4f2kQ9xLmN"). discriminate.
Defined.

(** A key of ten characters is shown whole, around four stars. *)
Example maskApiKey_ten : App.maskApiKey "0123456789" = "012345****6789"%string.
Proof. reflexivity. Qed.

(** ** The style panel and the renderer *)

Lemma upperChar_hexDigit (c : ascii) :
  isHexDigit c = true ->
  isHexDigit (Sidebar.upperChar c) = true /\
  hexDigitValue (Sidebar.upperChar c) = hexDigitValue c /\
  isWhiteSpace (Sidebar.upperChar c) = false.
Proof.
  destruct c as [[] [] [] [] [] [] [] []]; intros H; try discriminate H;
    vm_compute; repeat split.
Qed.

Lemma toUpperCase_hexDigits (digits : string) :
  allHexDigits digits = true ->
  allHexDigits (Sidebar.toUpperCase digits) = true /\
  String.length (Sidebar.toUpperCase digits) = String.length digits.
Proof.
  induction digits as [ | c rest IH ]; intros H; [ split; reflexivity | ].
  cbn [allHexDigits] in H. apply andb_true_iff in H as [Hc Hrest].
  destruct (IH Hrest) as [IHd IHl]. destruct (upperChar_hexDigit c Hc) as (Hu & _).
  cbn [Sidebar.toUpperCase allHexDigits String.length]. now rewrite Hu, IHd, IHl.
Qed.

Lemma toUpperCase_idem (s : string) :
  Sidebar.toUpperCase (Sidebar.toUpperCase s) = Sidebar.toUpperCase s.
Proof.
  induction s as [ | c rest IH ]; [ reflexivity | ].
  cbn [Sidebar.toUpperCase]. rewrite IH. f_equal.
  destruct c as [[] [] [] [] [] [] [] []]; reflexivity.
Qed.

Lemma toUpperCase_hexPattern (n : nat) (v : string) :
  testHexPattern n v = true -> testHexPattern n (Sidebar.toUpperCase v) = true.
Proof.
  destruct v as [ | c digits ]; [ discriminate | ].
  destruct (ascii_dec c "#") as [-> | Hc].
  - cbn [testHexPattern Sidebar.toUpperCase]. change (Sidebar.upperChar "#") with "#"%char.
    cbn [testHexPattern]. intros H. apply andb_true_iff in H as [Hl Hd].
    destruct (toUpperCase_hexDigits digits Hd) as [Hd' Hl']. now rewrite Hl', Hl, Hd'.
  - intros H. exfalso. apply Hc. clear Hc.
    destruct c as [[] [] [] [] [] [] [] []]; try discriminate H; reflexivity.
Qed.

Lemma toUpperCase_parseColor (v : string) :
  testHexPattern 6 v = true -> parseColor (Sidebar.toUpperCase v) = parseColor v.
Proof.
  intros H. destruct v as [ | c digits ]; [ discriminate | ].
  destruct (ascii_dec c "#") as [-> | Hc];
    [ | exfalso; apply Hc; clear Hc;
        destruct c as [[] [] [] [] [] [] [] []]; try discriminate H; reflexivity ].
  cbn [testHexPattern] in H. apply andb_true_iff in H as [Hl Hd].
  apply Nat.eqb_eq in Hl.
  destruct digits as [ | r1 [ | r0 [ | g1 [ | g0 [ | b1 [ | b0 [ | ? ? ]]]]]]];
    try discriminate Hl.
  cbn [allHexDigits] in Hd. repeat (apply andb_true_iff in Hd as [? Hd]).
  cbn [Sidebar.toUpperCase]. change (Sidebar.upperChar "#") with "#"%char.
  cbn [parseColor]. unfold hexByteValue.
  rewrite !(fun c H => proj1 (proj2 (upperChar_hexDigit c H))) by assumption.
  reflexivity.
Qed.

(** X20.  The colour the panel shows is the colour the renderer paints.
    With a six-digit fallback, the panel's [normalizeHexColor] answers a
    six-digit colour that denotes the same colour as the renderer's answer
    (they differ in the case of the digits at most); the renderer,
    normalizing the stored answer again, leaves it as it is; and the panel,
    normalizing it again, changes at most the case of a fallback. *)
Theorem panel_colour_is_painted_colour (value fallback other : string) :
  testHexPattern 6 fallback = true ->
  testHexPattern 6 (Sidebar.normalizeHexColor value fallback) = true /\
  parseColor (Sidebar.normalizeHexColor value fallback)
  = parseColor (normalizeHexColor value fallback) /\
  normalizeHexColor (Sidebar.normalizeHexColor value fallback) other
  = Sidebar.normalizeHexColor value fallback /\
  Sidebar.normalizeHexColor (Sidebar.normalizeHexColor value fallback) other
  = Sidebar.toUpperCase (Sidebar.normalizeHexColor value fallback).
Proof.
  intros Hf.
  assert (Hpanel : testHexPattern 6 (Sidebar.normalizeHexColor value fallback) = true /\
                   parseColor (Sidebar.normalizeHexColor value fallback)
                   = parseColor (normalizeHexColor value fallback)).
  { unfold Sidebar.normalizeHexColor, normalizeHexColor.
    pose proof (normalizeHexColor_is_hex6 value fallback Hf) as Hr.
    unfold normalizeHexColor in Hr.
    destruct (testHexPattern 6 (trim value)) eqn:H6.
    - split; [ now apply toUpperCase_hexPattern | now apply toUpperCase_parseColor ].
    - destruct (testHexPattern 3 (trim value)) eqn:H3.
      + split; [ now apply toUpperCase_hexPattern | now apply toUpperCase_parseColor ].
      + split; [ exact Hf | reflexivity ]. }
  destruct Hpanel as (H6 & Hsame).
  assert (Htrim : trim (Sidebar.normalizeHexColor value fallback)
                  = Sidebar.normalizeHexColor value fallback).
  { destruct (Sidebar.normalizeHexColor value fallback) as [ | c digits ];
      [ discriminate | ].
    destruct (ascii_dec c "#") as [-> | Hc];
      [ | exfalso; apply Hc; clear - H6;
          destruct c as [[] [] [] [] [] [] [] []]; try discriminate H6; reflexivity ].
    cbn [testHexPattern] in H6. apply andb_true_iff in H6 as [_ Hd].
    now apply trim_hash_hex. }
  split; [ exact H6 | ]. split; [ exact Hsame | ].
  split.
  - unfold normalizeHexColor at 1. now rewrite Htrim, H6.
  - unfold Sidebar.normalizeHexColor at 1. now rewrite Htrim, H6.
Qed.

Lemma panel_colour_is_painted_colour_witness :
  testHexPattern 6 (Sidebar.normalizeHexColor " #1aF " "#FFFFFF") = true /\
  parseColor (Sidebar.normalizeHexColor " #1aF " "#FFFFFF")
  = parseColor (normalizeHexColor " #1aF " "#FFFFFF") /\
  normalizeHexColor (Sidebar.normalizeHexColor " #1aF " "#FFFFFF") "#ffffff"
  = Sidebar.normalizeHexColor " #1aF " "#FFFFFF" /\
  Sidebar.normalizeHexColor (Sidebar.normalizeHexColor " #1aF " "#FFFFFF") "#ffffff"
  = Sidebar.toUpperCase (Sidebar.normalizeHexColor " #1aF " "#FFFFFF").
Proof.
  apply (panel_colour_is_painted_colour " #1aF " "#FFFFFF" "#ffffff"). reflexivity.
Defined.

(** The panel shows [#11AAFF] where the renderer keeps [#11aaFF]. *)
Example panel_colour_upper_case :
  Sidebar.normalizeHexColor " #1aF " "#FFFFFF" = "#11AAFF"%string /\
  normalizeHexColor " #1aF " "#FFFFFF" = "#11aaFF"%string.
Proof. split; reflexivity. Qed.

Lemma normalizeWeight_on_grid (k : Z) :
  1 <= k <= 9 -> normalizeWeight (WNumber (100 * k)) = 100 * k.
Proof.
  intros Hk.
  assert (Hcases : k = 1 \/ k = 2 \/ k = 3 \/ k = 4 \/ k = 5 \/ k = 6 \/ k = 7 \/ k = 8 \/
                   k = 9) by lia.
  repeat (destruct Hcases as [-> | Hcases]; [ reflexivity | ]). now subst k.
Qed.

(** X21.  The weight the panel shows is the weight the renderer paints.
    With its default fallback the panel's [normalizeFontWeight] answers what
    the renderer's [normalizeWeight] answers, and the renderer, normalizing
    the stored answer again, leaves it as it is.  With another fallback on
    the grid 100, 200, ..., 900 (the panel commits a typed weight with the
    current weight as fallback) the answer is on the grid as well. *)
Theorem panel_weight_is_painted_weight (value : WeightInput) :
  Sidebar.normalizeFontWeight value 500 = normalizeWeight value /\
  normalizeWeight (WNumber (Sidebar.normalizeFontWeight value 500))
  = Sidebar.normalizeFontWeight value 500 /\
  forall fallback : Z,
    (exists k, 1 <= k <= 9 /\ fallback = 100 * k) ->
    exists k, 1 <= k <= 9 /\ Sidebar.normalizeFontWeight value fallback = 100 * k /\
              normalizeWeight (WNumber (Sidebar.normalizeFontWeight value fallback))
              = Sidebar.normalizeFontWeight value fallback.
Proof.
  assert (Hsame : Sidebar.normalizeFontWeight value 500 = normalizeWeight value).
  { unfold Sidebar.normalizeFontWeight, normalizeWeight.
    replace (match value with
             | WUndefined => numberToString 500
             | WNumber n => numberToString n
             | WString s => s
             end) with (weightText value) by (destruct value; reflexivity).
    destruct (parseInt10 (weightText value)); [ unfold clampZ; lia | reflexivity ]. }
  split; [ exact Hsame | ].
  split.
  - rewrite Hsame. destruct (normalizeWeight_grid value) as (k & Hk & ->).
    now apply normalizeWeight_on_grid.
  - intros fallback (kf & Hkf & ->).
    assert (Hgrid : exists k, 1 <= k <= 9 /\
                              Sidebar.normalizeFontWeight value (100 * kf) = 100 * k).
    { unfold Sidebar.normalizeFontWeight. destruct (parseInt10 _) as [parsed | ].
      - change 100%Q with (inject_Z 100). rewrite Math_round_quotient by lia.
        set (q := (2 * parsed + 100) / (2 * 100)).
        exists (Z.max 1 (Z.min 9 q)). lia.
      - exists kf. split; [ exact Hkf | reflexivity ]. }
    destruct Hgrid as (k & Hk & Heq). exists k. rewrite Heq.
    split; [ exact Hk | ]. split; [ reflexivity | now apply normalizeWeight_on_grid ].
Qed.

(** A typed weight of 733 is shown, stored and painted as 700. *)
Example panel_weight_733 :
  Sidebar.normalizeFontWeight (WString "733") 400 = 700 /\
  normalizeWeight (WNumber 700) = 700.
Proof. split; reflexivity. Qed.

(** ** The view of the editor *)

Lemma Qlt_bool_iff (a b : Q) : Qlt_bool a b = true <-> (a < b)%Q.
Proof.
  unfold Qlt_bool. rewrite negb_true_iff. split.
  - intros H. apply Qnot_le_lt. intros Hle. apply Qle_bool_iff in Hle. congruence.
  - intros H. destruct (Qle_bool b a) eqn:Hle; [ | reflexivity ].
    apply Qle_bool_iff in Hle. exfalso. exact (Qlt_not_le _ _ H Hle).
Qed.


(** X22.  Zooming with the wheel keeps the image point under the cursor
    under the cursor: the canvas coordinates of the pointer are the same
    before and after, and the zoom stays within its bounds.  (The zoom
    before is not 0, and the smallest zoom is positive.) *)
Theorem wheel_zoom_about_cursor (MIN_ZOOM MAX_ZOOM ZOOM_STEP : Q) (e : Editor.MouseEvent)
    (st : Editor.State) :
  Editor.ctrlKey e = true ->
  ~ (Editor.zoom st == 0)%Q ->
  (0 < MIN_ZOOM)%Q -> (MIN_ZOOM <= MAX_ZOOM)%Q ->
  let st' := Editor.handleWheelNative MIN_ZOOM MAX_ZOOM ZOOM_STEP e st in
  (MIN_ZOOM <= Editor.zoom st' <= MAX_ZOOM)%Q /\
  (Point.x (Editor.getCanvasCoords st' e) == Point.x (Editor.getCanvasCoords st e))%Q /\
  (Point.y (Editor.getCanvasCoords st' e) == Point.y (Editor.getCanvasCoords st e))%Q /\
  Editor.selection st' = Editor.selection st.
Proof.
  intros Hctrl Hzoom Hmin Hle st'. subst st'. unfold Editor.handleWheelNative.
  rewrite Hctrl. cbv zeta.
  set (factor := if Qlt_bool 0 (- Editor.deltaY e) then _ else _).
  set (nextZoom := Qmin MAX_ZOOM (Qmax MIN_ZOOM (Editor.zoom st * factor))).
  assert (Hnext : (MIN_ZOOM <= nextZoom <= MAX_ZOOM)%Q).
  { unfold nextZoom. split.
    - apply Q.min_glb; [ exact Hle | apply Q.le_max_l ].
    - apply Q.le_min_l. }
  assert (Hnz : ~ (nextZoom == 0)%Q) by (intros H0; rewrite H0 in Hnext; lra).
  unfold Editor.getCanvasCoords.
  cbn [Editor.zoom Editor.offset Editor.selection Point.x Point.y].
  split; [ exact Hnext | ].
  split; [ field; split; assumption | ].
  split; [ field; split; assumption | reflexivity ].
Qed.

Lemma wheel_zoom_about_cursor_witness :
  let e := Editor.mkEvent 300 200 0 true 0 (-120) 10 20 in
  let st := Editor.mk 2 (Point.mk 50 40) None false false false false None None false in
  let st' := Editor.handleWheelNative (1 # 10) 8 (1 # 10) e st in
  ((1 # 10) <= Editor.zoom st' <= 8)%Q /\
  (Point.x (Editor.getCanvasCoords st' e) == Point.x (Editor.getCanvasCoords st e))%Q /\
  (Point.y (Editor.getCanvasCoords st' e) == Point.y (Editor.getCanvasCoords st e))%Q /\
  Editor.selection st' = Editor.selection st.
Proof.
  apply (wheel_zoom_about_cursor (1 # 10) 8 (1 # 10)
           (Editor.mkEvent 300 200 0 true 0 (-120) 10 20)
           (Editor.mk 2 (Point.mk 50 40) None false false false false None None false));
    [ reflexivity | discriminate | reflexivity | discriminate ].
Defined.



(** ** Selecting with the pointer *)




(** The press at client (100, 100) is at (20, 20) of the image, the release
    at (200, 180) is at (70, 60): the selection is 50 wide and 40 high. *)
Example drag_selection_20_20_50_40 :
  let down := Editor.handleMouseDown 8 (Editor.mkProps [] None) (pointerAt 100 100)
                                     restingEditor in
  let move := Editor.handleMouseMove (Editor.mkProps [] None) (pointerAt 200 180)
                                     (fst down) in
  match Editor.selection (fst (Editor.handleMouseUp 5 (fst move))) with
  | Some r => (Qred (Rect.x r), Qred (Rect.y r), Qred (Rect.width r), Qred (Rect.height r))
              = (20%Q, 20%Q, 50%Q, 40%Q)
  | None => False
  end.
Proof. vm_compute. reflexivity. Qed.

Lemma find_last_hit {A : Type} (f : A -> bool) (before after : list A) (o : A) :
  f o = true -> (forall o', In o' after -> f o' = false) ->
  List.find f (rev (before ++ o :: after)) = Some o.
Proof.
  intros Ho Hafter. rewrite rev_app_distr. cbn [rev]. rewrite <- app_assoc. cbn [app].
  assert (Hskip : forall l rest, (forall x, In x l -> f x = false) ->
                                 List.find f (l ++ rest) = List.find f rest).
  { induction l as [ | x l IH ]; intros rest Hl; [ reflexivity | ].
    cbn [app List.find]. rewrite (Hl x (or_introl eq_refl)). apply IH.
    intros y Hy. apply Hl. now right. }
  rewrite Hskip by (intros x Hx; apply Hafter; now apply in_rev).
  cbn [List.find]. now rewrite Ho.
Qed.

(** X25.  A press selects the overlay on top.  Where several overlays hold
    the point, the one latest in the list, which is the one rendered last
    and so the one seen, is selected and starts to be dragged; the selection
    rectangle is dropped, and the application then has that overlay selected
    and no selection.  (The view is not being panned and no handle of a
    selection is under the pointer.) *)
Theorem press_selects_topmost_overlay (HANDLE_SIZE : Q) (parent : App.State)
    (props : Editor.Props) (e : Editor.MouseEvent) (st : Editor.State)
    (before after : list TextOverlay) (o : TextOverlay) :
  Editor.isSpacePressed st = false -> Editor.button e <> 1 ->
  match Editor.selection st with
  | Some sel =>
      Editor.getHandleAt HANDLE_SIZE (Editor.zoom st) (Editor.getCanvasCoords st e) sel
  | None => None
  end = None ->
  Editor.overlays props = before ++ o :: after ->
  Editor.isPointInRect (Editor.getCanvasCoords st e) (rect o) = true ->
  (forall o', In o' after ->
              Editor.isPointInRect (Editor.getCanvasCoords st e) (rect o') = false) ->
  let down := Editor.handleMouseDown HANDLE_SIZE props e st in
  snd down = [OnOverlaySelect (Some (id o)); OnSelectionChange None] /\
  Editor.isDraggingOverlay (fst down) = true /\
  Editor.startPoint (fst down) = Some (Editor.getCanvasCoords st e) /\
  Editor.selection (fst down) = None /\
  App.selectedOverlayId (fold_left dispatch (snd down) parent) = Some (id o) /\
  App.selection (fold_left dispatch (snd down) parent) = None.
Proof.
  intros Hspace Hbutton Hhandle Hlist Ho Hafter down.
  assert (Hdown : down
                  = (Editor.mk (Editor.zoom st) (Editor.offset st) None (Editor.isDrawing st)
                       (Editor.isResizingSelection st) true (Editor.isPanning st)
                       (Editor.dragType st) (Some (Editor.getCanvasCoords st e))
                       (Editor.isSpacePressed st),
                     [OnOverlaySelect (Some (id o)); OnSelectionChange None])).
  { unfold down, Editor.handleMouseDown. rewrite Hspace. cbn [orb].
    destruct (Z.eqb_spec (Editor.button e) 1) as [He | _]; [ contradiction | ].
    cbv zeta. rewrite Hhandle, Hlist.
    now rewrite (find_last_hit _ before after o Ho Hafter). }
  rewrite Hdown. repeat split.
Qed.

Lemma press_selects_topmost_overlay_witness :
  let under := sampleOverlay (Rect.mk 0 0 100 100) "under" Solid in
  let top := mkTextOverlay "overlay-9" (Rect.mk 10 10 30 30) "old" "top" (Some 16%Q)
                           (WNumber 400) "#000000" "Inter" None None "#ffffff"
                           (Some Solid) None None None in
  let aside := sampleOverlay (Rect.mk 60 60 10 10) "aside" Solid in
  let down := Editor.handleMouseDown 8 (Editor.mkProps [under; top; aside] None)
                                     (pointerAt 100 100) restingEditor in
  snd down = [OnOverlaySelect (Some (id top)); OnSelectionChange None] /\
  Editor.isDraggingOverlay (fst down) = true /\
  Editor.startPoint (fst down)
  = Some (Editor.getCanvasCoords restingEditor (pointerAt 100 100)) /\
  Editor.selection (fst down) = None /\
  App.selectedOverlayId (fold_left dispatch (snd down) sampleDeck) = Some (id top) /\
  App.selection (fold_left dispatch (snd down) sampleDeck) = None.
Proof.
  apply (press_selects_topmost_overlay 8 sampleDeck
           (Editor.mkProps
              [sampleOverlay (Rect.mk 0 0 100 100) "under" Solid;
               mkTextOverlay "overlay-9" (Rect.mk 10 10 30 30) "old" "top" (Some 16%Q)
                             (WNumber 400) "#000000" "Inter" None None "#ffffff"
                             (Some Solid) None None None;
               sampleOverlay (Rect.mk 60 60 10 10) "aside" Solid] None)
           (pointerAt 100 100) restingEditor
           [sampleOverlay (Rect.mk 0 0 100 100) "under" Solid]
           [sampleOverlay (Rect.mk 60 60 10 10) "aside" Solid]);
    [ reflexivity | discriminate | reflexivity | reflexivity | reflexivity
    | intros o' [<- | []]; reflexivity ].
Defined.

(** ** Resizing a selection *)

(** X26.  Dragging a handle moves the sides the handle names and no other:
    a corner moves its two sides, the middle of a side that side, and the
    opposite sides stay where they are.  The pointer position becomes the
    start of the next move.  On release the resized selection is reported,
    unless a side has become shorter than [MIN_RECT_SIZE] (as when a side is
    dragged past the opposite one, which makes it negative): then no
    selection is reported and the selection is dropped. *)
Theorem resize_moves_named_sides (MIN_RECT_SIZE : Q) (props : Editor.Props)
    (e : Editor.MouseEvent) (st : Editor.State) (sel : Rect.t) (start : Point.t)
    (h : HandleType) :
  Editor.isPanning st = false -> Editor.isDrawing st = false ->
  Editor.isResizingSelection st = true ->
  Editor.selection st = Some sel -> Editor.startPoint st = Some start ->
  Editor.dragType st = Some h ->
  let q := Editor.getCanvasCoords st e in
  let dx := (Point.x q - Point.x start)%Q in
  let dy := (Point.y q - Point.y start)%Q in
  let move := Editor.handleMouseMove props e st in
  let up := Editor.handleMouseUp MIN_RECT_SIZE (fst move) in
  exists r : Rect.t,
    Editor.selection (fst move) = Some r /\ snd move = [] /\
    Editor.startPoint (fst move) = Some q /\
    (Rect.x r == Rect.x sel + (if movesWest h then dx else 0))%Q /\
    (Rect.x r + Rect.width r
     == Rect.x sel + Rect.width sel + (if movesEast h then dx else 0))%Q /\
    (Rect.y r == Rect.y sel + (if movesNorth h then dy else 0))%Q /\
    (Rect.y r + Rect.height r
     == Rect.y sel + Rect.height sel + (if movesSouth h then dy else 0))%Q /\
    snd up
    = [OnSelectionChange
         (if Qlt_bool (Rect.width r) MIN_RECT_SIZE || Qlt_bool (Rect.height r) MIN_RECT_SIZE
          then None else Some r)] /\
    Editor.selection (fst up)
    = (if Qlt_bool (Rect.width r) MIN_RECT_SIZE || Qlt_bool (Rect.height r) MIN_RECT_SIZE
       then None else Some r) /\
    Editor.isResizingSelection (fst up) = false.
Proof.
  intros Hpan Hdraw Hres Hsel Hstart Hh q dx dy move up.
  exists (Editor.resized h sel dx dy).
  assert (Hmove : move
                  = (Editor.mk (Editor.zoom st) (Editor.offset st)
                       (Some (Editor.resized h sel dx dy)) false true
                       (Editor.isDraggingOverlay st) false (Some h) (Some q)
                       (Editor.isSpacePressed st), [])).
  { unfold move, Editor.handleMouseMove. rewrite Hpan, Hdraw, Hres, Hsel, Hstart, Hh.
    reflexivity. }
  assert (Hup : up
                = (let kept :=
                     if Qlt_bool (Rect.width (Editor.resized h sel dx dy)) MIN_RECT_SIZE
                        || Qlt_bool (Rect.height (Editor.resized h sel dx dy)) MIN_RECT_SIZE
                     then None else Some (Editor.resized h sel dx dy) in
                   (Editor.mk (Editor.zoom st) (Editor.offset st) kept false false false
                      false (Some h) None (Editor.isSpacePressed st),
                    [OnSelectionChange kept]))).
  { unfold up. rewrite Hmove. cbn [fst]. unfold Editor.handleMouseUp.
    cbn [Editor.isDrawing Editor.isResizingSelection Editor.selection orb Editor.zoom
         Editor.offset Editor.dragType Editor.isSpacePressed].
    destruct (_ || _); reflexivity. }
  rewrite Hup, Hmove. cbv zeta.
  cbn [fst snd Editor.selection Editor.startPoint Editor.isResizingSelection].
  split; [ reflexivity | ]. split; [ reflexivity | ]. split; [ reflexivity | ].
  repeat split; destruct h; cbn; ring.
Qed.

Lemma resize_moves_named_sides_witness :
  let st := resizingEditor (Rect.mk 20 20 50 40) He (Point.mk 70 40) in
  let e := pointerAt 80 140 in
  let q := Editor.getCanvasCoords st e in
  let dx := (Point.x q - 70)%Q in
  let dy := (Point.y q - 40)%Q in
  let move := Editor.handleMouseMove (Editor.mkProps [] None) e st in
  let up := Editor.handleMouseUp 5 (fst move) in
  exists r : Rect.t,
    Editor.selection (fst move) = Some r /\ snd move = [] /\
    Editor.startPoint (fst move) = Some q /\
    (Rect.x r == 20 + (if movesWest He then dx else 0))%Q /\
    (Rect.x r + Rect.width r == 20 + 50 + (if movesEast He then dx else 0))%Q /\
    (Rect.y r == 20 + (if movesNorth He then dy else 0))%Q /\
    (Rect.y r + Rect.height r == 20 + 40 + (if movesSouth He then dy else 0))%Q /\
    snd up
    = [OnSelectionChange
         (if Qlt_bool (Rect.width r) 5 || Qlt_bool (Rect.height r) 5
          then None else Some r)] /\
    Editor.selection (fst up)
    = (if Qlt_bool (Rect.width r) 5 || Qlt_bool (Rect.height r) 5 then None else Some r) /\
    Editor.isResizingSelection (fst up) = false.
Proof.
  apply (resize_moves_named_sides 5 (Editor.mkProps [] None) (pointerAt 80 140)
           (resizingEditor (Rect.mk 20 20 50 40) He (Point.mk 70 40))
           (Rect.mk 20 20 50 40) (Point.mk 70 40) He);
    reflexivity.
Defined.

(** The east handle of a selection 50 wide, dragged 60 to the west: the
    width becomes -10 and the release drops the selection. *)
Example resize_past_opposite_side :
  let st := resizingEditor (Rect.mk 20 20 50 40) He (Point.mk 70 40) in
  let move := Editor.handleMouseMove (Editor.mkProps [] None) (pointerAt 80 140) st in
  option_map (fun r => Qred (Rect.width r)) (Editor.selection (fst move)) = Some (-10)%Q /\
  Editor.handleMouseUp 5 (fst move)
  = (Editor.mk 2 (Point.mk 50 40) None false false false false (Some He) None false,
     [OnSelectionChange None]).
Proof. split; vm_compute; reflexivity. Qed.

(** ** Grabbing a handle *)

Lemma getHandleAt_scan (HANDLE_SIZE zoom : Q) (p : Point.t) (r : Rect.t) :
  Editor.getHandleAt HANDLE_SIZE zoom p r
  = let hit h := near (HANDLE_SIZE / zoom) p (handleAnchor h r) in
    if hit Hnw then Some Hnw else if hit Hn then Some Hn else if hit Hne then Some Hne
    else if hit Hw then Some Hw else if hit He then Some He
    else if hit Hsw then Some Hsw else if hit Hs then Some Hs
    else if hit Hse then Some Hse else None.
Proof.
  cbv beta iota zeta delta [Editor.getHandleAt flat_map zip zip_with map app List.find near
                            handleAnchor Point.x Point.y].
  repeat match goal with
         | |- context [if ?c then _ else _] => destruct c eqn:?; try reflexivity
         end.
Qed.

(** X27.  Grabbing a handle of the selection.  The handle found is less
    than [HANDLE_SIZE / zoom] away from the pointer along both axes; one is
    found as soon as one is that near, the one itself when no other is; and
    none is found only when none is that near.  In particular a press on
    the square drawn for a handle always grabs a handle. *)
Theorem handle_grabbed_when_near (HANDLE_SIZE zoom : Q) (p : Point.t) (r : Rect.t) :
  let tolerance := (HANDLE_SIZE / zoom)%Q in
  (forall h, Editor.getHandleAt HANDLE_SIZE zoom p r = Some h ->
             near tolerance p (handleAnchor h r) = true) /\
  (Editor.getHandleAt HANDLE_SIZE zoom p r = None <->
   forall h, near tolerance p (handleAnchor h r) = false) /\
  (forall h, near tolerance p (handleAnchor h r) = true ->
             (forall h', near tolerance p (handleAnchor h' r) = true -> h' = h) ->
             Editor.getHandleAt HANDLE_SIZE zoom p r = Some h) /\
  ((0 < HANDLE_SIZE)%Q -> (0 < zoom)%Q ->
   forall h, onDrawnHandle HANDLE_SIZE zoom p (handleAnchor h r) ->
             exists h', Editor.getHandleAt HANDLE_SIZE zoom p r = Some h').
Proof.
  intros tolerance.
  assert (Hsound : forall h, Editor.getHandleAt HANDLE_SIZE zoom p r = Some h ->
                             near tolerance p (handleAnchor h r) = true).
  { intros h. rewrite getHandleAt_scan. cbv zeta. fold tolerance.
    repeat match goal with
           | |- (if ?c then _ else _) = _ -> _ => destruct c eqn:?
           end; intros [= <-] || discriminate; assumption. }
  assert (Hnone : Editor.getHandleAt HANDLE_SIZE zoom p r = None <->
                  forall h, near tolerance p (handleAnchor h r) = false).
  { rewrite getHandleAt_scan. cbv zeta. fold tolerance. split.
    - repeat match goal with
             | |- (if ?c then _ else _) = _ -> _ => destruct c eqn:?
             end; try discriminate.
      intros _ h. destruct h; assumption.
    - intros Hall. now rewrite !Hall. }
  assert (Hsome : forall h, near tolerance p (handleAnchor h r) = true ->
                            exists h', Editor.getHandleAt HANDLE_SIZE zoom p r = Some h').
  { intros h Hh. destruct (Editor.getHandleAt HANDLE_SIZE zoom p r) as [ h' | ] eqn:Hg;
      [ now exists h' | ].
    rewrite (proj1 Hnone eq_refl h) in Hh. discriminate. }
  split; [ exact Hsound | ]. split; [ exact Hnone | ].
  split.
  - intros h Hh Honly. destruct (Hsome h Hh) as [h' Hg]. rewrite Hg. f_equal.
    apply Honly, Hsound, Hg.
  - intros Hsize Hzoom h [Hx Hy]. apply (Hsome h). cbv zeta in Hx, Hy.
    assert (Htol : (0 < tolerance)%Q).
    { unfold tolerance, Qdiv. apply Qmult_lt_0_compat; [ exact Hsize | ].
      now apply Qinv_lt_0_compat. }
    assert (Hhalf : (HANDLE_SIZE / 2 / zoom == tolerance * (1 # 2))%Q).
    { unfold tolerance. field. intros H0. rewrite H0 in Hzoom. lra. }
    rewrite Hhalf in Hx, Hy. fold tolerance in Hx, Hy.
    unfold near. rewrite andb_true_iff, !Qlt_bool_iff.
    split; apply Qabs_case; intros _; lra.
Qed.

(** At zoom 2 with handles of size 8, a press 3 away from the south-east
    corner of the selection grabs that corner; a press in its middle grabs
    nothing. *)
Example handle_of_corner :
  Editor.getHandleAt 8 2 (Point.mk 73 57) (Rect.mk 20 20 50 40) = Some Hse /\
  Editor.getHandleAt 8 2 (Point.mk 45 40) (Rect.mk 20 20 50 40) = None.
Proof. split; reflexivity. Qed.

(** ** The exported page *)





(** A 4:3 slide on a 16:9 page of 1600 by 900 pixels: 12.5 inches wide,
    starting 25/12 of an inch from the left. *)
Example slide_4_3_on_16_9 :
  let place := slidePlacement (Slide.mk 0 "" 1600 900 []) (Slide.mk 1 "" 800 600 []) in
  (Qred (drawX place), Qred (drawY place), Qred (drawW place), Qred (drawH place))
  = (25 # 12, 0, 25 # 2, 75 # 8)%Q.
Proof. vm_compute. reflexivity. Qed.

(** ** The name of the exported file *)

Lemma append_substring_suffix (a b : string) :
  String.substring (String.length a) (String.length b) (a ++ b) = b.
Proof.
  induction a as [ | c a IH ].
  - cbn [String.length String.append].
    induction b as [ | c b IHb ]; [ reflexivity | ].
    cbn [String.length String.substring]. now rewrite IHb.
  - cbn [String.length String.append String.substring]. exact IH.
Qed.

Lemma toLowerCase_append (a b : string) :
  toLowerCase (a ++ b) = (toLowerCase a ++ toLowerCase b)%string.
Proof. induction a as [ | c a IH ]; cbn; [ reflexivity | now rewrite IH ]. Qed.

Lemma toLowerCase_length (s : string) : String.length (toLowerCase s) = String.length s.
Proof. induction s as [ | c s IH ]; cbn; [ reflexivity | now rewrite IH ]. Qed.

Lemma endsWith_append (a b : string) : endsWith (a ++ b) b = true.
Proof.
  unfold endsWith. rewrite append_length.
  replace (String.length a + String.length b - String.length b)%nat
    with (String.length a) by lia.
  rewrite append_substring_suffix, String.eqb_refl.
  now rewrite (proj2 (Nat.leb_le _ _)) by lia.
Qed.

(** X29.  The exported file always has the extension [.pptx], in whatever
    case: a name that ends with it is kept as it is, any other name gets
    [.pptx] appended, and ensuring the extension twice is ensuring it
    once. *)
Theorem ensurePptxExtension_idempotent (filename : string) :
  endsWith (toLowerCase (ensurePptxExtension filename)) ".pptx" = true /\
  ensurePptxExtension (ensurePptxExtension filename) = ensurePptxExtension filename /\
  (ensurePptxExtension filename = filename \/
   ensurePptxExtension filename = (filename ++ ".pptx")%string).
Proof.
  assert (Hends : endsWith (toLowerCase (ensurePptxExtension filename)) ".pptx" = true).
  { unfold ensurePptxExtension.
    destruct (endsWith (toLowerCase filename) ".pptx") eqn:He; [ exact He | ].
    rewrite toLowerCase_append. apply endsWith_append. }
  split; [ exact Hends | ]. split.
  - unfold ensurePptxExtension at 1. now rewrite Hends.
  - unfold ensurePptxExtension.
    destruct (endsWith (toLowerCase filename) ".pptx"); [ left | right ]; reflexivity.
Qed.

(** The name the application exports under is kept; an upper-case extension
    counts. *)
Example ensurePptxExtension_names :
  ensurePptxExtension "edited_slides.pptx" = "edited_slides.pptx"%string /\
  ensurePptxExtension "deck.PPTX" = "deck.PPTX"%string /\
  ensurePptxExtension "deck.ppt" = "deck.ppt.pptx"%string.
Proof. repeat split. Qed.

(** ** Dragging an overlay *)


